(** * MP numerics kernel of the nail-art repository: model and verification

    The C++ sources under [qip_win/MP/header] implement a dense
    linear-algebra toolkit over [double].  The development below embeds

    - the math helpers of [MPdefs.tpp] ([MP_abs], [MP_sgn], [MP_clip],
      [MP_min], [MP_max], the rounding helpers, [MP_swap] and its [int]
      overload),
    - the generic matrix procedures that read, write and exchange
      diagonals, rows and columns,
    - the tridiagonal solver of [MPband.tpp],
    - the two direct eliminators of [MPgauss.tpp],
    - the matrix product of [MatrixN.tpp],
    - the quaternion conversions of [Quaternion.h],

    as functions over an abstract scalar type.  The scalar interface has
    two interpretations: IEEE binary64 ([PrimFloat]), which is what the
    compiled program computes and which is used to run the kernels on
    concrete inputs, and the real numbers, the idealisation in which the
    algebraic contracts ("[A * X = B]", "the round trip is the identity")
    are exact statements. *)

From Stdlib Require Import ZArith List Lia Bool Reals Lra Floats.
From stdpp Require Import base option list gmap.

Set Default Proof Using "Type".

(** ** Scalars *)

(** The operations the kernels use on [double]. *)
Class Scalar (F : Type) : Type := {
  sZ    : Z -> F;            (* conversion of an integer literal *)
  sadd  : F -> F -> F;
  ssub  : F -> F -> F;
  smul  : F -> F -> F;
  sdiv  : F -> F -> F;
  sneg  : F -> F;
  ssqrt : F -> F;
  seqb  : F -> F -> bool;    (* ==  *)
  sltb  : F -> F -> bool;    (* <   *)
  sleb  : F -> F -> bool;    (* <=  *)
  sEPSILON : F               (* MP_EPSILON of MPdefs.h, 1.0e-6 *)
}.

Infix "[+]" := sadd (at level 50, left associativity).
Infix "[-]" := ssub (at level 50, left associativity).
Infix "[*]" := smul (at level 40, left associativity).
Infix "[/]" := sdiv (at level 40, left associativity).
Infix "[==]" := seqb (at level 70, no associativity).
Infix "[<]" := sltb (at level 70, no associativity).
Infix "[<=]" := sleb (at level 70, no associativity).

#[global] Instance scalar_inhabited `{Scalar F} : Inhabited F := populate (sZ 0).

(** *** Real numbers *)

Definition R_eqb (x y : R) : bool := if Req_dec_T x y then true else false.
Definition R_ltb (x y : R) : bool := if Rlt_dec x y then true else false.
Definition R_leb (x y : R) : bool := if Rle_dec x y then true else false.

#[global] Instance R_scalar : Scalar R := {|
  sZ := IZR;
  sadd := Rplus; ssub := Rminus; smul := Rmult; sdiv := Rdiv; sneg := Ropp;
  ssqrt := R_sqrt.sqrt;
  seqb := R_eqb; sltb := R_ltb; sleb := R_leb;
  sEPSILON := (1 / 1000000)%R
|}.

(** *** IEEE binary64 *)

Definition float_of_Z (z : Z) : float :=
  if (z <? 0)%Z then PrimFloat.opp (PrimFloat.of_uint63 (Uint63.of_Z (- z)))
  else PrimFloat.of_uint63 (Uint63.of_Z z).

#[global] Instance float_scalar : Scalar float := {|
  sZ := float_of_Z;
  sadd := PrimFloat.add; ssub := PrimFloat.sub; smul := PrimFloat.mul;
  sdiv := PrimFloat.div; sneg := PrimFloat.opp;
  ssqrt := PrimFloat.sqrt;
  seqb := PrimFloat.eqb; sltb := PrimFloat.ltb; sleb := PrimFloat.leb;
  sEPSILON := PrimFloat.div (float_of_Z 1) (float_of_Z 1000000)
|}.

(** ** Math helpers ([MPdefs.tpp]) *)

(** [MP_abs]: [(a>=0 ? a : -a)]. *)
Definition MP_abs `{Scalar F} (a : F) : F :=
  if sZ 0 [<=] a then a else sneg a.

(** [MP_min] at type [int]: [(a<b ? a : b)]. *)
Definition MP_min (a b : Z) : Z := if (a <? b)%Z then a else b.

(** [MP_abs] at type [int]. *)
Definition MP_abs_int (a : Z) : Z := if (0 <=? a)%Z then a else (- a)%Z.

(** The template [MP_swap(T &a, T &b)]: [T t=a; a = b; b = t;].  The two
    references are addresses [a] and [b] into a memory [mem]; nothing
    prevents them from being the same address. *)
Definition MP_swap {K T M : Type} `{LookupTotal K T M, Insert K T M}
    (a b : K) (mem : M) : M :=
  let t := mem !!! a in
  let mem := <[a := mem !!! b]> mem in
  <[b := t]> mem.

(** C++ [int]: 32-bit two's complement. *)
Definition int_min : Z := (- 2 ^ 31)%Z.
Definition int_max : Z := (2 ^ 31 - 1)%Z.
Definition is_int (x : Z) : Prop := (int_min <= x <= int_max)%Z.
Definition wrap_int (x : Z) : Z := ((x + 2 ^ 31) mod 2 ^ 32 - 2 ^ 31)%Z.
Definition int_xor (x y : Z) : Z := wrap_int (Z.lxor x y).

(** The overload [MP_swap(int &a, int &b)]: [a ^= b; b ^= a; a ^= b;].
    Each compound assignment reads both operands from memory again. *)
Definition MP_swap_int (a b : positive) (mem : gmap positive Z) : gmap positive Z :=
  let mem := <[a := int_xor (mem !!! a) (mem !!! b)]> mem in
  let mem := <[b := int_xor (mem !!! b) (mem !!! a)]> mem in
  <[a := int_xor (mem !!! a) (mem !!! b)]> mem.

(** ** Control flow *)

(** [for (i = lo; i < hi; i++) body]: the state after the loop. *)
Definition for_up {S : Type} (lo hi : nat) (body : nat -> S -> S) (s : S) : S :=
  fold_left (fun s i => body i s) (seq lo (hi - lo)) s.

(** [for (i = hi - 1; i >= lo; i--) body]. *)
Definition for_down {S : Type} (lo hi : nat) (body : nat -> S -> S) (s : S) : S :=
  fold_left (fun s i => body i s) (rev (seq lo (hi - lo))) s.

(** A loop body either falls through to the next iteration or executes a
    [return]; in both cases the memory written so far stays written. *)
Inductive flow (S : Type) : Type :=
  | Next (s : S)
  | Return (s : S).
Arguments Next {S} s.
Arguments Return {S} s.

Fixpoint for_each {S : Type} (ixs : list nat) (body : nat -> S -> flow S) (s : S)
    : flow S :=
  match ixs with
  | [] => Next s
  | i :: ixs' =>
      match body i s with
      | Next s' => for_each ixs' body s'
      | Return s' => Return s'
      end
  end.

(** How a solver call ends: it runs to its last statement, it prints a
    "singular matrix" / "zero pivot" diagnostic on [std::cerr] and returns,
    or its entry [assert] fails. *)
Inductive status : Type :=
  | Completed
  | SingularReported
  | AssertionFailed.

#[global] Instance status_eq_dec : EqDecision status.
Proof. solve_decision. Defined.

(** ** Matrices *)

(** [MatrixN]: [m_rows], [m_cols] and the row-major buffer [m_matrix].
    [Matrix3] and [Matrix4] are the instances with 3 and 4 rows and columns. *)
Record Matrix (F : Type) : Type := mkMatrix {
  m_rows : nat;
  m_cols : nat;
  m_matrix : list F
}.
Arguments mkMatrix {F} _ _ _.
Arguments m_rows {F} _.
Arguments m_cols {F} _.
Arguments m_matrix {F} _.

(** The buffer has as many cells as the dimensions say. *)
Definition wf_matrix {F} (A : Matrix F) : Prop :=
  length (m_matrix A) = m_rows A * m_cols A.

Section MatrixOps.
Context {F : Type} `{Scalar F}.

(** Modelled from the spec: the 2-D accessor [operator()(i, j)] of the matrix
    classes, whose bodies are in translation units that are not part of the
    sources; storage is row-major. *)
Definition mat_get (A : Matrix F) (i j : nat) : F :=
  m_matrix A !!! (i * m_cols A + j).

Definition mat_set (A : Matrix F) (i j : nat) (v : F) : Matrix F :=
  mkMatrix (m_rows A) (m_cols A) (<[i * m_cols A + j := v]> (m_matrix A)).

(** Modelled from the spec: [transpose()], which returns a new matrix and
    leaves its receiver alone. *)
Definition transpose (A : Matrix F) : Matrix F :=
  mkMatrix (m_cols A) (m_rows A)
    (flat_map (fun j => map (fun i => mat_get A i j) (seq 0 (m_rows A)))
              (seq 0 (m_cols A))).

(** [MP_matrixMultiply] of [MatrixN.tpp]: [C = A B], written through the
    running pointer [d3] into the buffer of [C]. *)
Definition MP_matrixMultiply (A B C : Matrix F) : Matrix F :=
  let r1 := m_rows A in
  let c1 := m_cols A in
  let c2 := m_cols B in
  let '(_, Cd) :=
    for_up 0 r1 (fun r '(d3, Cd) =>
      for_up 0 c2 (fun c '(d3, Cd) =>
        let sum :=
          for_up 0 c1 (fun i sum =>
            sum [+] (m_matrix A !!! (r * c1 + i)) [*] (m_matrix B !!! (c + i * c2)))
            (sZ 0) in
        (S d3, <[d3 := sum]> Cd)) (d3, Cd)) (0, m_matrix C) in
  mkMatrix (m_rows C) (m_cols C) Cd.
End MatrixOps.

(** ** Generic matrix procedures ([MPdefs.tpp]) *)

(** What a call that walks a raw [double *] can do: finish with a value,
    fail its [assert], or dereference the pointer outside the buffer it
    was taken from (undefined behaviour in C++). *)
Inductive result (T : Type) : Type :=
  | Ok (v : T)
  | AssertFails
  | OutOfBounds.
Arguments Ok {T} v.
Arguments AssertFails {T}.
Arguments OutOfBounds {T}.

Section Diag.
Context {F : Type} `{Scalar F}.

(** [*p] for [p = &buf[0] + off]. *)
Definition deref (buf : list F) (off : Z) : option F :=
  if (off <? 0)%Z then None else buf !! Z.to_nat off.

(** [*p = v]. *)
Definition store (buf : list F) (off : Z) (v : F) : option (list F) :=
  if (off <? 0)%Z then None
  else if decide (Z.to_nat off < length buf) then Some (<[Z.to_nat off := v]> buf)
  else None.

(** The first loop of [MP_getDiag]:
    [for(i=0; i<l; i++, p+=(m)+1) { if(i >= max) break; u[i] = *p; }].
    [fuel] counts the iterations that the test [i<l] still allows; the
    value of [i] at loop exit is returned for the padding loop. *)
Fixpoint getDiag_copy (fuel : nat) (Ad : list F) (m max i p : Z) (u : list F)
    : result (Z * list F) :=
  match fuel with
  | O => Ok (i, u)
  | S fuel' =>
      if (max <=? i)%Z then Ok (i, u)
      else match deref Ad p with
           | None => OutOfBounds
           | Some v =>
               match store u i v with
               | None => OutOfBounds
               | Some u' => getDiag_copy fuel' Ad m max (i + 1) (p + (m + 1)) u'
               end
           end
  end.

(** The offset [d] and the count [max] both functions compute first. *)
Definition diag_start (l m n d : Z) : result (Z * Z) :=
  if (0 <=? d)%Z then
    if (d <? l)%Z then Ok (d, MP_min (m - d) n) else AssertFails
  else
    if (MP_abs_int d <? l)%Z then Ok ((- d * m)%Z, MP_min (l + d) n)
    else AssertFails.

(** [MP_getDiag(A, d, u)]: the vector [u] after the call. *)
Definition MP_getDiag (A : Matrix F) (d : Z) (u : list F) : result (list F) :=
  let l := Z.of_nat (m_rows A) in
  let m := Z.of_nat (m_cols A) in
  let n := Z.of_nat (length u) in
  match diag_start l m n d with
  | Ok (d, max) =>
      match deref (m_matrix A) d with          (* const double *p = &A[d]; *)
      | None => OutOfBounds
      | Some _ =>
          match getDiag_copy (m_rows A) (m_matrix A) m max 0 d u with
          | Ok (i, u) =>
              Ok (for_up (Z.to_nat i) (length u) (fun k u => <[k := sZ 0]> u) u)
          | AssertFails => AssertFails
          | OutOfBounds => OutOfBounds
          end
      end
  | AssertFails => AssertFails
  | OutOfBounds => OutOfBounds
  end.

(** The loop of [MP_setDiag]:
    [for(i=0; i<l; i++, p+=m+1) { if(i >= max) break; *p = u[i]; }]. *)
Fixpoint setDiag_copy (fuel : nat) (u : list F) (m max i p : Z) (Ad : list F)
    : result (list F) :=
  match fuel with
  | O => Ok Ad
  | S fuel' =>
      if (max <=? i)%Z then Ok Ad
      else match deref u i with
           | None => OutOfBounds
           | Some v =>
               match store Ad p v with
               | None => OutOfBounds
               | Some Ad' => setDiag_copy fuel' u m max (i + 1) (p + (m + 1)) Ad'
               end
           end
  end.

(** [MP_setDiag(u, A, d)]: the matrix [A] after the call. *)
Definition MP_setDiag (u : list F) (A : Matrix F) (d : Z) : result (Matrix F) :=
  let l := Z.of_nat (m_rows A) in
  let m := Z.of_nat (m_cols A) in
  let n := Z.of_nat (length u) in
  match diag_start l m n d with
  | Ok (d, max) =>
      match deref (m_matrix A) d with          (* double *p = &A[d]; *)
      | None => OutOfBounds
      | Some _ =>
          match setDiag_copy (m_rows A) u m max 0 d (m_matrix A) with
          | Ok Ad => Ok (mkMatrix (m_rows A) (m_cols A) Ad)
          | AssertFails => AssertFails
          | OutOfBounds => OutOfBounds
          end
      end
  | AssertFails => AssertFails
  | OutOfBounds => OutOfBounds
  end.
End Diag.

(** ** Tridiagonal solver ([MPband.tpp]) *)

Section Tridiagonal.
Context {F : Type} `{Scalar F}.

(** The bands [a], [b], [c] copied out of the N x 3 matrix
    ([a[i] = *r++; b[i] = *r++; c[i] = *r++;]). *)
Definition tri_bands (n : nat) (Ad : list F) : list F * list F * list F :=
  for_up 0 n (fun i '(a, b, c) =>
      (<[i := Ad !!! (3 * i)]> a,
       <[i := Ad !!! (3 * i + 1)]> b,
       <[i := Ad !!! (3 * i + 2)]> c))
    (replicate n (sZ 0), replicate n (sZ 0), replicate n (sZ 0)).

(** One iteration of the forward substitution on the state
    [(C, pivot, r)]. *)
Definition tri_forward_body (a b c : list F) (i : nat)
    (st : list F * F * list F) : flow (list F * F * list F) :=
  let '(C, pivot, r) := st in
  let C := <[i := (c !!! (i - 1)) [/] pivot]> C in
  let pivot := (b !!! i) [-] (a !!! i) [*] (C !!! i) in
  if pivot [==] sZ 0 then Return (C, pivot, r)
  else Next (C, pivot,
             <[i := ((r !!! i) [-] (a !!! i) [*] (r !!! (i - 1))) [/] pivot]> r).

(** [for (i=n-2; i>=0; i--) r[i] -= (C[i+1] * r[i+1]);] *)
Definition tri_backsubst (n : nat) (C r : list F) : list F :=
  for_down 0 (n - 1) (fun i r =>
    <[i := (r !!! i) [-] (C !!! (i + 1)) [*] (r !!! (i + 1))]> r) r.

(** [MP_tridiagonal(A, B)]: how the call ends and the vector [B] after it. *)
Definition MP_tridiagonal (A : Matrix F) (B : list F) : status * list F :=
  let n := m_rows A in
  let '(a, b, c) := tri_bands n (m_matrix A) in
  let r := B in
  if (b !!! 0) [==] sZ 0 then (SingularReported, r)
  else
    let pivot := b !!! 0 in
    let r := <[0 := (r !!! 0) [/] pivot]> r in
    match for_each (seq 1 (n - 1)) (tri_forward_body a b c)
                   (replicate n (sZ 0), pivot, r) with
    | Return (_, _, r) => (SingularReported, r)
    | Next (C, _, r) => (Completed, tri_backsubst n C r)
    end.
End Tridiagonal.

(** ** Gauss-Jordan elimination with full pivoting ([MPgauss.tpp]) *)

(** The three by-reference arguments of the eliminators. *)
Record Args (F : Type) : Type := mkArgs {
  arg_A : Matrix F;
  arg_B : Matrix F;
  arg_X : Matrix F
}.
Arguments mkArgs {F} _ _ _.
Arguments arg_A {F} _.
Arguments arg_B {F} _.
Arguments arg_X {F} _.

(** The locals of [MP_GaussJordan] that live across iterations: the two
    buffers behind [p1] and [p2], the three bookkeeping arrays carved out
    of [buf], and [irow] / [icol]. *)
Record GJ (F : Type) : Type := mkGJ {
  gj_p1 : list F;
  gj_p2 : list F;
  gj_pivotflg : list nat;
  gj_row_indx : list nat;
  gj_col_indx : list nat;
  gj_irow : nat;
  gj_icol : nat
}.
Arguments mkGJ {F} _ _ _ _ _ _ _.
Arguments gj_p1 {F} _.
Arguments gj_p2 {F} _.
Arguments gj_pivotflg {F} _.
Arguments gj_row_indx {F} _.
Arguments gj_col_indx {F} _.
Arguments gj_irow {F} _.
Arguments gj_icol {F} _.

Section Gauss.
Context {F : Type} `{Scalar F}.

(** [for(int col=0; col<w; col++) MP_swap(d1[col], d2[col]);] with
    [d1 = &p[r1*w]] and [d2 = &p[r2*w]]. *)
Definition swap_rows (w r1 r2 : nat) (p : list F) : list F :=
  for_up 0 w (fun col p => MP_swap (r1 * w + col) (r2 * w + col) p) p.

(** The pivot search: the largest [MP_abs] over the rows and columns
    whose flag is still clear.  State: [(big, irow, icol)]. *)
Definition gj_search (n : nat) (p1 : list F) (pivotflg : list nat)
    (irow icol : nat) : F * nat * nat :=
  for_up 0 n (fun row acc =>
    if (pivotflg !!! row =? 0)%nat then
      for_up 0 n (fun col '(big, irow, icol) =>
        if (pivotflg !!! col =? 0)%nat then
          let d1 := p1 !!! (row * n + col) in
          if big [<] MP_abs d1 then (MP_abs d1, row, col)
          else (big, irow, icol)
        else (big, irow, icol)) acc
    else acc) (sZ 0, irow, icol).

(** "divide the row by the pivot" *)
Definition gj_scale (n m icol : nat) (p1 p2 : list F) : list F * list F :=
  let pivinv := sZ 1 [/] (p1 !!! (icol * n + icol)) in
  let p1 := <[icol * n + icol := sZ 1]> p1 in
  let p1 := for_up 0 n (fun col p1 =>
              <[icol * n + col := (p1 !!! (icol * n + col)) [*] pivinv]> p1) p1 in
  let p2 := for_up 0 m (fun col p2 =>
              <[icol * m + col := (p2 !!! (icol * m + col)) [*] pivinv]> p2) p2 in
  (p1, p2).

(** "fix the other rows by subtracting" *)
Definition gj_reduce (n m icol : nat) (p1 p2 : list F) : list F * list F :=
  for_up 0 n (fun row '(p1, p2) =>
    if (row =? icol)%nat then (p1, p2)
    else
      let r := p1 !!! (row * n + icol) in
      let p1 := <[row * n + icol := sZ 0]> p1 in
      let p1 := for_up 0 n (fun col p1 =>
                  <[row * n + col :=
                      (p1 !!! (row * n + col)) [-] (p1 !!! (icol * n + col)) [*] r]> p1) p1 in
      let p2 := for_up 0 m (fun col p2 =>
                  <[row * m + col :=
                      (p2 !!! (row * m + col)) [-] (p2 !!! (icol * m + col)) [*] r]> p2) p2 in
      (p1, p2)) (p1, p2).

(** The body of the main loop [for(int i=0; i<n; i++)]. *)
Definition gj_body (n m : nat) (i : nat) (st : GJ F) : flow (GJ F) :=
  let '(big, irow, icol) :=
    gj_search n (gj_p1 st) (gj_pivotflg st) (gj_irow st) (gj_icol st) in
  if big [==] sZ 0 then
    Return (mkGJ (gj_p1 st) (gj_p2 st) (gj_pivotflg st)
                 (gj_row_indx st) (gj_col_indx st) irow icol)
  else
    let pivotflg := <[icol := S (gj_pivotflg st !!! icol)]> (gj_pivotflg st) in
    let '(p1, p2) :=
      if (irow =? icol)%nat then (gj_p1 st, gj_p2 st)
      else (swap_rows n irow icol (gj_p1 st), swap_rows m irow icol (gj_p2 st)) in
    let row_indx := <[i := irow]> (gj_row_indx st) in
    let col_indx := <[i := icol]> (gj_col_indx st) in
    let '(p1, p2) := gj_scale n m icol p1 p2 in
    let '(p1, p2) := gj_reduce n m icol p1 p2 in
    Next (mkGJ p1 p2 pivotflg row_indx col_indx irow icol).

(** The unscrambling loop: column interchanges in the reverse order. *)
Definition gj_unscramble (n : nat) (row_indx col_indx : list nat) (p1 : list F)
    : list F :=
  for_down 0 n (fun i p1 =>
    if (row_indx !!! i =? col_indx !!! i)%nat then p1
    else for_up 0 n (fun row p1 =>
           MP_swap (row_indx !!! i + row * n) (col_indx !!! i + row * n) p1) p1) p1.

(** The 1 x 1 special case shared by both eliminators. *)
Definition gauss_1x1 (m : nat) (p1 p2 : list F) : status * list F * list F :=
  if (p1 !!! 0) [==] sZ 0 then (SingularReported, p1, p2)
  else
    let p2 := for_up 0 m (fun col p2 => <[col := (p2 !!! col) [/] (p1 !!! 0)]> p2) p2 in
    let p1 := <[0 := sZ 1 [/] (p1 !!! 0)]> p1 in
    (Completed, p1, p2).

(** The part of [MP_GaussJordan] after [X = B]: the buffers behind [p1]
    and [p2] at return. *)
Definition gj_kernel (n m : nat) (p1 p2 : list F) : status * list F * list F :=
  if (n =? 1)%nat then gauss_1x1 m p1 p2
  else
    match for_each (seq 0 n) (gj_body n m)
            (mkGJ p1 p2 (replicate n 0) (replicate n 0) (replicate n 0) 0 0) with
    | Return st => (SingularReported, gj_p1 st, gj_p2 st)
    | Next st =>
        (Completed, gj_unscramble n (gj_row_indx st) (gj_col_indx st) (gj_p1 st),
         gj_p2 st)
    end.

(** [MP_GaussJordan(A, B, X)]. *)
Definition MP_GaussJordan (a : Args F) : status * Args F :=
  let A := arg_A a in
  let B := arg_B a in
  if negb ((m_rows A =? m_cols A)%nat && (m_rows A =? m_rows B)%nat)
  then (AssertionFailed, a)
  else
    let n := m_cols A in
    let m := m_cols B in
    let a := mkArgs A B B in                                   (* X = B; *)
    let '(st, p1, p2) := gj_kernel n m (m_matrix A) (m_matrix (arg_X a)) in
    (st, mkArgs (mkMatrix (m_rows A) (m_cols A) p1)
                (arg_B a)
                (mkMatrix (m_rows (arg_X a)) (m_cols (arg_X a)) p2)).
End Gauss.

(** ** Gaussian elimination with partial pivoting ([MPgauss.tpp]) *)

Section GaussElimination.
Context {F : Type} `{Scalar F}.

(** "visit all column elements below diag to find pivot".  [d1] always
    points at [p1[pivot*n + col]] and [d2] at [p1[row*n + col]], so the
    state is [pivot] alone. *)
Definition ge_search (n col : nat) (p1 : list F) : nat :=
  for_up (col + 1) n (fun row pivot =>
    if MP_abs (p1 !!! (pivot * n + col)) [<] MP_abs (p1 !!! (row * n + col))
    then row else pivot) col.

(** "forward elimination" of the rows below the diagonal of column [col]. *)
Definition ge_forward (n m col : nat) (p1 p2 : list F) : list F * list F :=
  for_up (col + 1) n (fun row '(p1, p2) =>
    if (p1 !!! (row * n + col)) [==] sZ 0 then (p1, p2)
    else
      let r := (p1 !!! (row * n + col)) [/] (p1 !!! (col * n + col)) in
      let p1 := <[row * n + col := sZ 0]> p1 in
      let p1 := for_up (col + 1) n (fun i p1 =>
                  <[row * n + i :=
                      (p1 !!! (row * n + i)) [-] (p1 !!! (col * n + i)) [*] r]> p1) p1 in
      let p2 := for_up 0 m (fun i p2 =>
                  <[row * m + i :=
                      (p2 !!! (row * m + i)) [-] (p2 !!! (col * m + i)) [*] r]> p2) p2 in
      (p1, p2)) (p1, p2).

(** The body of [for(col=0; col<n-1; col++)] on the state [(p1, p2)]. *)
Definition ge_body (n m : nat) (col : nat) (st : list F * list F)
    : flow (list F * list F) :=
  let '(p1, p2) := st in
  let pivot := ge_search n col p1 in
  if (p1 !!! (pivot * n + col)) [==] sZ 0 then Return (p1, p2)
  else
    let '(p1, p2) :=
      if (pivot =? col)%nat then (p1, p2)
      else (swap_rows n pivot col p1, swap_rows m pivot col p2) in
    Next (ge_forward n m col p1 p2).

(** "backward substitution".  The innermost loop carries [sum] and the
    offset of the pointer [d2] into [p2]; when it exits, [col == row]. *)
Definition ge_backsubst (n m : nat) (p1 p2 : list F) : list F :=
  for_down 0 n (fun row p2 =>
    for_up 0 m (fun i p2 =>
      let '(sum, d2) :=
        for_down (row + 1) n (fun col '(sum, d2) =>
          (sum [-] (p1 !!! (row * n + col)) [*] (p2 !!! d2), d2 - m))
          (p2 !!! (row * m + i), (n - 1) * m + i) in
      <[d2 := sum [/] (p1 !!! (row * n + row))]> p2) p2) p2.

Definition ge_kernel (n m : nat) (p1 p2 : list F) : status * list F * list F :=
  if (n =? 1)%nat then gauss_1x1 m p1 p2
  else
    match for_each (seq 0 (n - 1)) (ge_body n m) (p1, p2) with
    | Return (p1, p2) => (SingularReported, p1, p2)
    | Next (p1, p2) => (Completed, p1, ge_backsubst n m p1 p2)
    end.

(** [MP_GaussElimination(A, B, X)]. *)
Definition MP_GaussElimination (a : Args F) : status * Args F :=
  let A := arg_A a in
  let B := arg_B a in
  if negb ((m_rows A =? m_cols A)%nat && (m_rows A =? m_rows B)%nat)
  then (AssertionFailed, a)
  else
    let n := m_cols A in
    let m := m_cols B in
    let a := mkArgs A B B in                                   (* X = B; *)
    let '(st, p1, p2) := ge_kernel n m (m_matrix A) (m_matrix (arg_X a)) in
    (st, mkArgs (mkMatrix (m_rows A) (m_cols A) p1)
                (arg_B a)
                (mkMatrix (m_rows (arg_X a)) (m_cols (arg_X a)) p2)).
End GaussElimination.

(** ** Quaternions ([Quaternion.h]) *)

(** [m_quat[4]]: [q[0..2]] is the vector part [(x, y, z)], [q[3]] the
    scalar part [w]. *)
Record Quaternion (F : Type) : Type := mkQuaternion {
  q_x : F;
  q_y : F;
  q_z : F;
  q_w : F
}.
Arguments mkQuaternion {F} _ _ _ _.
Arguments q_x {F} _.
Arguments q_y {F} _.
Arguments q_z {F} _.
Arguments q_w {F} _.

(** The four derivations of [MP_matrixToQuaternion]. *)
Inductive branch : Type := Branch_rr | Branch_xx | Branch_yy | Branch_zz.

#[global] Instance branch_eq_dec : EqDecision branch.
Proof. solve_decision. Defined.

Section QuaternionOps.
Context {F : Type} `{Scalar F}.

(** Modelled from the spec: [Quaternion::norm2] and [Quaternion::norm],
    declared in [Quaternion.h] and defined outside the sources:
    "sum-of-squares / its square root". *)
Definition quat_norm2 (q : Quaternion F) : F :=
  q_x q [*] q_x q [+] q_y q [*] q_y q [+] q_z q [*] q_z q [+] q_w q [*] q_w q.

Definition quat_norm (q : Quaternion F) : F := ssqrt (quat_norm2 q).

(** Modelled from the spec: [Quaternion::normalize], declared in
    [Quaternion.h] and defined outside the sources: "scales in place to
    unit norm and fails with a DegenerateVectorError when norm is below a
    small epsilon (leaving the vector unmodified)".  The flag tells
    whether the error was raised. *)
Definition quat_normalize (q : Quaternion F) : bool * Quaternion F :=
  let n := quat_norm q in
  if n [<] sEPSILON then (true, q)
  else (false, mkQuaternion (q_x q [/] n) (q_y q [/] n) (q_z q [/] n) (q_w q [/] n)).

(** The four candidate bases, in the order of the declarations. *)
Definition quat_bases (R : Matrix F) : F * F * F * F :=
  let d0 := mat_get R 0 0 in
  let d1 := mat_get R 1 1 in
  let d2 := mat_get R 2 2 in
  let xx := sZ 1 [+] d0 [-] d1 [-] d2 in
  let yy := sZ 1 [-] d0 [+] d1 [-] d2 in
  let zz := sZ 1 [-] d0 [-] d1 [+] d2 in
  let rr := sZ 1 [+] d0 [+] d1 [+] d2 in
  (rr, xx, yy, zz).

(** [double max = rr; if (xx > max) max = xx; ...] *)
Definition quat_max (rr xx yy zz : F) : F :=
  let max := rr in
  let max := if max [<] xx then xx else max in
  let max := if max [<] yy then yy else max in
  let max := if max [<] zz then zz else max in
  max.

(** The [if (rr == max) ... else if (xx == max) ... else if (yy == max)
    ... else ...] cascade. *)
Definition quat_branch (rr xx yy zz : F) : branch :=
  let max := quat_max rr xx yy zz in
  if rr [==] max then Branch_rr
  else if xx [==] max then Branch_xx
  else if yy [==] max then Branch_yy
  else Branch_zz.

(** The body of each branch; [R] is the transposed input. *)
Definition quat_derive (R : Matrix F) (rr xx yy zz : F) (b : branch)
    : Quaternion F :=
  match b with
  | Branch_rr =>
      let r4 := ssqrt (rr [*] sZ 4) in
      mkQuaternion ((mat_get R 1 2 [-] mat_get R 2 1) [/] r4)
                   ((mat_get R 2 0 [-] mat_get R 0 2) [/] r4)
                   ((mat_get R 0 1 [-] mat_get R 1 0) [/] r4)
                   (r4 [/] sZ 4)
  | Branch_xx =>
      let x4 := ssqrt (xx [*] sZ 4) in
      mkQuaternion (x4 [/] sZ 4)
                   ((mat_get R 0 1 [+] mat_get R 1 0) [/] x4)
                   ((mat_get R 0 2 [+] mat_get R 2 0) [/] x4)
                   ((mat_get R 1 2 [-] mat_get R 2 1) [/] x4)
  | Branch_yy =>
      let y4 := ssqrt (yy [*] sZ 4) in
      mkQuaternion ((mat_get R 0 1 [+] mat_get R 1 0) [/] y4)
                   (y4 [/] sZ 4)
                   ((mat_get R 1 2 [+] mat_get R 2 1) [/] y4)
                   ((mat_get R 2 0 [-] mat_get R 0 2) [/] y4)
  | Branch_zz =>
      let z4 := ssqrt (zz [*] sZ 4) in
      mkQuaternion ((mat_get R 0 2 [+] mat_get R 2 0) [/] z4)
                   ((mat_get R 1 2 [+] mat_get R 2 1) [/] z4)
                   (z4 [/] sZ 4)
                   ((mat_get R 0 1 [-] mat_get R 1 0) [/] z4)
  end.

(** [MP_matrixToQuaternion(A, q)]: the quaternion written into [q]. *)
Definition MP_matrixToQuaternion (A : Matrix F) : Quaternion F :=
  let R := transpose A in
  let '(rr, xx, yy, zz) := quat_bases R in
  quat_derive R rr xx yy zz (quat_branch rr xx yy zz).

(** [MP_quaternionToMatrix(r, R)]: the matrix [R] after the call. *)
Definition MP_quaternionToMatrix (r : Quaternion F) (R : Matrix F) : Matrix F :=
  let q := snd (quat_normalize r) in
  let x := q_x q in
  let y := q_y q in
  let z := q_z q in
  let w := q_w q in
  let R := mat_set R 0 0 (w [*] w [+] x [*] x [-] y [*] y [-] z [*] z) in
  let R := mat_set R 1 0 (sZ 2 [*] x [*] y [+] sZ 2 [*] w [*] z) in
  let R := mat_set R 2 0 (sZ 2 [*] x [*] z [-] sZ 2 [*] w [*] y) in
  let R := mat_set R 0 1 (sZ 2 [*] x [*] y [-] sZ 2 [*] w [*] z) in
  let R := mat_set R 1 1 (w [*] w [-] x [*] x [+] y [*] y [-] z [*] z) in
  let R := mat_set R 2 1 (sZ 2 [*] y [*] z [+] sZ 2 [*] w [*] x) in
  let R := mat_set R 0 2 (sZ 2 [*] x [*] z [+] sZ 2 [*] w [*] y) in
  let R := mat_set R 1 2 (sZ 2 [*] y [*] z [-] sZ 2 [*] w [*] x) in
  let R := mat_set R 2 2 (w [*] w [-] x [*] x [-] y [*] y [+] z [*] z) in
  if (3 <? m_rows R)%nat && (3 <? m_cols R)%nat then
    let R := mat_set R 0 3 (sZ 0) in
    let R := mat_set R 1 3 (sZ 0) in
    let R := mat_set R 2 3 (sZ 0) in
    let R := mat_set R 3 0 (sZ 0) in
    let R := mat_set R 3 1 (sZ 0) in
    let R := mat_set R 3 2 (sZ 0) in
    mat_set R 3 3 (w [*] w [+] x [*] x [+] y [*] y [+] z [*] z)
  else R.
End QuaternionOps.


(** ** The other math helpers ([MPdefs.tpp]) *)

Section MathHelpers.
Context {F : Type} `{Scalar F}.

(** [MP_isZero]: [(MP_abs(a) < MP_EPSILON)], returned as a [T]. *)
Definition MP_isZero (a : F) : F :=
  if MP_abs a [<] sEPSILON then sZ 1 else sZ 0.

(** [MP_sgn]: [(a>0 ? 1 : (a<0 ? -1 : 0))], an [int]. *)
Definition MP_sgn (a : F) : Z :=
  if sZ 0 [<] a then 1%Z else if a [<] sZ 0 then (-1)%Z else 0%Z.

(** [MP_clip]: [(a<=l ? l : a<=h ? a : h)]. *)
Definition MP_clip (a l h : F) : F :=
  if a [<=] l then l else if a [<=] h then a else h.

(** [MP_max]: [(a>b ? a : b)]. *)
Definition MP_max (a b : F) : F := if b [<] a then a else b.

(** The template [MP_min] at a scalar type: [(a<b ? a : b)]. *)
Definition MP_min_T (a b : F) : F := if a [<] b then a else b.
End MathHelpers.

(** *** Rounding helpers

    [MP_round], [MP_floor] and [MP_ceiling] go through the conversion
    [(int) x] of a [double], which truncates toward zero and is undefined
    when the truncated value is not an [int]; the [int] arithmetic that
    follows is undefined when it overflows.  They are modelled on the
    reals, with [None] for undefined behaviour. *)

Definition is_intb (z : Z) : bool := ((int_min <=? z) && (z <=? int_max))%Z.

(** Truncation toward zero. *)
Definition R_trunc (x : R) : Z :=
  if Rle_dec 0 x then Int_part x else (- Int_part (- x))%Z.

(** [(int) x]. *)
Definition int_cast (x : R) : option Z :=
  if is_intb (R_trunc x) then Some (R_trunc x) else None.

(** An [int] result, checked for overflow. *)
Definition int_checked (z : Z) : option Z := if is_intb z then Some z else None.


(** [MP_floor]: [((T) (a==(int)a ? (int)a : a>0 ? (int)a : (int)a-1))]. *)
Definition MP_floor (a : R) : option R :=
  z ← int_cast a;
  if R_eqb a (IZR z) then Some (IZR z)
  else if R_ltb 0 a then Some (IZR z)
  else z' ← int_checked (z - 1); Some (IZR z').

(** [MP_ceiling]: [((T) (a==(int)a ? (int)a : a>0 ? (int)a+1:(int)a))]. *)
Definition MP_ceiling (a : R) : option R :=
  z ← int_cast a;
  if R_eqb a (IZR z) then Some (IZR z)
  else if R_ltb 0 a then z' ← int_checked (z + 1); Some (IZR z')
  else Some (IZR z).

(** ** Rows and columns ([MPdefs.tpp]) *)

Section RowsCols.
Context {F : Type} `{Scalar F}.

(** A copy loop [for(...; ++i, p += step) u[i] = *p;] with [count]
    iterations to go: [Ad] is the buffer [p] points into, [u] the
    destination vector. *)
Fixpoint copy_out (count : nat) (Ad : list F) (step i p : nat) (u : list F)
    : result (list F) :=
  match count with
  | O => Ok u
  | S count' =>
      match Ad !! p with
      | None => OutOfBounds
      | Some v =>
          if decide (i < length u)
          then copy_out count' Ad step (S i) (p + step) (<[i := v]> u)
          else OutOfBounds
      end
  end.

(** A copy loop [for(...; ++i, p += step) *p = u[i];]. *)
Fixpoint copy_in (count : nat) (u : list F) (step i p : nat) (Ad : list F)
    : result (list F) :=
  match count with
  | O => Ok Ad
  | S count' =>
      match u !! i with
      | None => OutOfBounds
      | Some v =>
          if decide (p < length Ad)
          then copy_in count' u step (S i) (p + step) (<[p := v]> Ad)
          else OutOfBounds
      end
  end.

(** [for(; i<n; ++i) u[i] = 0;] *)
Definition pad_zero (i : nat) (u : list F) : list F :=
  for_up i (length u) (fun k u => <[k := sZ 0]> u) u.

(** [MP_getRow(A, row, u)]: the vector [u] after the call. *)
Definition MP_getRow (A : Matrix F) (row : Z) (u : list F) : result (list F) :=
  let m := m_cols A in
  let n := length u in
  if negb ((0 <=? row)%Z && (row <? Z.of_nat (m_rows A))%Z) then AssertFails
  else
    let p := Z.to_nat row * m in
    match m_matrix A !! p with                 (* const double *p = &A[row*m]; *)
    | None => OutOfBounds
    | Some _ =>
        match copy_out (Nat.min m n) (m_matrix A) 1 0 p u with
        | Ok u => Ok (pad_zero (Nat.min m n) u)
        | AssertFails => AssertFails
        | OutOfBounds => OutOfBounds
        end
    end.

(** [MP_setRow(u, A, row)]: the matrix [A] after the call. *)
Definition MP_setRow (u : list F) (A : Matrix F) (row : Z) : result (Matrix F) :=
  let m := m_cols A in
  let n := length u in
  if negb ((0 <=? row)%Z && (row <? Z.of_nat (m_rows A))%Z) then AssertFails
  else
    let p := Z.to_nat row * m in
    match m_matrix A !! p with                 (* double *p = &A[row*m]; *)
    | None => OutOfBounds
    | Some _ =>
        match copy_in (Nat.min m n) u 1 0 p (m_matrix A) with
        | Ok Ad => Ok (mkMatrix (m_rows A) (m_cols A) Ad)
        | AssertFails => AssertFails
        | OutOfBounds => OutOfBounds
        end
    end.

(** [MP_getCol(A, col, u)]: the vector [u] after the call. *)
Definition MP_getCol (A : Matrix F) (col : Z) (u : list F) : result (list F) :=
  let l := m_rows A in
  let m := m_cols A in
  let n := length u in
  if negb ((0 <=? col)%Z && (col <? Z.of_nat m)%Z) then AssertFails
  else
    let p := Z.to_nat col in
    match m_matrix A !! p with                 (* const double *p = &A[col]; *)
    | None => OutOfBounds
    | Some _ =>
        match copy_out (Nat.min l n) (m_matrix A) m 0 p u with
        | Ok u => Ok (pad_zero (Nat.min l n) u)
        | AssertFails => AssertFails
        | OutOfBounds => OutOfBounds
        end
    end.

(** [MP_setCol(u, A, col)]: the matrix [A] after the call. *)
Definition MP_setCol (u : list F) (A : Matrix F) (col : Z) : result (Matrix F) :=
  let l := m_rows A in
  let m := m_cols A in
  let n := length u in
  if negb ((0 <=? col)%Z && (col <? Z.of_nat m)%Z) then AssertFails
  else
    let p := Z.to_nat col in
    match m_matrix A !! p with                 (* double *p = &A[col]; *)
    | None => OutOfBounds
    | Some _ =>
        match copy_in (Nat.min l n) u m 0 p (m_matrix A) with
        | Ok Ad => Ok (mkMatrix (m_rows A) (m_cols A) Ad)
        | AssertFails => AssertFails
        | OutOfBounds => OutOfBounds
        end
    end.

(** [MP_swapRows(A, i, j)]: the trivial case returns before the
    assertions are evaluated; [A(i, k)] is the row-major accessor
    [mat_get]. *)
Definition MP_swapRows (A : Matrix F) (i j : Z) : result (Matrix F) :=
  if (i =? j)%Z then Ok A
  else if negb ((0 <=? i)%Z && (i <? Z.of_nat (m_rows A))%Z) then AssertFails
  else if negb ((0 <=? j)%Z && (j <? Z.of_nat (m_rows A))%Z) then AssertFails
  else
    Ok (mkMatrix (m_rows A) (m_cols A)
          (for_up 0 (m_cols A) (fun k p =>
             MP_swap (Z.to_nat i * m_cols A + k) (Z.to_nat j * m_cols A + k) p)
             (m_matrix A))).

(** [MP_swapCols(A, i, j)]. *)
Definition MP_swapCols (A : Matrix F) (i j : Z) : result (Matrix F) :=
  if (i =? j)%Z then Ok A
  else if negb ((0 <=? i)%Z && (i <? Z.of_nat (m_cols A))%Z) then AssertFails
  else if negb ((0 <=? j)%Z && (j <? Z.of_nat (m_cols A))%Z) then AssertFails
  else
    Ok (mkMatrix (m_rows A) (m_cols A)
          (for_up 0 (m_rows A) (fun k p =>
             MP_swap (k * m_cols A + Z.to_nat i) (k * m_cols A + Z.to_nat j) p)
             (m_matrix A))).
End RowsCols.


(** * Part II: properties *)

(** ** The scalar interface at the reals *)

Lemma R_eqb_true (x y : R) : R_eqb x y = true <-> x = y.
Proof. unfold R_eqb. destruct (Req_dec_T x y); split; congruence. Qed.

Lemma R_eqb_false (x y : R) : R_eqb x y = false <-> x <> y.
Proof. unfold R_eqb. destruct (Req_dec_T x y); split; congruence. Qed.

Lemma R_ltb_true (x y : R) : R_ltb x y = true <-> (x < y)%R.
Proof. unfold R_ltb. destruct (Rlt_dec x y); split; (congruence || lra). Qed.

Lemma R_ltb_false (x y : R) : R_ltb x y = false <-> (y <= x)%R.
Proof. unfold R_ltb. destruct (Rlt_dec x y); split; (congruence || lra). Qed.

Lemma R_leb_true (x y : R) : R_leb x y = true <-> (x <= y)%R.
Proof. unfold R_leb. destruct (Rle_dec x y); split; (congruence || lra). Qed.

Lemma R_leb_false (x y : R) : R_leb x y = false <-> (y < x)%R.
Proof. unfold R_leb. destruct (Rle_dec x y); split; (congruence || lra). Qed.

(** Projections of the real instance, for [cbn]. *)
Ltac rscalar :=
  cbn [sZ sadd ssub smul sdiv sneg ssqrt seqb sltb sleb sEPSILON R_scalar] in *.

(** Decide the comparisons that occur in a goal over concrete reals. *)
Ltac rdecide :=
  repeat match goal with
  | |- context [R_eqb ?a ?b] =>
      first [ rewrite (proj2 (R_eqb_true a b)) by lra
            | rewrite (proj2 (R_eqb_false a b)) by lra ]
  | |- context [R_ltb ?a ?b] =>
      first [ rewrite (proj2 (R_ltb_true a b)) by lra
            | rewrite (proj2 (R_ltb_false a b)) by lra ]
  | |- context [R_leb ?a ?b] =>
      first [ rewrite (proj2 (R_leb_true a b)) by lra
            | rewrite (proj2 (R_leb_false a b)) by lra ]
  end.

Lemma MP_abs_R (x : R) : MP_abs x = Rabs x.
Proof.
  unfold MP_abs; rscalar. unfold Rabs, R_leb.
  destruct (Rle_dec 0 x), (Rcase_abs x); lra.
Qed.

(** ** [MP_swap] and its [int] overload *)

Lemma wrap_int_id (x : Z) : is_int x -> wrap_int x = x.
Proof. unfold is_int, int_min, int_max, wrap_int. intros Hx. rewrite Z.mod_small; lia. Qed.

Lemma int_xor_self (x : Z) : int_xor x x = 0%Z.
Proof. unfold int_xor. rewrite Z.lxor_nilpotent. reflexivity. Qed.

(** The store after [MP_swap_int(x, x)]: the variable holds 0. *)
Lemma MP_swap_int_same (mem : gmap positive Z) (a : positive) :
  MP_swap_int a a mem = <[a := 0%Z]> mem.
Proof.
  unfold MP_swap_int.
  rewrite !lookup_total_insert_eq, !int_xor_self, !insert_insert_eq.
  reflexivity.
Qed.

(** The template on an aliased pair writes back what it read. *)
Lemma MP_swap_same (mem : gmap positive Z) (a : positive) (x : Z) :
  mem !! a = Some x -> MP_swap a a mem = mem.
Proof.
  intros Ha. unfold MP_swap.
  rewrite insert_insert_eq, (lookup_total_correct mem a x Ha).
  by apply insert_id.
Qed.

(** C10. When both references of the [int] overload of [MP_swap] name the
    same variable, the XOR sequence leaves 0 in it, whatever [int] it
    held, and nothing else in memory changes; the generic template called
    on the same aliased pair leaves the variable as it was. *)
Theorem MP_swap_int_aliased_zero (mem : gmap positive Z) (a : positive) (x : Z) :
  is_int x -> mem !! a = Some x ->
  MP_swap_int a a mem !! a = Some 0%Z /\
  MP_swap_int a a mem = <[a := 0%Z]> mem /\
  MP_swap a a mem !! a = Some x /\
  MP_swap a a mem = mem.
Proof.
  intros _ Ha. rewrite MP_swap_int_same, (MP_swap_same mem a x Ha).
  rewrite lookup_insert_eq. done.
Qed.

Lemma MP_swap_int_aliased_zero_witness :
  MP_swap_int 1 1 ({[ 1%positive := 42%Z ]} : gmap positive Z) !! 1%positive = Some 0%Z /\
  MP_swap_int 1 1 ({[ 1%positive := 42%Z ]} : gmap positive Z)
    = <[1%positive := 0%Z]> {[ 1%positive := 42%Z ]} /\
  MP_swap 1%positive 1%positive ({[ 1%positive := 42%Z ]} : gmap positive Z) !! 1%positive
    = Some 42%Z /\
  MP_swap 1%positive 1%positive ({[ 1%positive := 42%Z ]} : gmap positive Z)
    = {[ 1%positive := 42%Z ]}.
Proof.
  apply (MP_swap_int_aliased_zero {[ 1%positive := 42%Z ]} 1%positive 42%Z).
  - unfold is_int, int_min, int_max. lia.
  - reflexivity.
Defined.



(** ** Loops *)

Section LoopLemmas.
Context {S : Type}.
Implicit Types (body : nat -> S -> S) (s : S).

Lemma for_up_done lo hi body s : hi <= lo -> for_up lo hi body s = s.
Proof. intros Hle. unfold for_up. replace (hi - lo) with 0 by lia. reflexivity. Qed.

(** Peeling the last iteration. *)
Lemma for_up_last lo hi body s :
  lo <= hi -> for_up lo (Datatypes.S hi) body s = body hi (for_up lo hi body s).
Proof.
  intros Hle. unfold for_up.
  replace (Datatypes.S hi - lo) with (Datatypes.S (hi - lo)) by lia.
  rewrite seq_S, fold_left_app. simpl. do 2 f_equal. lia.
Qed.

(** Peeling the first iteration. *)
Lemma for_up_first lo hi body s :
  lo < hi -> for_up lo hi body s = for_up (Datatypes.S lo) hi body (body lo s).
Proof.
  intros Hlt. unfold for_up.
  replace (hi - lo) with (Datatypes.S (hi - Datatypes.S lo)) by lia. reflexivity.
Qed.

Lemma for_down_done lo hi body s : hi <= lo -> for_down lo hi body s = s.
Proof. intros Hle. unfold for_down. replace (hi - lo) with 0 by lia. reflexivity. Qed.

(** A downward loop runs its largest index first. *)
Lemma for_down_first lo hi body s :
  lo <= hi -> for_down lo (Datatypes.S hi) body s = for_down lo hi body (body hi s).
Proof.
  intros Hle. unfold for_down.
  replace (Datatypes.S hi - lo) with (Datatypes.S (hi - lo)) by lia.
  rewrite seq_S, rev_app_distr. simpl. do 3 f_equal. lia.
Qed.

(** Invariant rule for upward loops. *)
Lemma for_up_ind (P : nat -> S -> Prop) lo hi body s :
  lo <= hi -> P lo s ->
  (forall i t, lo <= i < hi -> P i t -> P (Datatypes.S i) (body i t)) ->
  P hi (for_up lo hi body s).
Proof.
  intros Hle H0 Hstep. induction hi as [|hi IH].
  - replace lo with 0 in * by lia. rewrite for_up_done by lia. exact H0.
  - destruct (decide (lo = Datatypes.S hi)) as [->|Hne].
    + rewrite for_up_done by lia. exact H0.
    + rewrite for_up_last by lia. apply Hstep; [lia|].
      apply IH; [lia|]. intros i t Hi. apply Hstep. lia.
Qed.

(** Invariant rule for downward loops: [P i] holds before index [i - 1]
    is processed. *)
Lemma for_down_ind (P : nat -> S -> Prop) lo hi body s :
  lo <= hi -> P hi s ->
  (forall i t, lo <= i < hi -> P (Datatypes.S i) t -> P i (body i t)) ->
  P lo (for_down lo hi body s).
Proof.
  intros Hle. revert s. induction hi as [|hi IH]; intros s H0 Hstep.
  - replace lo with 0 in * by lia. rewrite for_down_done by lia. exact H0.
  - destruct (decide (lo = Datatypes.S hi)) as [->|Hne].
    + rewrite for_down_done by lia. exact H0.
    + rewrite for_down_first by lia. apply IH; [lia| |].
      * apply Hstep; [lia|exact H0].
      * intros i t Hi. apply Hstep. lia.
Qed.
End LoopLemmas.

(** ** Cells of a buffer *)

Lemma lookup_total_insert_cases {A} `{Inhabited A} (l : list A) (i j : nat) (x : A) :
  i < length l ->
  <[i := x]> l !!! j = if decide (i = j) then x else l !!! j.
Proof.
  intros Hi. destruct (decide (i = j)) as [->|Hne].
  - by apply list_lookup_total_insert_eq.
  - by apply list_lookup_total_insert_ne.
Qed.

Lemma lookup_total_replicate_lt {A} `{Inhabited A} (n i : nat) (x : A) :
  i < n -> replicate n x !!! i = x.
Proof. intros Hi. by apply lookup_total_replicate_2. Qed.

(** Invariant rule for loops with an early [return]: [P i] holds before
    index [i] is processed, [Q] holds of the state at a [return]. *)
Lemma for_each_seq_ind {S : Type} (P : nat -> S -> Prop) (Q : S -> Prop)
    (lo len : nat) (body : nat -> S -> flow S) (s : S) :
  P lo s ->
  (forall i t, lo <= i < lo + len -> P i t ->
     match body i t with Next t' => P (Datatypes.S i) t' | Return t' => Q t' end) ->
  match for_each (seq lo len) body s with
  | Next t => P (lo + len) t
  | Return t => Q t
  end.
Proof.
  revert lo s. induction len as [|len IH]; intros lo s H0 Hstep.
  - simpl. replace (lo + 0) with lo by lia. exact H0.
  - simpl. pose proof (Hstep lo s ltac:(lia) H0) as Hb.
    destruct (body lo s) as [t'|t']; [|exact Hb].
    replace (lo + Datatypes.S len) with (Datatypes.S lo + len) by lia.
    apply IH; [exact Hb|]. intros i t Hi. apply Hstep. lia.
Qed.


(** ** The tridiagonal solver *)

Section TridiagonalSpec.
Local Open Scope R_scope.

(** The bands of the N x 3 input and the right-hand side. *)
Variable A : Matrix R.
Variable B : list R.

Definition band_a (i : nat) : R := m_matrix A !!! (3 * i)%nat.
Definition band_b (i : nat) : R := m_matrix A !!! (3 * i + 1)%nat.
Definition band_c (i : nat) : R := m_matrix A !!! (3 * i + 2)%nat.

(** The pivots of the forward sweep, by their recurrence. *)
Fixpoint tri_pivot (i : nat) : R :=
  match i with
  | O => band_b 0
  | S j => band_b i - band_a i * (band_c j / tri_pivot j)
  end.

(** The right-hand side after the forward sweep. *)
Fixpoint tri_fwd (i : nat) : R :=
  match i with
  | O => B !!! 0%nat / tri_pivot 0
  | S j => (B !!! i - band_a i * tri_fwd j) / tri_pivot i
  end.

(** The back-substituted unknown [t] places above the last one. *)
Fixpoint tri_back (t i : nat) : R :=
  match t with
  | O => tri_fwd i
  | S t' => tri_fwd i - band_c i / tri_pivot i * tri_back t' (S i)
  end.

Definition tri_x (n i : nat) : R := tri_back (n - 1 - i) i.


Lemma tri_x_last n : (1 <= n)%nat -> tri_x n (n - 1) = tri_fwd (n - 1).
Proof. intros Hn. unfold tri_x. replace (n - 1 - (n - 1))%nat with 0%nat by lia. done. Qed.

Lemma tri_x_step n i :
  (i + 1 < n)%nat ->
  tri_x n i = tri_fwd i - band_c i / tri_pivot i * tri_x n (i + 1).
Proof.
  intros Hi. unfold tri_x.
  replace (n - 1 - i)%nat with (S (n - 1 - (i + 1))) by lia.
  simpl. replace (S i) with (i + 1)%nat by lia. reflexivity.
Qed.

End TridiagonalSpec.

Section TridiagonalCode.
Local Open Scope R_scope.
Variable A : Matrix R.
Variable B : list R.
Variable n : nat.

Local Abbreviation a_ := (band_a A).
Local Abbreviation b_ := (band_b A).
Local Abbreviation c_ := (band_c A).
Local Abbreviation piv := (tri_pivot A).
Local Abbreviation fwd := (tri_fwd A B).

(** The three local arrays hold the three bands. *)
Lemma tri_bands_spec :
  let '(a, b, c) := tri_bands n (m_matrix A) in
  length a = n /\ length b = n /\ length c = n /\
  forall i, (i < n)%nat -> a !!! i = a_ i /\ b !!! i = b_ i /\ c !!! i = c_ i.
Proof.
  unfold tri_bands.
  apply (for_up_ind
    (fun k '(a, b, c) =>
       length a = n /\ length b = n /\ length c = n /\
       forall i, (i < k)%nat -> a !!! i = a_ i /\ b !!! i = b_ i /\ c !!! i = c_ i)
    0 n).
  - lia.
  - rewrite !length_replicate. repeat split; try done. all: intros; lia.
  - intros i [[a b] c] Hi (Ha & Hb & Hc & Hk).
    rewrite !length_insert. split; [done|]. split; [done|]. split; [done|].
    intros j Hj. destruct (decide (j = i)) as [->|Hne].
    + rewrite !list_lookup_total_insert_eq by lia. done.
    + rewrite !list_lookup_total_insert_ne by lia. apply Hk. lia.
Qed.

(** What holds of [(C, pivot, r)] before iteration [k] of the forward
    substitution. *)
Definition tri_fwd_inv (k : nat) (st : list R * R * list R) : Prop :=
  let '(C, pivot, r) := st in
  length C = n /\ length r = n /\
  pivot = piv (k - 1) /\
  (forall j, (j < k)%nat -> piv j <> 0) /\
  (forall j, (1 <= j < k)%nat -> C !!! j = c_ (j - 1) / piv (j - 1)) /\
  (forall j, (j < k)%nat -> r !!! j = fwd j) /\
  (forall j, (k <= j)%nat -> r !!! j = B !!! j).

(** What holds at the [return] of the zero-pivot test. *)
Definition tri_fwd_abort (st : list R * R * list R) : Prop :=
  let '(_, _, r) := st in
  exists k, (1 <= k < n)%nat /\ piv k = 0 /\
    (forall j, (j < k)%nat -> piv j <> 0) /\
    length r = n /\
    (forall j, (j < k)%nat -> r !!! j = fwd j) /\
    (forall j, (k <= j)%nat -> r !!! j = B !!! j).

Lemma tri_forward_body_spec (a b c : list R) (i : nat) st :
  (forall j, (j < n)%nat -> a !!! j = a_ j /\ b !!! j = b_ j /\ c !!! j = c_ j) ->
  (1 <= i < n)%nat -> tri_fwd_inv i st ->
  match tri_forward_body a b c i st with
  | Next st' => tri_fwd_inv (S i) st'
  | Return st' => tri_fwd_abort st'
  end.
Proof.
  intros Hbands Hi. destruct st as [[C pivot] r].
  intros (HC & Hr & Hpiv & Hnz & HCj & Hlo & Hhi).
  unfold tri_forward_body. rscalar.
  destruct (Hbands i ltac:(lia)) as (Ha & Hb & _).
  destruct (Hbands (i - 1)%nat ltac:(lia)) as (_ & _ & Hc).
  rewrite list_lookup_total_insert_eq by lia.
  rewrite Ha, Hb, Hc, Hpiv.
  assert (Hp : b_ i - a_ i * (c_ (i - 1) / piv (i - 1)) = piv i).
  { destruct i as [|i]; [lia|]. simpl. replace (i - 0)%nat with i by lia. done. }
  rewrite Hp. unfold R_eqb. destruct (Req_dec_T (piv i) 0) as [Hz|Hz].
  - exists i. repeat split; try done; lia.
  - unfold tri_fwd_inv. rewrite !length_insert. repeat split; try done.
    + f_equal. lia.
    + intros j Hj. destruct (decide (j = i)) as [->|]; [done|]. apply Hnz. lia.
    + intros j Hj. destruct (decide (j = i)) as [->|].
      * by rewrite list_lookup_total_insert_eq by lia.
      * rewrite list_lookup_total_insert_ne by lia. apply HCj. lia.
    + intros j Hj. destruct (decide (j = i)) as [->|].
      * rewrite list_lookup_total_insert_eq by lia.
        rewrite (Hhi i) by lia. rewrite (Hlo (i - 1)%nat) by lia.
        destruct i as [|i]; [lia|]. simpl. replace (i - 0)%nat with i by lia. done.
      * rewrite list_lookup_total_insert_ne by lia. apply Hlo. lia.
    + intros j Hj. rewrite list_lookup_total_insert_ne by lia. apply Hhi. lia.
Qed.

(** The back-substitution turns the forward values into the unknowns. *)
Lemma tri_backsubst_spec (C r : list R) :
  (1 <= n)%nat -> length C = n -> length r = n ->
  (forall j, (1 <= j < n)%nat -> C !!! j = c_ (j - 1) / piv (j - 1)) ->
  (forall j, (j < n)%nat -> r !!! j = fwd j) ->
  length (tri_backsubst n C r) = n /\
  forall j, (j < n)%nat -> tri_backsubst n C r !!! j = tri_x A B n j.
Proof.
  intros Hn HC Hr HCj Hrj. unfold tri_backsubst.
  pose proof (for_down_ind
    (fun k (t : list R) =>
       length t = n /\
       (forall j, (k <= j < n)%nat -> t !!! j = tri_x A B n j) /\
       (forall j, (j < k)%nat -> t !!! j = fwd j))
    0 (n - 1)
    (fun i r => <[i := r !!! i - C !!! (i + 1)%nat * r !!! (i + 1)%nat]> r) r) as H.
  destruct H as (Hl & Hx & _).
  - lia.
  - split; [done|]. split.
    + intros j Hj. replace j with (n - 1)%nat by lia.
      rewrite tri_x_last by lia. apply Hrj. lia.
    + intros j Hj. apply Hrj. lia.
  - intros i t Hi (Hl & Hx & Hf). rewrite length_insert. split; [done|]. split.
    + intros j Hj. destruct (decide (j = i)) as [->|].
      * rewrite list_lookup_total_insert_eq by lia.
        rewrite (tri_x_step A B n i) by lia.
        rewrite (Hf i) by lia. rewrite (Hx (i + 1)%nat) by lia.
        rewrite HCj by lia. replace (i + 1 - 1)%nat with i by lia. done.
      * rewrite list_lookup_total_insert_ne by lia. apply Hx. lia.
    + intros j Hj. rewrite list_lookup_total_insert_ne by lia. apply Hf. lia.
  - split; [exact Hl|]. intros j Hj. apply Hx. lia.
Qed.
End TridiagonalCode.

(** The two ways a call of [MP_tridiagonal] on [n >= 1] rows can end. *)
Lemma MP_tridiagonal_cases (A : Matrix R) (B : list R) :
  (1 <= m_rows A)%nat -> length B = m_rows A ->
  let n := m_rows A in
  let st := (MP_tridiagonal A B).1 in
  let B' := (MP_tridiagonal A B).2 in
  length B' = n /\
  ((st = SingularReported /\
    exists k, (k < n)%nat /\ tri_pivot A k = 0%R /\
      (forall j, (j < k)%nat -> tri_pivot A j <> 0%R) /\
      (forall j, (j < k)%nat -> B' !!! j = tri_fwd A B j) /\
      (forall j, (k <= j)%nat -> B' !!! j = B !!! j))
   \/
   (st = Completed /\
    (forall j, (j < n)%nat -> tri_pivot A j <> 0%R) /\
    (forall j, (j < n)%nat -> B' !!! j = tri_x A B n j))).
Proof.
  intros Hn HB n st B'. subst st B'. unfold MP_tridiagonal. fold n.
  pose proof (tri_bands_spec A n) as Hbands.
  destruct (tri_bands n (m_matrix A)) as [[a b] c].
  destruct Hbands as (Hla & Hlb & Hlc & Hbands).
  destruct (Hbands 0%nat ltac:(lia)) as (_ & Hb0 & _).
  rscalar. rewrite Hb0. unfold R_eqb.
  destruct (Req_dec_T (band_b A 0) 0) as [Hz|Hz]; cbn [fst snd].
  - split; [done|]. left. split; [done|]. exists 0%nat.
    repeat split; try done; try lia. all: intros; lia.
  - pose proof (for_each_seq_ind (tri_fwd_inv A B n) (tri_fwd_abort A B n)
                  1 (n - 1) (tri_forward_body a b c)
                  (replicate n (sZ 0), band_b A 0,
                   <[0%nat := (B !!! 0%nat / band_b A 0)%R]> B)) as Hloop.
    destruct (for_each (seq 1 (n - 1)) (tri_forward_body a b c) _)
      as [[[C pivot] r]|[[C pivot] r]]; cbn [fst snd].
    + destruct Hloop as (HC & Hr & _ & Hnz & HCj & Hlo & _).
      * unfold tri_fwd_inv. rewrite length_replicate, length_insert.
        repeat split; try done.
        -- intros j Hj. replace j with 0%nat by lia. done.
        -- intros; lia.
        -- intros j Hj. replace j with 0%nat by lia.
           by rewrite list_lookup_total_insert_eq by lia.
        -- intros j Hj. by rewrite list_lookup_total_insert_ne by lia.
      * intros i t Hi. apply tri_forward_body_spec; [done|lia].
      * replace (1 + (n - 1))%nat with n in * by lia.
        destruct (tri_backsubst_spec A B n C r) as (Hl & Hx); try done.
        split; [done|]. right. done.
    + destruct Hloop as (k & Hk & Hpk & Hnz & Hr & Hlo & Hhi).
      * unfold tri_fwd_inv. rewrite length_replicate, length_insert.
        repeat split; try done.
        -- intros j Hj. replace j with 0%nat by lia. done.
        -- intros; lia.
        -- intros j Hj. replace j with 0%nat by lia.
           by rewrite list_lookup_total_insert_eq by lia.
        -- intros j Hj. by rewrite list_lookup_total_insert_ne by lia.
      * intros i t Hi. apply tri_forward_body_spec; [done|lia].
      * split; [done|]. left. split; [done|]. exists k. repeat split; try done. lia.
Qed.



(** ** The worked tridiagonal example *)

Definition example_band : Matrix R := mkMatrix 3 3 [0; 2; 1; 1; 2; 1; 1; 2; 0]%R.
Definition example_rhs : list R := [1; 2; 3]%R.

Definition example_band_f : Matrix float :=
  mkMatrix 3 3 [0; 2; 1; 1; 2; 1; 1; 2; 0]%float.
Definition example_rhs_f : list float := [1; 2; 3]%float.

(** [|x - y| <= tol] in binary64. *)
Definition close_f (tol x y : float) : bool :=
  PrimFloat.leb (PrimFloat.abs (PrimFloat.sub x y)) tol.

Lemma example_pivots :
  tri_pivot example_band 0 = 2%R /\ tri_pivot example_band 1 = (3 / 2)%R /\
  tri_pivot example_band 2 = (4 / 3)%R.
Proof.
  assert (H0 : tri_pivot example_band 0 = 2%R) by reflexivity.
  assert (H1 : tri_pivot example_band 1 = (3 / 2)%R).
  { change (tri_pivot example_band 1)
      with (2 - 1 * (1 / tri_pivot example_band 0))%R. rewrite H0. lra. }
  assert (H2 : tri_pivot example_band 2 = (4 / 3)%R).
  { change (tri_pivot example_band 2)
      with (2 - 1 * (1 / tri_pivot example_band 1))%R. rewrite H1. lra. }
  done.
Qed.

Lemma example_forward :
  tri_fwd example_band example_rhs 0 = (1 / 2)%R /\
  tri_fwd example_band example_rhs 1 = 1%R /\
  tri_fwd example_band example_rhs 2 = (3 / 2)%R.
Proof.
  destruct example_pivots as (H0 & H1 & H2).
  assert (F0 : tri_fwd example_band example_rhs 0 = (1 / 2)%R).
  { change (tri_fwd example_band example_rhs 0)
      with (1 / tri_pivot example_band 0)%R. rewrite H0. lra. }
  assert (F1 : tri_fwd example_band example_rhs 1 = 1%R).
  { change (tri_fwd example_band example_rhs 1)
      with ((2 - 1 * tri_fwd example_band example_rhs 0) / tri_pivot example_band 1)%R.
    rewrite F0, H1. lra. }
  assert (F2 : tri_fwd example_band example_rhs 2 = (3 / 2)%R).
  { change (tri_fwd example_band example_rhs 2)
      with ((3 - 1 * tri_fwd example_band example_rhs 1) / tri_pivot example_band 2)%R.
    rewrite F1, H2. lra. }
  done.
Qed.

(** C4. On the bands sub = [0,1,1], diag = [2,2,2], super = [1,1,0] and the
    right-hand side [1,2,3], [MP_tridiagonal] completes and overwrites the
    right-hand side with the solution [0.5, 0, 1.5] of
    [2 x0 + x1 = 1], [x0 + 2 x1 + x2 = 2], [x1 + 2 x2 = 3]: exactly in real
    arithmetic, and to within [2^-49] (about 1.8e-15) in each component when the same
    statements are executed in IEEE binary64. *)
Theorem MP_tridiagonal_example :
  MP_tridiagonal example_band example_rhs = (Completed, [1 / 2; 0; 3 / 2]%R) /\
  (2 * (1 / 2) + 0 = 1 /\ 1 / 2 + 2 * 0 + 3 / 2 = 2 /\ 0 + 2 * (3 / 2) = 3)%R /\
  (MP_tridiagonal example_band_f example_rhs_f).1 = Completed /\
  length (MP_tridiagonal example_band_f example_rhs_f).2 = 3 /\
  close_f 0x1p-49 ((MP_tridiagonal example_band_f example_rhs_f).2 !!! 0) 0.5 = true /\
  close_f 0x1p-49 ((MP_tridiagonal example_band_f example_rhs_f).2 !!! 1) 0 = true /\
  close_f 0x1p-49 ((MP_tridiagonal example_band_f example_rhs_f).2 !!! 2) 1.5 = true.
Proof.
  split; [|split; [lra|by vm_compute]].
  destruct (MP_tridiagonal_cases example_band example_rhs) as (Hl & Hc);
    [simpl; lia|reflexivity|].
  destruct example_pivots as (P0 & P1 & P2).
  destruct example_forward as (F0 & F1 & F2).
  change (m_rows example_band) with 3 in *.
  destruct Hc as [(_ & k & Hk & Hz & _)|(Hst & _ & Hx)].
  { destruct k as [|[|[|?]]]; try lia; rewrite ?P0, ?P1, ?P2 in Hz; lra. }
  assert (X2 : tri_x example_band example_rhs 3 2 = (3 / 2)%R) by exact F2.
  assert (X1 : tri_x example_band example_rhs 3 1 = 0%R).
  { rewrite (tri_x_step _ _ 3 1) by lia. change (1 + 1) with 2. rewrite X2, F1, P1.
    change (band_c example_band 1) with 1%R. lra. }
  assert (X0 : tri_x example_band example_rhs 3 0 = (1 / 2)%R).
  { rewrite (tri_x_step _ _ 3 0) by lia. change (0 + 1) with 1. rewrite X1, F0. lra. }
  pose proof (Hx 0 ltac:(lia)) as E0. pose proof (Hx 1 ltac:(lia)) as E1.
  pose proof (Hx 2 ltac:(lia)) as E2. rewrite X0 in E0. rewrite X1 in E1. rewrite X2 in E2.
  destruct (MP_tridiagonal example_band example_rhs) as [st r]. simpl in *.
  destruct r as [|r0 [|r1 [|r2 [|? ?]]]]; simpl in Hl; try lia.
  simpl in E0, E1, E2. by subst.
Qed.


(** ** Finite sums of reals *)

Section Sums.
Local Open Scope R_scope.

(** [rsum n f] is [f 0 + ... + f (n-1)], summed in the order in which
    [MP_matrixMultiply] accumulates. *)
Fixpoint rsum (n : nat) (f : nat -> R) : R :=
  match n with
  | O => 0
  | S k => rsum k f + f k
  end.

(** Kronecker's delta. *)
Definition delta (i j : nat) : R := if decide (i = j) then 1 else 0.

(** The transposition of [p] and [q]. *)
Definition transp (p q k : nat) : nat :=
  if decide (k = p) then q else if decide (k = q) then p else k.

Lemma rsum_ext n f g : (forall k, (k < n)%nat -> f k = g k) -> rsum n f = rsum n g.
Proof.
  induction n as [|n IH]; intros Hfg; simpl; [done|].
  rewrite IH, Hfg by (intros; try apply Hfg; lia). done.
Qed.

Lemma rsum_zero n f : (forall k, (k < n)%nat -> f k = 0) -> rsum n f = 0.
Proof.
  induction n as [|n IH]; intros Hf; simpl; [done|].
  rewrite IH, Hf by (intros; try apply Hf; lia). lra.
Qed.

Lemma rsum_plus n f g : rsum n (fun k => f k + g k) = rsum n f + rsum n g.
Proof. induction n as [|n IH]; simpl; [lra|]. rewrite IH. lra. Qed.

Lemma rsum_minus n f g : rsum n (fun k => f k - g k) = rsum n f - rsum n g.
Proof. induction n as [|n IH]; simpl; [lra|]. rewrite IH. lra. Qed.

Lemma rsum_scal_l n c f : rsum n (fun k => c * f k) = c * rsum n f.
Proof. induction n as [|n IH]; simpl; [lra|]. rewrite IH. lra. Qed.

Lemma rsum_scal_r n c f : rsum n (fun k => f k * c) = rsum n f * c.
Proof. induction n as [|n IH]; simpl; [lra|]. rewrite IH. lra. Qed.

(** Pulling the term of index [p] out of a sum. *)
Lemma rsum_split n p f :
  (p < n)%nat ->
  rsum n f = f p + rsum n (fun k => if decide (k = p) then 0 else f k).
Proof.
  induction n as [|n IH]; intros Hp; [lia|]. simpl.
  destruct (decide (n = p)) as [->|Hne].
  - rewrite (rsum_ext p (fun k => if decide (k = p) then 0 else f k) f).
    + lra.
    + intros k Hk. rewrite decide_False by lia. done.
  - rewrite IH by lia. lra.
Qed.

Lemma rsum_delta_r n c f : (c < n)%nat -> rsum n (fun k => f k * delta k c) = f c.
Proof.
  intros Hc. rewrite (rsum_split n c) by done. unfold delta at 1.
  rewrite decide_True by done. rewrite rsum_zero; [lra|].
  intros k Hk. destruct (decide (k = c)); [done|].
  unfold delta. rewrite decide_False by done. lra.
Qed.

Lemma rsum_delta_l n c f : (c < n)%nat -> rsum n (fun k => delta c k * f k) = f c.
Proof.
  intros Hc. rewrite <- (rsum_delta_r n c f Hc). apply rsum_ext. intros k _.
  unfold delta. destruct (decide (c = k)), (decide (k = c)); subst; try done; lra.
Qed.

Lemma transp_lt n p q k : (p < n)%nat -> (q < n)%nat -> (k < n)%nat -> (transp p q k < n)%nat.
Proof. unfold transp. intros. repeat case_decide; lia. Qed.

Lemma transp_invol p q k : transp p q (transp p q k) = k.
Proof. unfold transp. repeat case_decide; congruence. Qed.

Lemma transp_same p k : transp p p k = k.
Proof. unfold transp. repeat case_decide; congruence. Qed.

(** A sum is invariant under a transposition of its indices. *)
Lemma rsum_transp n p q f :
  (p < n)%nat -> (q < n)%nat -> rsum n (fun k => f (transp p q k)) = rsum n f.
Proof.
  intros Hp Hq. destruct (decide (p = q)) as [->|Hpq].
  { apply rsum_ext. intros k _. by rewrite transp_same. }
  rewrite (rsum_split n p (fun k => f (transp p q k))) by done.
  rewrite (rsum_split n q (fun k => if decide (k = p) then 0 else f (transp p q k))) by done.
  rewrite (rsum_split n p f) by done.
  rewrite (rsum_split n q (fun k => if decide (k = p) then 0 else f k)) by done.
  rewrite (decide_False (P := q = p)) by done.
  replace (transp p q p) with q by (unfold transp; repeat case_decide; congruence).
  replace (transp p q q) with p by (unfold transp; repeat case_decide; congruence).
  rewrite (rsum_ext n
    (fun k => if decide (k = q) then 0
              else if decide (k = p) then 0 else f (transp p q k))
    (fun k => if decide (k = q) then 0 else if decide (k = p) then 0 else f k)).
  - destruct (decide (q = p)); [congruence|lra].
  - intros k _. repeat case_decide; try done. unfold transp.
    repeat case_decide; congruence.
Qed.

(** Exchange of two finite sums. *)
Lemma rsum_exchange n m (f : nat -> nat -> R) :
  rsum n (fun i => rsum m (fun j => f i j)) = rsum m (fun j => rsum n (fun i => f i j)).
Proof.
  induction n as [|n IH]; simpl.
  - symmetry. by apply rsum_zero.
  - rewrite IH, <- rsum_plus. done.
Qed.
End Sums.


(** ** Row-major buffers seen as matrices *)

(** Split every [decide] of the goal and close the cases by arithmetic. *)
Ltac cases_done :=
  repeat case_decide; destruct_and?; subst;
  first [done | lia | exfalso; lia | exfalso; tauto | lra].

(** The cell in row [i] and column [j] of a buffer with rows of width [w]. *)
Definition cell (w : nat) (l : list R) (i j : nat) : R := l !!! (i * w + j).

Lemma cell_idx_lt (h w i j : nat) : i < h -> j < w -> i * w + j < h * w.
Proof.
  intros Hi Hj. assert ((i + 1) * w <= h * w) by (apply Nat.mul_le_mono_r; lia). lia.
Qed.

Lemma cell_idx_inj (w i j i' j' : nat) :
  j < w -> j' < w -> i * w + j = i' * w + j' -> i = i' /\ j = j'.
Proof.
  intros Hj Hj' He.
  destruct (Nat.lt_trichotomy i i') as [Hlt|[->|Hgt]].
  - assert ((i + 1) * w <= i' * w) by (apply Nat.mul_le_mono_r; lia). lia.
  - lia.
  - assert ((i' + 1) * w <= i * w) by (apply Nat.mul_le_mono_r; lia). lia.
Qed.

Lemma cell_insert (w h : nat) (l : list R) (r c i j : nat) (v : R) :
  length l = h * w -> r < h -> c < w -> j < w ->
  cell w (<[r * w + c := v]> l) i j
  = if decide (i = r /\ j = c) then v else cell w l i j.
Proof.
  intros Hl Hr Hc Hj. unfold cell.
  rewrite lookup_total_insert_cases by (rewrite Hl; by apply cell_idx_lt).
  destruct (decide (r * w + c = i * w + j)) as [He|Hne].
  - apply cell_idx_inj in He as [-> ->]; [|done..]. by rewrite decide_True.
  - rewrite decide_False; [done|]. intros [-> ->]. done.
Qed.

(** A loop that rewrites the cells [lo .. hi-1] of row [r], each new value
    computed by [f] from cells the loop has not written yet. *)
Lemma row_loop_spec (w h r lo hi : nat) (f : nat -> list R -> R) (p : list R) :
  r < h -> hi <= w -> length p = h * w ->
  (forall col p', lo <= col < hi -> length p' = length p ->
     (forall i j, i < h -> j < w -> ~ (i = r /\ lo <= j < col) ->
        cell w p' i j = cell w p i j) ->
     f col p' = f col p) ->
  let p' := for_up lo hi (fun col p => <[r * w + col := f col p]> p) p in
  length p' = length p /\
  forall i j, i < h -> j < w ->
    cell w p' i j = if decide (i = r /\ lo <= j < hi) then f j p else cell w p i j.
Proof.
  intros Hr Hhi Hl Hf p'. subst p'.
  destruct (decide (lo <= hi)) as [Hle|Hgt].
  2: { rewrite for_up_done by lia. split; [done|]. intros i j _ _.
       rewrite decide_False by lia. done. }
  apply (for_up_ind
    (fun k t => length t = length p /\
       forall i j, i < h -> j < w ->
         cell w t i j = if decide (i = r /\ lo <= j < k) then f j p else cell w p i j)
    lo hi); [done| |].
  - split; [done|]. intros i j _ _. rewrite decide_False by lia. done.
  - intros k t Hk (Hlt & Ht). rewrite length_insert. split; [done|].
    intros i j Hi Hj.
    rewrite (cell_insert w h) by (lia || congruence).
    assert (Hfk : f k t = f k p).
    { apply Hf; [lia|done|]. intros i' j' Hi' Hj' Hn.
      rewrite Ht by done. by rewrite decide_False. }
    destruct (decide (i = r /\ j = k)) as [[-> ->]|Hne].
    + rewrite decide_True by lia. done.
    + rewrite Ht by done.
      destruct (decide (i = r /\ lo <= j < k)), (decide (i = r /\ lo <= j < S k));
        try done; exfalso; lia.
Qed.

(** [swap_rows] exchanges two distinct rows. *)
Lemma swap_rows_spec (w h r1 r2 : nat) (p : list R) :
  r1 < h -> r2 < h -> r1 <> r2 -> length p = h * w ->
  length (swap_rows w r1 r2 p) = length p /\
  forall i j, i < h -> j < w ->
    cell w (swap_rows w r1 r2 p) i j = cell w p (transp r1 r2 i) j.
Proof.
  intros Hr1 Hr2 Hne Hl. unfold swap_rows.
  pose proof (for_up_ind
    (fun k t => length t = length p /\
       forall i j, i < h -> j < w ->
         cell w t i j = if decide (j < k) then cell w p (transp r1 r2 i) j
                        else cell w p i j)
    0 w (fun col p => MP_swap (r1 * w + col) (r2 * w + col) p) p) as H.
  destruct H as (Hlen & Hc).
  - lia.
  - split; [done|]. intros i j _ _. rewrite decide_False by lia. done.
  - intros k t Hk (Hlt & Ht). unfold MP_swap. rewrite !length_insert.
    split; [done|]. intros i j Hi Hj.
    rewrite (cell_insert w h) by (rewrite ?length_insert; lia || congruence).
    rewrite (cell_insert w h) by (lia || congruence).
    fold (cell w t r1 k). fold (cell w t r2 k).
    rewrite !Ht by lia. rewrite !(decide_False (P := k < k)) by lia.
    unfold transp.
    destruct (decide (i = r2 /\ j = k)) as [[-> ->]|N2].
    + rewrite decide_True by lia. repeat case_decide; try done; congruence.
    + destruct (decide (i = r1 /\ j = k)) as [[-> ->]|N1].
      * rewrite decide_True by lia. repeat case_decide; try done; congruence.
      * destruct (decide (j < k)), (decide (j < S k)); try done; try lia.
        assert (j = k) by lia. subst j.
        repeat case_decide; try done; exfalso; tauto.
  - split; [done|]. intros i j Hi Hj. rewrite Hc by done.
    by rewrite decide_True.
Qed.

(** [for (col = lo; col < w; col++) d1[col] -= d2[col] * r;] with [d1] row
    [row] and [d2] another row [src]. *)
Lemma row_axpy_spec (w h row src lo : nat) (r : R) (p : list R) :
  row < h -> src < h -> row <> src -> length p = h * w ->
  let p' := for_up lo w (fun col p =>
              <[row * w + col :=
                  (p !!! (row * w + col)%nat - p !!! (src * w + col)%nat * r)%R]> p) p in
  length p' = length p /\
  forall i j, i < h -> j < w ->
    cell w p' i j = if decide (i = row /\ lo <= j)
                    then (cell w p i j - cell w p src j * r)%R else cell w p i j.
Proof.
  intros Hrow Hsrc Hne Hl.
  pose proof (row_loop_spec w h row lo w
    (fun col p => (cell w p row col - cell w p src col * r)%R) p
    Hrow ltac:(lia) Hl) as H.
  destruct H as (Hlen & Hc).
  - intros col p' Hcol Hl' Hagree. cbv beta.
    rewrite !Hagree by (lia || (intros []; lia)). done.
  - split; [exact Hlen|]. intros i j Hi Hj. unfold cell at 1 in Hc.
    unfold cell at 1. rewrite Hc by done.
    cases_done.
Qed.

(** [for (col = 0; col < w; col++) d1[col] *= s;] with [d1] row [row]. *)
Lemma row_scale_spec (w h row : nat) (s : R) (p : list R) :
  row < h -> length p = h * w ->
  let p' := for_up 0 w (fun col p =>
              <[row * w + col := (p !!! (row * w + col)%nat * s)%R]> p) p in
  length p' = length p /\
  forall i j, i < h -> j < w ->
    cell w p' i j = if decide (i = row) then (cell w p i j * s)%R else cell w p i j.
Proof.
  intros Hrow Hl.
  pose proof (row_loop_spec w h row 0 w
    (fun col p => (cell w p row col * s)%R) p Hrow ltac:(lia) Hl) as H.
  destruct H as (Hlen & Hc).
  - intros col p' Hcol Hl' Hagree. cbv beta.
    rewrite !Hagree by (lia || (intros []; lia)). done.
  - split; [exact Hlen|]. intros i j Hi Hj. unfold cell at 1 in Hc.
    unfold cell at 1. rewrite Hc by done.
    cases_done.
Qed.

(** "divide the row by the pivot": the cells after [gj_scale]. *)
Lemma gj_scale_spec (n m icol : nat) (p1 p2 : list R) :
  icol < n -> length p1 = n * n -> length p2 = n * m ->
  let s := (1 / cell n p1 icol icol)%R in
  let p1' := (gj_scale n m icol p1 p2).1 in
  let p2' := (gj_scale n m icol p1 p2).2 in
  length p1' = n * n /\ length p2' = n * m /\
  (forall i j, i < n -> j < n ->
     cell n p1' i j =
       if decide (i = icol)
       then ((if decide (j = icol) then 1 else cell n p1 i j) * s)%R
       else cell n p1 i j) /\
  (forall i j, i < n -> j < m ->
     cell m p2' i j =
       if decide (i = icol) then (cell m p2 i j * s)%R else cell m p2 i j).
Proof.
  intros Hi Hl1 Hl2 s p1' p2'. subst p1' p2'. unfold gj_scale. rscalar. cbn [fst snd].
  fold (cell n p1 icol icol). fold s.
  destruct (row_scale_spec n n icol s (<[icol * n + icol := 1%R]> p1))
    as (Hlen1 & Hc1); [done|by rewrite length_insert|].
  destruct (row_scale_spec m n icol s p2) as (Hlen2 & Hc2); [done|done|].
  cbv zeta in *. rewrite length_insert in Hlen1.
  split; [congruence|]. split; [congruence|]. split.
  - intros i j Hi' Hj. rewrite Hc1 by done.
    rewrite !(cell_insert n n) by done.
    destruct (decide (i = icol)) as [->|]; [|by rewrite decide_False by tauto].
    destruct (decide (j = icol)) as [->|].
    + by rewrite decide_True.
    + by rewrite decide_False by tauto.
  - intros i j Hi' Hj. by rewrite Hc2.
Qed.

(** "fix the other rows by subtracting": the cells after [gj_reduce]. *)
Lemma gj_reduce_spec (n m icol : nat) (p1 p2 : list R) :
  icol < n -> length p1 = n * n -> length p2 = n * m ->
  let p1' := (gj_reduce n m icol p1 p2).1 in
  let p2' := (gj_reduce n m icol p1 p2).2 in
  length p1' = n * n /\ length p2' = n * m /\
  (forall i j, i < n -> j < n ->
     cell n p1' i j =
       if decide (i = icol) then cell n p1 i j
       else ((if decide (j = icol) then 0 else cell n p1 i j)
             - cell n p1 icol j * cell n p1 i icol)%R) /\
  (forall i j, i < n -> j < m ->
     cell m p2' i j =
       if decide (i = icol) then cell m p2 i j
       else (cell m p2 i j - cell m p2 icol j * cell n p1 i icol)%R).
Proof.
  intros Hi Hl1 Hl2 p1' p2'. subst p1' p2'. unfold gj_reduce.
  pose proof (for_up_ind
    (fun k '(t1, t2) =>
       length t1 = n * n /\ length t2 = n * m /\
       (forall i j, i < n -> j < n ->
          cell n t1 i j =
            if decide (i < k /\ i <> icol)
            then ((if decide (j = icol) then 0 else cell n p1 i j)
                  - cell n p1 icol j * cell n p1 i icol)%R
            else cell n p1 i j) /\
       (forall i j, i < n -> j < m ->
          cell m t2 i j =
            if decide (i < k /\ i <> icol)
            then (cell m p2 i j - cell m p2 icol j * cell n p1 i icol)%R
            else cell m p2 i j))
    0 n) as H.
  match goal with
  | |- context [for_up 0 n ?body ?s] => specialize (H body s)
  end.
  destruct (for_up 0 n _ (p1, p2)) as [t1 t2]. cbn [fst snd].
  destruct H as (H1 & H2 & Hc1 & Hc2).
  - lia.
  - repeat split; try done; intros i j _ _; by rewrite decide_False by lia.
  - intros k [t1' t2'] Hk (Hlen1 & Hlen2 & Ht1 & Ht2).
    destruct (Nat.eqb_spec k icol) as [->|Hne].
    { repeat split; try done; intros i j Hi' Hj.
      - rewrite Ht1 by done. cases_done.
      - rewrite Ht2 by done. cases_done. }
    rscalar. fold (cell n t1' k icol).
    assert (Hr : cell n t1' k icol = cell n p1 k icol).
    { rewrite Ht1 by lia. by rewrite decide_False by lia. }
    rewrite Hr. set (r := cell n p1 k icol).
    destruct (row_axpy_spec n n k icol 0 r (<[k * n + icol := 0%R]> t1'))
      as (Hlen1' & Hc1'); [lia|lia|lia|by rewrite length_insert|].
    destruct (row_axpy_spec m n k icol 0 r t2')
      as (Hlen2' & Hc2'); [lia|lia|lia|done|].
    cbv zeta in *. rewrite length_insert in Hlen1'.
    split; [congruence|]. split; [congruence|]. split.
    + intros i j Hi' Hj. rewrite Hc1' by done.
      rewrite !(cell_insert n n) by (done || lia). rewrite !Ht1 by (done || lia).
      rewrite (decide_False (P := icol < k /\ icol <> icol)) by lia.
      destruct (decide (i = k)) as [->|Hik].
      * rewrite decide_True by lia. rewrite (decide_False (P := k < k /\ _)) by lia.
        rewrite (decide_False (P := icol = k /\ _)) by lia.
        rewrite (decide_True (P := k < S k /\ _)) by lia.
        destruct (decide (j = icol)) as [->|].
        -- rewrite decide_True by done. done.
        -- rewrite decide_False by tauto. done.
      * rewrite (decide_False (P := i = k /\ 0 <= j)) by tauto.
        rewrite (decide_False (P := i = k /\ j = icol)) by tauto.
        cases_done.
    + intros i j Hi' Hj. rewrite Hc2' by done. rewrite !Ht2 by (done || lia).
      rewrite (decide_False (P := icol < k /\ icol <> icol)) by lia.
      destruct (decide (i = k)) as [->|Hik].
      * rewrite decide_True by lia. rewrite (decide_False (P := k < k /\ _)) by lia.
        rewrite (decide_True (P := k < S k /\ _)) by lia. done.
      * rewrite (decide_False (P := i = k /\ 0 <= j)) by tauto.
        cases_done.
  - split; [done|]. split; [done|]. split.
    + intros i j Hi' Hj. rewrite Hc1 by done.
      cases_done.
    + intros i j Hi' Hj. rewrite Hc2 by done.
      cases_done.
Qed.

(** The inner loop of the unscrambling: two distinct columns are exchanged. *)
Lemma swap_cols_spec (n c1 c2 : nat) (p : list R) :
  c1 < n -> c2 < n -> c1 <> c2 -> length p = n * n ->
  let p' := for_up 0 n (fun row p => MP_swap (c1 + row * n) (c2 + row * n) p) p in
  length p' = length p /\
  forall i j, i < n -> j < n -> cell n p' i j = cell n p i (transp c1 c2 j).
Proof.
  intros Hc1 Hc2 Hne Hl.
  pose proof (for_up_ind
    (fun k t => length t = length p /\
       forall i j, i < n -> j < n ->
         cell n t i j = if decide (i < k) then cell n p i (transp c1 c2 j)
                        else cell n p i j)
    0 n (fun row p => MP_swap (c1 + row * n) (c2 + row * n) p) p) as H.
  destruct H as (Hlen & Hc).
  - lia.
  - split; [done|]. intros i j _ _. rewrite decide_False by lia. done.
  - intros k t Hk (Hlt & Ht). unfold MP_swap. rewrite !length_insert.
    split; [done|]. intros i j Hi Hj.
    rewrite !(Nat.add_comm _ (k * n)).
    rewrite (cell_insert n n) by (rewrite ?length_insert; lia || congruence).
    rewrite (cell_insert n n) by (lia || congruence).
    fold (cell n t k c1). fold (cell n t k c2).
    rewrite !Ht by lia. rewrite !(decide_False (P := k < k)) by lia.
    unfold transp. cases_done.
  - split; [done|]. intros i j Hi Hj. rewrite Hc by done.
    by rewrite decide_True.
Qed.

(** The pivot search returns a largest entry among the rows and columns whose
    flag is clear; [big] stays 0 only if all of them are 0. *)
Lemma gj_search_spec (n : nat) (p1 : list R) (flg : list nat) (irow0 icol0 : nat) :
  let '(big, irow, icol) := gj_search n p1 flg irow0 icol0 in
  (big = 0%R \/
   (0 < big)%R /\ irow < n /\ icol < n /\ flg !!! irow = 0 /\ flg !!! icol = 0 /\
   big = Rabs (cell n p1 irow icol)) /\
  (forall r c, r < n -> c < n -> flg !!! r = 0 -> flg !!! c = 0 ->
     (Rabs (cell n p1 r c) <= big)%R).
Proof.
  unfold gj_search.
  set (found := fun (acc : R * nat * nat) =>
    let '(big, irow, icol) := acc in
    big = 0%R \/
    (0 < big)%R /\ irow < n /\ icol < n /\ flg !!! irow = 0 /\ flg !!! icol = 0 /\
    big = Rabs (cell n p1 irow icol)).
  set (inner := fun row => fun col '(big, irow, icol) =>
          if (flg !!! col =? 0)%nat then
            let d1 := p1 !!! (row * n + col) in
            if big [<] MP_abs d1 then (MP_abs d1, row, col)
            else (big, irow, icol)
          else ((big, irow, icol) : R * nat * nat)).
  assert (Hinner : forall row acc, row < n -> flg !!! row = 0 -> found acc ->
            let acc' := for_up 0 n (inner row) acc in
            found acc' /\ (acc.1.1 <= acc'.1.1)%R /\
            forall c, c < n -> flg !!! c = 0 -> (Rabs (cell n p1 row c) <= acc'.1.1)%R).
  { intros row acc Hrow Hflg Hacc.
    pose proof (for_up_ind
      (fun k acc' => found acc' /\ (acc.1.1 <= acc'.1.1)%R /\
         forall c, c < k -> flg !!! c = 0 -> (Rabs (cell n p1 row c) <= acc'.1.1)%R)
      0 n (inner row) acc) as H.
    destruct H as (H1 & H2 & H3).
    - lia.
    - split; [done|]. split; [lra|]. intros; lia.
    - intros k [[big ir] ic] Hk (Hf & Hle & Hc). unfold inner. cbn [fst snd] in *.
      destruct (Nat.eqb_spec (flg !!! k) 0) as [Hz|Hnz].
      + rewrite MP_abs_R. rscalar. fold (cell n p1 row k). unfold R_ltb.
        destruct (Rlt_dec big (Rabs (cell n p1 row k))) as [Hlt|Hge]; cbn [fst snd].
        * split; [|split].
          -- right. assert (0 <= big)%R by (destruct Hf as [->|[? _]]; lra).
             repeat split; first [done | lra | lia].
          -- lra.
          -- intros c Hc' Hfc. destruct (decide (c = k)) as [->|]; [lra|].
             specialize (Hc c ltac:(lia) Hfc). lra.
        * split; [done|]. split; [done|].
          intros c Hc' Hfc. destruct (decide (c = k)) as [->|]; [lra|].
          apply Hc; [lia|done].
      + split; [done|]. split; [done|].
        intros c Hc' Hfc. destruct (decide (c = k)) as [->|]; [done|].
        apply Hc; [lia|done].
    - split; [done|]. split; [done|]. intros c Hc. apply H3. done. }
  pose proof (for_up_ind
    (fun k acc => found acc /\
       forall r c, r < k -> c < n -> flg !!! r = 0 -> flg !!! c = 0 ->
         (Rabs (cell n p1 r c) <= acc.1.1)%R)
    0 n
    (fun row acc => if (flg !!! row =? 0)%nat then for_up 0 n (inner row) acc else acc)
    (sZ 0, irow0, icol0)) as H.
  destruct (for_up 0 n _ (sZ 0, irow0, icol0)) as [[big ir] ic].
  destruct H as (H1 & H2).
  - lia.
  - split; [by left|]. intros; lia.
  - intros k acc Hk (Hf & Hc).
    destruct (Nat.eqb_spec (flg !!! k) 0) as [Hz|Hnz].
    + destruct (Hinner k acc ltac:(lia) Hz Hf) as (Hf' & Hle & Hc').
      split; [done|]. intros r c Hr Hcn Hfr Hfc.
      destruct (decide (r = k)) as [->|]; [by apply Hc'|].
      specialize (Hc r c ltac:(lia) Hcn Hfr Hfc). lra.
    + split; [done|]. intros r c Hr Hcn Hfr Hfc.
      destruct (decide (r = k)) as [->|]; [done|]. apply Hc; (done || lia).
  - split; [exact H1|]. intros r c Hr. by apply H2.
Qed.


(** ** One pivot step, seen on a single column *)

Section DotStep.
Local Open Scope R_scope.

Lemma transp_comm p q k : transp p q k = transp q p k.
Proof. unfold transp. repeat case_decide; congruence. Qed.

Lemma transp_l p q : transp p q p = q.
Proof. unfold transp. repeat case_decide; congruence. Qed.

Lemma transp_r p q : transp p q q = p.
Proof. unfold transp. repeat case_decide; congruence. Qed.

Lemma transp_other p q k : k <> p -> k <> q -> transp p q k = k.
Proof. unfold transp. intros. repeat case_decide; congruence. Qed.

Lemma delta_transp p q k c : delta (transp p q k) c = delta k (transp p q c).
Proof. unfold delta, transp. repeat case_decide; congruence. Qed.

Lemma rsum_skip_transp n p q h :
  (p < n)%nat -> (q < n)%nat ->
  rsum n (fun k => if decide (k = p) then 0 else h (transp q p k)) = rsum n h - h q.
Proof.
  intros Hp Hq. rewrite <- (rsum_transp n q p h) by done.
  rewrite (rsum_split n p (fun k => h (transp q p k))) by done.
  rewrite transp_r. lra.
Qed.

(** A pivot step exchanges rows [q] and [p], divides row [p] by the pivot
    [wc q] and subtracts multiples of it from the other rows.  If row
    [a] of the accumulated inverse transformation is updated
    accordingly, its product with any column is unchanged. *)
Lemma gj_dot_step n p q (g v v' wc : nat -> R) :
  (p < n)%nat -> (q < n)%nat -> wc q <> 0 ->
  v' p = v q / wc q ->
  (forall k, (k < n)%nat -> k <> p ->
     v' k = v (transp q p k) - wc (transp q p k) * (v q / wc q)) ->
  rsum n (fun k =>
    (if decide (k = p) then rsum n (fun l => g l * wc l) else g (transp q p k)) * v' k)
  = rsum n (fun k => g k * v k).
Proof.
  intros Hp Hq Hw Hvp Hvk.
  set (t := v q / wc q) in *.
  set (S2 := rsum n (fun l => g l * wc l)).
  rewrite (rsum_split n p) by done. rewrite decide_True by done. rewrite Hvp.
  assert (Hrest :
    rsum n (fun k => if decide (k = p) then 0
                     else (if decide (k = p) then S2 else g (transp q p k)) * v' k)
    = rsum n (fun k =>
        (if decide (k = p) then 0 else (fun l => g l * v l) (transp q p k))
        - t * (if decide (k = p) then 0 else (fun l => g l * wc l) (transp q p k)))).
  { apply rsum_ext. intros k Hk. cbv beta.
    destruct (decide (k = p)) as [->|Hne]; [lra|].
    rewrite (Hvk k Hk Hne). lra. }
  rewrite Hrest.
  rewrite rsum_minus, rsum_scal_l.
  rewrite (rsum_skip_transp n p q (fun l => g l * v l)) by done.
  rewrite (rsum_skip_transp n p q (fun l => g l * wc l)) by done.
  assert (Ht : t * wc q = v q) by (unfold t; field; done).
  fold S2. nra.
Qed.
End DotStep.

(** ** Bookkeeping of the pivots *)

(** How many of the first [n] flags are set. *)
Fixpoint used_count (flg : list nat) (n : nat) : nat :=
  match n with
  | O => 0
  | S k => used_count flg k + (if decide (flg !!! k = 0) then 0 else 1)
  end.

Lemma used_count_le flg n : used_count flg n <= n.
Proof. induction n as [|n IH]; simpl; [lia|]. case_decide; lia. Qed.

Lemma used_count_full flg n :
  used_count flg n = n -> forall c, c < n -> flg !!! c <> 0.
Proof.
  induction n as [|n IH]; intros Hn c Hc; [lia|]. simpl in Hn.
  pose proof (used_count_le flg n). case_decide; [lia|].
  destruct (decide (c = n)) as [->|]; [done|]. apply IH; lia.
Qed.

Lemma used_count_insert flg n p v :
  p < length flg -> flg !!! p = 0 -> v <> 0 ->
  used_count (<[p := v]> flg) n = used_count flg n + (if decide (p < n) then 1 else 0).
Proof.
  intros Hp Hz Hv. induction n as [|n IH]; simpl.
  - cases_done.
  - rewrite IH. rewrite lookup_total_insert_cases by done.
    destruct (decide (p = n)) as [->|Hne].
    + rewrite Hz. cases_done.
    + cases_done.
Qed.

(** The composition of the first [k] recorded interchanges, the earliest
    applied first. *)
Definition gj_perm (rows cols : list nat) (k : nat) (c : nat) : nat :=
  for_up 0 k (fun i c => transp (rows !!! i) (cols !!! i) c) c.

Lemma gj_perm_lt n rows cols k c :
  (forall i, i < k -> rows !!! i < n /\ cols !!! i < n) -> c < n ->
  gj_perm rows cols k c < n.
Proof.
  intros Hrc Hc. unfold gj_perm.
  apply (for_up_ind (fun _ c' => c' < n) 0 k); [lia|done|].
  intros i c' Hi Hc'. destruct (Hrc i ltac:(lia)). by apply transp_lt.
Qed.

Lemma gj_perm_insert rows cols k i x y c :
  k <= i -> gj_perm (<[i := x]> rows) (<[i := y]> cols) k c = gj_perm rows cols k c.
Proof.
  intros Hki. unfold gj_perm. induction k as [|k IH]; [done|].
  rewrite !for_up_last by lia. rewrite IH by lia.
  rewrite !list_lookup_total_insert_ne by lia. done.
Qed.

Lemma gj_perm_S rows cols k c :
  gj_perm rows cols (S k) c = transp (rows !!! k) (cols !!! k) (gj_perm rows cols k c).
Proof. unfold gj_perm. by rewrite for_up_last by lia. Qed.

(** ** The elimination step on cells *)

(** Row interchange, scaling and reduction of one iteration. *)
Definition gj_pivot_step (n m irow icol : nat) (p1 p2 : list R) : list R * list R :=
  let '(p1, p2) :=
    if (irow =? icol)%nat then (p1, p2)
    else (swap_rows n irow icol p1, swap_rows m irow icol p2) in
  let '(p1, p2) := gj_scale n m icol p1 p2 in
  gj_reduce n m icol p1 p2.

Lemma gj_body_unfold (n m i : nat) (st : GJ R) :
  gj_body n m i st =
  let '(big, irow, icol) :=
    gj_search n (gj_p1 st) (gj_pivotflg st) (gj_irow st) (gj_icol st) in
  if big [==] sZ 0 then
    Return (mkGJ (gj_p1 st) (gj_p2 st) (gj_pivotflg st)
                 (gj_row_indx st) (gj_col_indx st) irow icol)
  else
    let '(p1, p2) := gj_pivot_step n m irow icol (gj_p1 st) (gj_p2 st) in
    Next (mkGJ p1 p2 (<[icol := S (gj_pivotflg st !!! icol)]> (gj_pivotflg st))
               (<[i := irow]> (gj_row_indx st)) (<[i := icol]> (gj_col_indx st))
               irow icol).
Proof.
  unfold gj_body, gj_pivot_step.
  destruct (gj_search _ _ _ _ _) as [[big irow] icol].
  destruct (big [==] sZ 0); [done|].
  destruct (irow =? icol)%nat.
  - destruct (gj_scale _ _ _ _ _) as [p1a p2a].
    by destruct (gj_reduce _ _ _ _ _).
  - destruct (gj_scale _ _ _ _ _) as [p1a p2a].
    by destruct (gj_reduce _ _ _ _ _).
Qed.

Lemma gj_pivot_step_spec (n m q p : nat) (p1 p2 : list R) :
  q < n -> p < n -> length p1 = n * n -> length p2 = n * m ->
  let W := cell n p1 in
  let Y := cell m p2 in
  let s := (1 / W q p)%R in
  let p1' := (gj_pivot_step n m q p p1 p2).1 in
  let p2' := (gj_pivot_step n m q p p1 p2).2 in
  length p1' = n * n /\ length p2' = n * m /\
  (forall i j, i < n -> j < n ->
     cell n p1' i j =
       if decide (i = p) then ((if decide (j = p) then 1 else W q j) * s)%R
       else ((if decide (j = p) then 0 else W (transp q p i) j)
             - (if decide (j = p) then 1 else W q j) * s * W (transp q p i) p)%R) /\
  (forall i j, i < n -> j < m ->
     cell m p2' i j =
       if decide (i = p) then (Y q j * s)%R
       else (Y (transp q p i) j - Y q j * s * W (transp q p i) p)%R).
Proof.
  intros Hq Hp Hl1 Hl2 W Y s p1' p2'. subst p1' p2'. unfold gj_pivot_step.
  (* after the interchange *)
  assert (Hsw : exists p1s p2s,
    (if (q =? p)%nat then (p1, p2)
     else (swap_rows n q p p1, swap_rows m q p p2)) = (p1s, p2s) /\
    length p1s = n * n /\ length p2s = n * m /\
    (forall i j, i < n -> j < n -> cell n p1s i j = W (transp q p i) j) /\
    (forall i j, i < n -> j < m -> cell m p2s i j = Y (transp q p i) j)).
  { destruct (Nat.eqb_spec q p) as [->|Hne].
    - exists p1, p2. repeat split; try done; intros; by rewrite transp_same.
    - destruct (swap_rows_spec n n q p p1) as (L1 & C1); try done.
      destruct (swap_rows_spec m n q p p2) as (L2 & C2); try done.
      eexists _, _. split; [done|]. repeat split; try done; congruence. }
  destruct Hsw as (p1s & p2s & -> & Ls1 & Ls2 & Cs1 & Cs2).
  pose proof (gj_scale_spec n m p p1s p2s Hp Ls1 Ls2) as Hsc. cbv zeta in Hsc.
  destruct (gj_scale n m p p1s p2s) as [p1a p2a]. cbn [fst snd] in Hsc.
  destruct Hsc as (La1 & La2 & Ca1 & Ca2).
  pose proof (gj_reduce_spec n m p p1a p2a Hp La1 La2) as Hrd. cbv zeta in Hrd.
  destruct (gj_reduce n m p p1a p2a) as [p1r p2r]. cbn [fst snd] in Hrd |- *.
  destruct Hrd as (Lr1 & Lr2 & Cr1 & Cr2).
  assert (Hs : (1 / cell n p1s p p)%R = s).
  { rewrite Cs1 by done. by rewrite transp_r. }
  split; [done|]. split; [done|]. split.
  - intros i j Hi Hj. rewrite Cr1 by done. rewrite !Ca1 by done. rewrite Hs.
    rewrite !Cs1 by done. rewrite !transp_r.
    repeat case_decide; subst; rewrite ?transp_r; first [done | exfalso; lia | lra].
  - intros i j Hi Hj. rewrite Cr2 by done. rewrite !Ca2, !Ca1 by done.
    rewrite ?Hs. rewrite !Cs2, !Cs1 by done. rewrite ?transp_r.
    repeat case_decide; subst; rewrite ?transp_r; first [done | exfalso; lia | lra].
Qed.


(** ** The invariant of the Gauss-Jordan main loop *)

Lemma used_count_replicate (n k : nat) :
  k <= n -> used_count (replicate n 0) k = 0.
Proof.
  induction k as [|k IH]; intros Hk; simpl; [done|].
  rewrite IH by lia. rewrite lookup_total_replicate_lt by lia. by rewrite decide_True.
Qed.

Section GaussJordanInvariant.
Local Open Scope R_scope.

(** Dimensions and the buffers of [A] and [B] at entry. *)
Variables (n m : nat) (A0 B0 : list R).

(** The buffer behind [p1] stores two matrices at once.  In a column that
    has not been a pivot column yet it holds the reduced coefficients; a
    column that has been one is a unit column of the reduced matrix, and
    the cells hold a column of the accumulated row transformation
    instead. *)
Definition virt_R (flg : list nat) (p1 : list R) (l c : nat) : R :=
  if decide (flg !!! c = 0%nat) then cell n p1 l c else delta l c.

Definition virt_T (flg : list nat) (rho : nat -> nat) (p1 : list R) (l c : nat) : R :=
  if decide (flg !!! (rho c) = 0%nat) then delta l (rho c) else cell n p1 l (rho c).

(** [G] undoes the accumulated transformation: applied to the reduced
    system it gives back [A0 | I | B0]. *)
Definition gj_ghost (G : nat -> nat -> R) (k : nat) (st : GJ R) : Prop :=
  forall a, (a < n)%nat ->
    (forall c, (c < n)%nat ->
       rsum n (fun l => G a l * virt_R (gj_pivotflg st) (gj_p1 st) l c)
       = cell n A0 a c) /\
    (forall c, (c < n)%nat ->
       rsum n (fun l =>
         G a l * virt_T (gj_pivotflg st)
                   (gj_perm (gj_row_indx st) (gj_col_indx st) k) (gj_p1 st) l c)
       = delta a c) /\
    (forall j, (j < m)%nat ->
       rsum n (fun l => G a l * cell m (gj_p2 st) l j) = cell m B0 a j).

Definition gj_inv (k : nat) (st : GJ R) : Prop :=
  length (gj_p1 st) = (n * n)%nat /\ length (gj_p2 st) = (n * m)%nat /\
  length (gj_pivotflg st) = n /\
  length (gj_row_indx st) = n /\ length (gj_col_indx st) = n /\
  (forall c, (c < n)%nat -> (gj_pivotflg st !!! c <= 1)%nat) /\
  used_count (gj_pivotflg st) n = k /\
  (forall i, (i < k)%nat ->
     (gj_row_indx st !!! i < n)%nat /\ (gj_col_indx st !!! i < n)%nat) /\
  exists G, gj_ghost G k st.

(** What is known when the loop returns early. *)
Definition gj_stuck (k : nat) (st : GJ R) : Prop :=
  gj_inv k st /\
  forall r c, (r < n)%nat -> (c < n)%nat ->
    gj_pivotflg st !!! r = 0%nat -> gj_pivotflg st !!! c = 0%nat ->
    cell n (gj_p1 st) r c = 0.

Lemma gj_inv_init :
  length A0 = (n * n)%nat -> length B0 = (n * m)%nat ->
  gj_inv 0 (mkGJ A0 B0 (replicate n 0%nat) (replicate n 0%nat) (replicate n 0%nat) 0 0).
Proof.
  intros HA HB. unfold gj_inv. cbn [gj_p1 gj_p2 gj_pivotflg gj_row_indx gj_col_indx].
  rewrite !length_replicate. repeat split; try done.
  - intros c Hc. rewrite lookup_total_replicate_lt by done. lia.
  - by apply used_count_replicate.
  - intros; lia.
  - intros; lia.
  - exists delta. intros a Ha.
    cbn [gj_p1 gj_p2 gj_pivotflg gj_row_indx gj_col_indx]. repeat split.
    + intros c Hc. rewrite (rsum_ext n _ (fun l => delta a l * cell n A0 l c)).
      * by rewrite rsum_delta_l.
      * intros l Hl. unfold virt_R.
        rewrite lookup_total_replicate_lt by done. by rewrite decide_True.
    + intros c Hc. rewrite (rsum_ext n _ (fun l => delta a l * delta l c)).
      * by rewrite rsum_delta_l.
      * intros l Hl. unfold virt_T, gj_perm. rewrite for_up_done by lia.
        rewrite lookup_total_replicate_lt by done. by rewrite decide_True.
    + intros j Hj. by rewrite rsum_delta_l.
Qed.

(** The new inverse transformation after a pivot step on [(q, p)]. *)
Definition gj_ghost_step (G : nat -> nat -> R) (p1 : list R) (q p : nat)
    (a r : nat) : R :=
  if decide (r = p) then rsum n (fun l => G a l * cell n p1 l p)
  else G a (transp q p r).

(** The three kinds of columns of the virtual system after a step. *)
Lemma gj_ghost_preserved (G : nat -> nat -> R) (k q p : nat) (st : GJ R) p1' p2' :
  (k < n)%nat -> (q < n)%nat -> (p < n)%nat ->
  gj_pivotflg st !!! q = 0%nat -> gj_pivotflg st !!! p = 0%nat ->
  cell n (gj_p1 st) q p <> 0 ->
  gj_inv k st -> gj_ghost G k st ->
  gj_pivot_step n m q p (gj_p1 st) (gj_p2 st) = (p1', p2') ->
  gj_ghost (gj_ghost_step G (gj_p1 st) q p) (S k)
    (mkGJ p1' p2' (<[p := S (gj_pivotflg st !!! p)]> (gj_pivotflg st))
          (<[k := q]> (gj_row_indx st)) (<[k := p]> (gj_col_indx st)) q p).
Proof.
  intros Hk Hq Hp Hfq Hfp Hpiv (L1 & L2 & Lf & Lr & Lc & Hf1 & Hcnt & Hrc & _) HG Hstep.
  destruct st as [p1 p2 flg rows cols ir ic].
  cbn [gj_p1 gj_p2 gj_pivotflg gj_row_indx gj_col_indx] in *.
  pose proof (gj_pivot_step_spec n m q p p1 p2 Hq Hp L1 L2) as Hs.
  cbv zeta in Hs. rewrite Hstep in Hs. cbn [fst snd] in Hs.
  destruct Hs as (L1' & L2' & C1 & C2).
  set (W := cell n p1) in *. set (Y := cell m p2) in *.
  set (s := 1 / W q p) in *.
  assert (Hrho : forall c, gj_perm (<[k := q]> rows) (<[k := p]> cols) (S k) c
                         = transp q p (gj_perm rows cols k c)).
  { intros c. rewrite gj_perm_S, gj_perm_insert by lia.
    rewrite !list_lookup_total_insert_eq by lia. done. }
  assert (Hflg : forall c, (c < n)%nat ->
            <[p := S (flg !!! p)]> flg !!! c = if decide (p = c) then 1%nat else flg !!! c).
  { intros c Hc. rewrite lookup_total_insert_cases by lia. by rewrite Hfp. }
  intros a Ha. destruct (HG a Ha) as (GR & GT & GY).
  cbn [gj_p1 gj_p2 gj_pivotflg gj_row_indx gj_col_indx].
  split; [|split].
  - intros c Hc. rewrite <- (GR c Hc).
    apply (gj_dot_step n p q (G a) (fun l => virt_R flg p1 l c)
             (fun l => virt_R (<[p := S (flg !!! p)]> flg) p1' l c) (fun l => W l p));
      [done|done|done| |].
    + unfold virt_R. rewrite Hflg by done. rewrite C1 by done. fold W.
      unfold delta. repeat case_decide; subst; try congruence; try lia;
        unfold s; field; done.
    + intros i Hi Hne. unfold virt_R. rewrite Hflg by done. rewrite C1 by done. fold W.
      unfold delta, transp. repeat case_decide; subst; try congruence; try lia;
        unfold s; try (field; done).
  - intros c Hc. rewrite <- (GT c Hc).
    assert (Hc' : (gj_perm rows cols k c < n)%nat) by (by apply (gj_perm_lt n)).
    assert (Hc'' : (transp q p (gj_perm rows cols k c) < n)%nat) by (by apply transp_lt).
    apply (gj_dot_step n p q (G a) (fun l => virt_T flg (gj_perm rows cols k) p1 l c)
             (fun l => virt_T (<[p := S (flg !!! p)]> flg)
                         (gj_perm (<[k := q]> rows) (<[k := p]> cols) (S k)) p1' l c)
             (fun l => W l p));
      [done|done|done| |].
    + unfold virt_T. rewrite Hrho. rewrite Hflg by done. rewrite C1 by done. fold W.
      set (c' := gj_perm rows cols k c) in *. clearbody c'.
      unfold delta, transp in *. repeat case_decide; subst; try congruence; try lia;
        unfold s; field; done.
    + intros i Hi Hne. unfold virt_T. rewrite Hrho. rewrite Hflg by done.
      rewrite C1 by done. fold W.
      set (c' := gj_perm rows cols k c) in *. clearbody c'.
      unfold delta, transp in *. repeat case_decide; subst; try congruence; try lia;
        unfold s; try (field; done).
  - intros j Hj. rewrite <- (GY j Hj).
    apply (gj_dot_step n p q (G a) (fun l => Y l j) (fun l => cell m p2' l j)
             (fun l => W l p)); [done|done|done| |].
    + rewrite C2 by done. fold Y W. rewrite decide_True by done. unfold s. field. done.
    + intros i Hi Hne. rewrite C2 by done. fold Y W. rewrite decide_False by done.
      unfold s. field. done.
Qed.

(** One iteration of the main loop keeps the invariant, or returns
    because every remaining candidate pivot is zero. *)
Lemma gj_body_inv (k : nat) (st : GJ R) :
  (k < n)%nat -> gj_inv k st ->
  match gj_body n m k st with
  | Next st' => gj_inv (S k) st'
  | Return st' => gj_stuck k st'
  end.
Proof.
  intros Hk Hinv. rewrite gj_body_unfold.
  pose proof (gj_search_spec n (gj_p1 st) (gj_pivotflg st) (gj_irow st) (gj_icol st))
    as Hsearch.
  destruct (gj_search _ _ _ _ _) as [[big q] p]. destruct Hsearch as (Hfound & Hmax).
  rscalar. unfold R_eqb. destruct (Req_dec_T big 0) as [Hz|Hnz].
  - split.
    + destruct st; exact Hinv.
    + cbn [gj_p1 gj_pivotflg]. intros r c Hr Hc Hfr Hfc.
      specialize (Hmax r c Hr Hc Hfr Hfc). rewrite Hz in Hmax.
      pose proof (Rabs_pos (cell n (gj_p1 st) r c)).
      destruct (Req_dec_T (cell n (gj_p1 st) r c) 0) as [|Hne]; [done|].
      apply Rabs_pos_lt in Hne. lra.
  - destruct Hfound as [|(Hpos & Hq & Hp & Hfq & Hfp & Hbig)]; [done|].
    assert (Hpiv : cell n (gj_p1 st) q p <> 0).
    { intros Hc0. rewrite Hc0, Rabs_R0 in Hbig. lra. }
    destruct (gj_pivot_step n m q p (gj_p1 st) (gj_p2 st)) as [p1' p2'] eqn:Hstep.
    pose proof Hinv as (L1 & L2 & Lf & Lr & Lc & Hf1 & Hcnt & Hrc & G & HG).
    pose proof (gj_pivot_step_spec n m q p (gj_p1 st) (gj_p2 st) Hq Hp L1 L2) as Hs.
    cbv zeta in Hs. rewrite Hstep in Hs. cbn [fst snd] in Hs.
    destruct Hs as (L1' & L2' & _ & _).
    unfold gj_inv. cbn [gj_p1 gj_p2 gj_pivotflg gj_row_indx gj_col_indx].
    rewrite !length_insert.
    split; [done|]. split; [done|]. split; [done|]. split; [done|]. split; [done|].
    split; [|split; [|split]].
    + intros c Hc. rewrite lookup_total_insert_cases by lia.
      case_decide; [lia|]. by apply Hf1.
    + rewrite used_count_insert by (lia || done). rewrite decide_True by done. lia.
    + intros i Hi. destruct (decide (i = k)) as [->|Hne].
      * rewrite !list_lookup_total_insert_eq by lia. done.
      * rewrite !list_lookup_total_insert_ne by lia. apply Hrc. lia.
    + exists (gj_ghost_step G (gj_p1 st) q p).
      by apply gj_ghost_preserved.
Qed.

(** The unscrambling loop permutes the columns by the recorded
    interchanges. *)
Lemma gj_unscramble_spec (rows cols : list nat) (p1 : list R) :
  length p1 = (n * n)%nat ->
  (forall i, (i < n)%nat -> (rows !!! i < n)%nat /\ (cols !!! i < n)%nat) ->
  length (gj_unscramble n rows cols p1) = (n * n)%nat /\
  forall i j, (i < n)%nat -> (j < n)%nat ->
    cell n (gj_unscramble n rows cols p1) i j = cell n p1 i (gj_perm rows cols n j).
Proof.
  intros Hl Hrc. unfold gj_unscramble.
  pose proof (for_down_ind
    (fun k t => length t = (n * n)%nat /\
       forall i j, (i < n)%nat -> (j < n)%nat ->
         cell n t i j =
         cell n p1 i (for_up k n (fun i c => transp (rows !!! i) (cols !!! i) c) j))
    0 n) as H.
  match goal with
  | |- context [for_down 0 n ?body ?s] => specialize (H body s)
  end.
  apply H; clear H.
  - lia.
  - split; [done|]. intros i j _ _. by rewrite for_up_done by lia.
  - intros k t Hk (Hlt & Ht). destruct (Hrc k ltac:(lia)) as (Hr & Hc).
    cbv beta. setoid_rewrite (for_up_first k n); [|lia..].
    destruct (Nat.eqb_spec (rows !!! k) (cols !!! k)) as [He|Hne].
    + split; [done|]. intros i j Hi Hj. rewrite Ht by done.
      rewrite He, transp_same. done.
    + destruct (swap_cols_spec n (rows !!! k) (cols !!! k) t) as (Hl' & Hc');
        [done|done|done|done|].
      cbv zeta in *. split; [congruence|]. intros i j Hi Hj.
      rewrite Hc' by done. rewrite Ht by (done || by apply transp_lt). done.
Qed.
End GaussJordanInvariant.


(** ** What [MP_GaussJordan] returns *)

Lemma used_count_unused (flg : list nat) (n : nat) :
  used_count flg n < n -> exists c, c < n /\ flg !!! c = 0.
Proof.
  induction n as [|n IH]; intros Hlt; [lia|]. simpl in Hlt.
  destruct (decide (flg !!! n = 0)) as [Hz|Hnz].
  - exists n. split; [lia|done].
  - destruct IH as (c & Hc & Hfc); [lia|]. exists c. split; [lia|done].
Qed.

Lemma rsum_single (n c0 : nat) (f : nat -> R) :
  c0 < n -> rsum n (fun c => if decide (c = c0) then f c else 0%R) = f c0.
Proof.
  intros Hc. rewrite (rsum_split n c0) by done. rewrite decide_True by done.
  rewrite rsum_zero; [lra|]. intros k _. by repeat case_decide.
Qed.

(** Entry [(i, j)] of the product of two row-major buffers with inner
    dimension [n]. *)
Definition prod_entry (n wA wB : nat) (A B : list R) (i j : nat) : R :=
  rsum n (fun l => cell wA A i l * cell wB B l j)%R.

(** A non-zero vector that the matrix sends to zero. *)
Definition null_vector (n : nat) (A : list R) (x : nat -> R) : Prop :=
  (exists c, c < n /\ x c <> 0%R) /\
  forall i, i < n -> rsum n (fun c => cell n A i c * x c)%R = 0%R.

Section GaussJordanResult.
Local Open Scope R_scope.
Variables (n m : nat) (A0 B0 : list R).

(** After [n] completed iterations the buffers hold the inverse (up to
    the column permutation still to be undone) and the solution. *)
Lemma gj_inv_final (st : GJ R) :
  gj_inv n m A0 B0 n st ->
  (forall i j, (i < n)%nat -> (j < n)%nat ->
     prod_entry n n n A0
       (gj_unscramble n (gj_row_indx st) (gj_col_indx st) (gj_p1 st)) i j = delta i j) /\
  (forall i j, (i < n)%nat -> (j < m)%nat ->
     prod_entry n n m A0 (gj_p2 st) i j = cell m B0 i j).
Proof.
  intros (L1 & L2 & Lf & Lr & Lc & Hf1 & Hcnt & Hrc & G & HG).
  pose proof (used_count_full _ _ Hcnt) as Hused.
  destruct (gj_unscramble_spec n (gj_row_indx st) (gj_col_indx st) (gj_p1 st) L1 Hrc)
    as (_ & Hun).
  assert (HGA : forall a c, (a < n)%nat -> (c < n)%nat -> G a c = cell n A0 a c).
  { intros a c Ha Hc. destruct (HG a Ha) as (GR & _ & _).
    rewrite <- (GR c Hc).
    rewrite (rsum_ext n _ (fun l => G a l * delta l c)).
    - by rewrite rsum_delta_r.
    - intros l Hl. unfold virt_R. rewrite decide_False; [done|]. by apply Hused. }
  split.
  - intros i j Hi Hj. destruct (HG i Hi) as (_ & GT & _).
    rewrite <- (GT j Hj). unfold prod_entry. apply rsum_ext. intros l Hl.
    rewrite HGA by done. rewrite Hun by done. unfold virt_T.
    rewrite decide_False; [done|]. apply Hused. by apply (gj_perm_lt n).
  - intros i j Hi Hj. destruct (HG i Hi) as (_ & _ & GY).
    rewrite <- (GY j Hj). unfold prod_entry. apply rsum_ext. intros l Hl.
    by rewrite HGA.
Qed.

(** When the pivot search gives up, the current reduced system exhibits
    a non-zero vector in the kernel of the input matrix. *)
Lemma gj_stuck_null (k : nat) (st : GJ R) :
  (k < n)%nat -> gj_stuck n m A0 B0 k st -> exists x, null_vector n A0 x.
Proof.
  intros Hk ((L1 & L2 & Lf & Lr & Lc & Hf1 & Hcnt & Hrc & G & HG) & Hzero).
  set (flg := gj_pivotflg st) in *. set (W := cell n (gj_p1 st)) in *.
  destruct (used_count_unused flg n ltac:(lia)) as (c0 & Hc0 & Hf0).
  set (x := fun c => if decide (c = c0) then 1
                     else if decide (flg !!! c = 0%nat) then 0 else - W c c0).
  assert (HRx : forall l, (l < n)%nat ->
            rsum n (fun c => virt_R n flg (gj_p1 st) l c * x c) = 0).
  { intros l Hl.
    rewrite (rsum_ext n _
      (fun c => (if decide (c = c0) then W l c else 0)
                + delta l c * (if decide (flg !!! c = 0%nat) then 0 else - W c c0))).
    2: { intros c Hc. unfold virt_R, x. fold W. unfold delta.
         repeat case_decide; subst; try congruence; lra. }
    rewrite rsum_plus, rsum_single, rsum_delta_l by done.
    case_decide; [|lra]. rewrite (Hzero l c0) by done. lra. }
  exists x. split.
  - exists c0. split; [done|]. unfold x. rewrite decide_True by done. lra.
  - intros i Hi. destruct (HG i Hi) as (GR & _ & _).
    rewrite (rsum_ext n _
      (fun c => rsum n (fun l => G i l * (virt_R n flg (gj_p1 st) l c * x c)))).
    2: { intros c Hc. rewrite <- (GR c Hc). rewrite <- rsum_scal_r.
         apply rsum_ext. intros l _. fold flg. lra. }
    rewrite rsum_exchange. apply rsum_zero. intros l Hl.
    rewrite rsum_scal_l, HRx by done. lra.
Qed.
End GaussJordanResult.

(** The 1 x 1 special case of both eliminators. *)
Lemma gauss_1x1_cases (m : nat) (p1 p2 : list R) :
  length p1 = 1 -> length p2 = m ->
  let r := gauss_1x1 m p1 p2 in
  (p1 !!! 0%nat <> 0%R /\ r.1.1 = Completed /\
   r.1.2 = [(1 / p1 !!! 0%nat)%R] /\ length r.2 = m /\
   forall j, j < m -> r.2 !!! j = (p2 !!! j / p1 !!! 0%nat)%R)
  \/ (p1 !!! 0%nat = 0%R /\ r = (SingularReported, p1, p2)).
Proof.
  intros H1 H2 r. subst r. unfold gauss_1x1. rscalar. unfold R_eqb.
  destruct (Req_dec_T (p1 !!! 0%nat) 0) as [Hz|Hnz]; [by right|left].
  cbn [fst snd]. split; [done|]. split; [done|]. split.
  { destruct p1 as [|a [|? ?]]; simpl in H1; try lia. done. }
  pose proof (for_up_ind
    (fun k t => length t = m /\
       forall j, j < m -> t !!! j = if decide (j < k) then (p2 !!! j / p1 !!! 0%nat)%R
                                    else p2 !!! j) 0 m
    (fun col p2 => <[col := (p2 !!! col / p1 !!! 0%nat)%R]> p2) p2) as H.
  destruct H as (Hl & Ht).
  - lia.
  - split; [done|]. intros j Hj. by rewrite decide_False by lia.
  - intros k t Hk (Hl & Ht). rewrite length_insert. split; [done|].
    intros j Hj. rewrite lookup_total_insert_cases by lia.
    destruct (decide (k = j)) as [->|Hne].
    + rewrite Ht by done. rewrite decide_False by lia. by rewrite decide_True by lia.
    + rewrite Ht by done. cases_done.
  - split; [done|]. intros j Hj. rewrite Ht by done. by rewrite decide_True.
Qed.

Section GaussJordanKernel.
Local Open Scope R_scope.
Variables (n m : nat) (A0 B0 : list R).

(** Either the kernel completes with the inverse and the solution, or it
    reports a singular matrix and the input does have a non-trivial
    kernel. *)
Lemma gj_kernel_cases :
  length A0 = (n * n)%nat -> length B0 = (n * m)%nat ->
  let r := gj_kernel n m A0 B0 in
  (r.1.1 = Completed /\
   length r.1.2 = (n * n)%nat /\ length r.2 = (n * m)%nat /\
   (forall i j, (i < n)%nat -> (j < n)%nat ->
      prod_entry n n n A0 r.1.2 i j = delta i j) /\
   (forall i j, (i < n)%nat -> (j < m)%nat ->
      prod_entry n n m A0 r.2 i j = cell m B0 i j))
  \/ (r.1.1 = SingularReported /\ exists x, null_vector n A0 x).
Proof.
  intros HA HB r. subst r. unfold gj_kernel.
  destruct (Nat.eqb_spec n 1) as [->|Hn1].
  - destruct (gauss_1x1_cases m A0 B0) as [(Hnz & Hst & Hp1 & Hl2 & Hp2)|(Hz & Hr)];
      [done|lia| |].
    + left. split; [done|]. rewrite Hp1. split; [done|]. split; [lia|]. split.
      * intros i j Hi Hj. replace i with 0%nat by lia. replace j with 0%nat by lia.
        unfold prod_entry, cell, delta. simpl. field. done.
      * intros i j Hi Hj. replace i with 0%nat by lia.
        unfold prod_entry, cell. simpl. rewrite Hp2 by done.
        replace (j + 0)%nat with j by lia. field. done.
    + right. rewrite Hr. split; [done|]. exists (fun _ => 1). split.
      * exists 0%nat. split; [lia|lra].
      * intros i Hi. replace i with 0%nat by lia. unfold cell. simpl.
        rewrite Hz. lra.
  - pose proof (for_each_seq_ind
      (gj_inv n m A0 B0)
      (fun st => exists k, (k < n)%nat /\ gj_stuck n m A0 B0 k st)
      0 n (gj_body n m)
      (mkGJ A0 B0 (replicate n 0%nat) (replicate n 0%nat) (replicate n 0%nat) 0 0)
      (gj_inv_init n m A0 B0 HA HB)) as Hloop.
    destruct (for_each (seq 0 n) (gj_body n m) _) as [st|st]; cbn [fst snd].
    + left. simpl in Hloop.
      assert (Hinv : gj_inv n m A0 B0 n st).
      { apply Hloop. intros i t Hi Hinv.
        pose proof (gj_body_inv n m A0 B0 i t ltac:(lia) Hinv) as Hb.
        destruct (gj_body n m i t); [done|]. exists i. split; [lia|done]. }
      destruct (gj_inv_final n m A0 B0 st Hinv) as (Hinvs & Hsol).
      pose proof Hinv as (L1 & L2 & _ & _ & _ & _ & _ & Hrc & _).
      destruct (gj_unscramble_spec n (gj_row_indx st) (gj_col_indx st) (gj_p1 st) L1 Hrc)
        as (Lu & _).
      done.
    + right. split; [done|].
      destruct Hloop as (k & Hk & Hstuck).
      { intros i t Hi Hinv.
        pose proof (gj_body_inv n m A0 B0 i t ltac:(lia) Hinv) as Hb.
        destruct (gj_body n m i t); [done|]. exists i. split; [lia|done]. }
      by apply (gj_stuck_null n m A0 B0 k st).
Qed.
End GaussJordanKernel.


(** ** Invertible matrices *)

Section Invertible.
Local Open Scope R_scope.

(** [Ainv] is a two-sided inverse of the [n] x [n] buffer [A]. *)
Definition inverse_of (n : nat) (A Ainv : list R) : Prop :=
  (forall i j, (i < n)%nat -> (j < n)%nat -> prod_entry n n n Ainv A i j = delta i j) /\
  (forall i j, (i < n)%nat -> (j < n)%nat -> prod_entry n n n A Ainv i j = delta i j).

Definition invertible (n : nat) (A : list R) : Prop :=
  exists Ainv, inverse_of n A Ainv.

(** A left inverse recovers any vector from its image. *)
Lemma left_inverse_recovers n (A Ainv : list R) (x : nat -> R) c :
  (forall i j, (i < n)%nat -> (j < n)%nat -> prod_entry n n n Ainv A i j = delta i j) ->
  (c < n)%nat ->
  x c = rsum n (fun l => cell n Ainv c l * rsum n (fun j => cell n A l j * x j)).
Proof.
  intros Hinv Hc.
  rewrite (rsum_ext n _ (fun l => rsum n (fun j => cell n Ainv c l * cell n A l j * x j))).
  2: { intros l _. rewrite <- rsum_scal_l. apply rsum_ext. intros j _. lra. }
  rewrite rsum_exchange.
  rewrite (rsum_ext n _ (fun j => delta c j * x j)).
  - by rewrite rsum_delta_l.
  - intros j Hj. rewrite <- (Hinv c j Hc Hj). unfold prod_entry.
    by rewrite rsum_scal_r.
Qed.

Lemma invertible_no_null_vector n A x : invertible n A -> ~ null_vector n A x.
Proof.
  intros (Ainv & Hl & _) ((c & Hc & Hx) & Hnull). apply Hx.
  rewrite (left_inverse_recovers n A Ainv x c Hl Hc).
  apply rsum_zero. intros l Hl'. rewrite Hnull by done. lra.
Qed.

End Invertible.

(** ** Correctness of [MP_GaussJordan] *)

(** Entry [(i, j)] of the matrix product [A B]. *)
Definition mat_prod (A B : Matrix R) (i j : nat) : R :=
  rsum (m_cols A) (fun l => mat_get A i l * mat_get B l j)%R.

Lemma MP_GaussJordan_unfold (a : Args R) :
  m_rows (arg_A a) = m_cols (arg_A a) -> m_rows (arg_A a) = m_rows (arg_B a) ->
  MP_GaussJordan a =
  let r := gj_kernel (m_cols (arg_A a)) (m_cols (arg_B a))
             (m_matrix (arg_A a)) (m_matrix (arg_B a)) in
  (r.1.1, mkArgs (mkMatrix (m_rows (arg_A a)) (m_cols (arg_A a)) r.1.2)
                 (arg_B a)
                 (mkMatrix (m_rows (arg_B a)) (m_cols (arg_B a)) r.2)).
Proof.
  intros H1 H2. unfold MP_GaussJordan.
  rewrite (proj2 (Nat.eqb_eq _ _) H1), (proj2 (Nat.eqb_eq _ _) H2).
  cbn [andb negb arg_X arg_B].
  by destruct (gj_kernel _ _ _ _) as [[st p1] p2].
Qed.



(** An invertible input is never reported singular. *)
Lemma gj_kernel_invertible (n m : nat) (A0 B0 : list R) :
  length A0 = n * n -> length B0 = n * m -> invertible n A0 ->
  (gj_kernel n m A0 B0).1.1 = Completed.
Proof.
  intros HA HB Hinv.
  destruct (gj_kernel_cases n m A0 B0 HA HB) as [(Hst & _)|(_ & x & Hx)]; [done|].
  by destruct (invertible_no_null_vector n A0 x Hinv).
Qed.

(** Checking an explicit inverse of a small matrix entry by entry. *)
Ltac check_small_products :=
  let i := fresh "i" in let j := fresh "j" in
  intros i j ? ?;
  repeat (destruct i as [|i]; [|try lia]);
  repeat (destruct j as [|j]; [|try lia]);
  try lia; unfold prod_entry, cell, delta; simpl; lra.

Definition example_A2 : Matrix R := mkMatrix 2 2 [2; 1; 1; 1]%R.
Definition example_B2 : Matrix R := mkMatrix 2 1 [3; 2]%R.

Lemma example_A2_invertible : invertible 2 (m_matrix example_A2).
Proof.
  exists [1; -1; -1; 2]%R. split; check_small_products.
Qed.



(** ** Gaussian elimination: the loops on cells *)

(** The partial-pivot search returns a row at or below the diagonal whose
    entry in column [col] is largest in absolute value. *)
Lemma ge_search_spec (n col : nat) (p1 : list R) :
  col < n ->
  let pivot := ge_search n col p1 in
  col <= pivot < n /\
  forall r, col <= r < n ->
    (Rabs (cell n p1 r col) <= Rabs (cell n p1 pivot col))%R.
Proof.
  intros Hcol pivot. subst pivot. unfold ge_search.
  pose proof (for_up_ind
    (fun k pivot => col <= pivot < k /\
       forall r, col <= r < k ->
         (Rabs (cell n p1 r col) <= Rabs (cell n p1 pivot col))%R)
    (col + 1) n
    (fun row pivot =>
       if MP_abs (p1 !!! (pivot * n + col)) [<] MP_abs (p1 !!! (row * n + col))
       then row else pivot) col) as H.
  destruct H as (H1 & H2).
  - lia.
  - split; [lia|]. intros r Hr. replace r with col by lia. lra.
  - intros k pv Hk (Hpv & Hmax). rewrite !MP_abs_R. rscalar.
    fold (cell n p1 pv col). fold (cell n p1 k col). unfold R_ltb.
    destruct (Rlt_dec (Rabs (cell n p1 pv col)) (Rabs (cell n p1 k col))) as [Hlt|Hge].
    + split; [lia|]. intros r Hr. destruct (decide (r = k)) as [->|]; [lra|].
      specialize (Hmax r ltac:(lia)). lra.
    + split; [lia|]. intros r Hr. destruct (decide (r = k)) as [->|]; [lra|].
      apply Hmax. lia.
  - split; [lia|done].
Qed.

(** "forward elimination": the cells after [ge_forward]. *)
Lemma ge_forward_spec (n m col : nat) (p1 p2 : list R) :
  col < n -> length p1 = n * n -> length p2 = n * m ->
  cell n p1 col col <> 0%R ->
  let f := fun r => (cell n p1 r col / cell n p1 col col)%R in
  let p1' := (ge_forward n m col p1 p2).1 in
  let p2' := (ge_forward n m col p1 p2).2 in
  length p1' = n * n /\ length p2' = n * m /\
  (forall i j, i < n -> j < n ->
     cell n p1' i j =
       if decide (col < i)
       then (if decide (j = col) then 0%R
             else if decide (col < j) then (cell n p1 i j - cell n p1 col j * f i)%R
             else cell n p1 i j)
       else cell n p1 i j) /\
  (forall i j, i < n -> j < m ->
     cell m p2' i j =
       if decide (col < i) then (cell m p2 i j - cell m p2 col j * f i)%R
       else cell m p2 i j).
Proof.
  intros Hcol Hl1 Hl2 Hpiv f p1' p2'. subst p1' p2'. unfold ge_forward.
  pose proof (for_up_ind
    (fun k '(t1, t2) =>
       length t1 = n * n /\ length t2 = n * m /\
       (forall i j, i < n -> j < n ->
          cell n t1 i j =
            if decide (col < i < k)
            then (if decide (j = col) then 0%R
                  else if decide (col < j) then (cell n p1 i j - cell n p1 col j * f i)%R
                  else cell n p1 i j)
            else cell n p1 i j) /\
       (forall i j, i < n -> j < m ->
          cell m t2 i j =
            if decide (col < i < k) then (cell m p2 i j - cell m p2 col j * f i)%R
            else cell m p2 i j))
    (col + 1) n) as H.
  match goal with
  | |- context [for_up (col + 1) n ?body ?s] => specialize (H body s)
  end.
  destruct (for_up (col + 1) n _ (p1, p2)) as [t1 t2]. cbn [fst snd].
  destruct H as (H1 & H2 & Hc1 & Hc2).
  - lia.
  - repeat split; try done; intros i j _ _; by rewrite decide_False by lia.
  - intros k [t1' t2'] Hk (Hlen1 & Hlen2 & Ht1 & Ht2). rscalar.
    fold (cell n t1' k col). fold (cell n t1' col col).
    assert (Hrk : cell n t1' k col = cell n p1 k col).
    { rewrite Ht1 by lia. by rewrite decide_False by lia. }
    assert (Hcc : cell n t1' col col = cell n p1 col col).
    { rewrite Ht1 by lia. by rewrite decide_False by lia. }
    rewrite Hrk, Hcc. fold (f k). unfold R_eqb.
    destruct (Req_dec_T (cell n p1 k col) 0) as [Hz|Hnz].
    { assert (Hf : f k = 0%R) by (unfold f; rewrite Hz; field; done).
      split; [done|]. split; [done|]. split.
      - intros i j Hi Hj. rewrite Ht1 by done.
        destruct (decide (i = k)) as [->|Hik].
        + rewrite decide_False by lia. rewrite decide_True by lia.
          rewrite Hf. repeat case_decide; subst; lra.
        + repeat case_decide; first [done | exfalso; lia].
      - intros i j Hi Hj. rewrite Ht2 by done.
        destruct (decide (i = k)) as [->|Hik].
        + rewrite decide_False by lia. rewrite decide_True by lia. rewrite Hf. lra.
        + repeat case_decide; first [done | exfalso; lia]. }
    destruct (row_axpy_spec n n k col (col + 1) (f k) (<[k * n + col := 0%R]> t1'))
      as (Hlen1' & Hc1'); [lia|lia|lia|by rewrite length_insert|].
    destruct (row_axpy_spec m n k col 0 (f k) t2')
      as (Hlen2' & Hc2'); [lia|lia|lia|done|].
    cbv zeta in *. rewrite length_insert in Hlen1'.
    split; [congruence|]. split; [congruence|]. split.
    + intros i j Hi Hj. rewrite Hc1' by done.
      rewrite !(cell_insert n n) by (done || lia). rewrite !Ht1 by (done || lia).
      rewrite (decide_False (P := col < col < k)) by lia.
      destruct (decide (i = k)) as [->|Hik].
      * rewrite (decide_False (P := col < k < k)) by lia.
        rewrite (decide_True (P := col < k < S k)) by lia.
        rewrite (decide_False (P := col = k /\ _)) by lia.
        repeat case_decide; destruct_and?; subst; first [done | exfalso; lia | lra].
      * rewrite (decide_False (P := i = k /\ col + 1 <= j)) by tauto.
        rewrite (decide_False (P := i = k /\ j = col)) by tauto.
        repeat case_decide; first [done | exfalso; lia].
    + intros i j Hi Hj. rewrite Hc2' by done. rewrite !Ht2 by (done || lia).
      rewrite (decide_False (P := col < col < k)) by lia.
      destruct (decide (i = k)) as [->|Hik].
      * rewrite (decide_False (P := col < k < k)) by lia.
        rewrite (decide_True (P := col < k < S k)) by lia.
        by rewrite decide_True by lia.
      * rewrite (decide_False (P := i = k /\ 0 <= j)) by tauto.
        repeat case_decide; first [done | exfalso; lia].
  - split; [done|]. split; [done|]. split.
    + intros i j Hi Hj. rewrite Hc1 by done.
      repeat case_decide; first [done | exfalso; lia].
    + intros i j Hi Hj. rewrite Hc2 by done.
      repeat case_decide; first [done | exfalso; lia].
Qed.

(** The terms of a sum from index [k] on. *)
Lemma rsum_from_step (n k : nat) (h : nat -> R) :
  k < n ->
  rsum n (fun c => if decide (k <= c)%nat then h c else 0%R)
  = (rsum n (fun c => if decide (k + 1 <= c)%nat then h c else 0%R) + h k)%R.
Proof.
  intros Hk. rewrite (rsum_split n k) by done. rewrite decide_True by lia.
  rewrite (rsum_ext n _ (fun c => if decide (k + 1 <= c)%nat then h c else 0%R)); [lra|].
  intros c _. repeat case_decide; first [done | exfalso; lia].
Qed.

(** The innermost loop of the back-substitution: the partial sum and the
    position of [d2] when it exits. *)
Lemma ge_backsubst_inner (n m row i : nat) (p1 p2 : list R) :
  row < n -> i < m ->
  for_down (row + 1) n (fun col '(sum, d2) =>
      ((sum - p1 !!! (row * n + col)%nat * p2 !!! d2)%R, d2 - m))
    (p2 !!! (row * m + i), (n - 1) * m + i)
  = ((cell m p2 row i
      - rsum n (fun c => if decide (row + 1 <= c)%nat
                         then cell n p1 row c * cell m p2 c i else 0))%R,
     row * m + i).
Proof.
  intros Hrow Hi.
  transitivity
    ((cell m p2 row i
      - rsum n (fun c => if decide (row + 1 <= c)%nat
                         then cell n p1 row c * cell m p2 c i else 0))%R,
     (row + 1 - 1) * m + i); [|do 2 f_equal; lia].
  pose (P := fun k (st : R * nat) =>
       st = ((cell m p2 row i
              - rsum n (fun c => if decide (k <= c)%nat
                                 then cell n p1 row c * cell m p2 c i else 0))%R,
             (k - 1) * m + i)).
  apply (for_down_ind P (row + 1) n); unfold P; clear P.
  - lia.
  - f_equal. rewrite rsum_zero; [unfold cell; lra|].
    intros c Hc. by rewrite decide_False by lia.
  - intros k [sum d2] Hk [= -> ->]. f_equal.
    + rewrite (rsum_from_step n k) by lia.
      replace (k + 1) with (S k) by lia. unfold cell.
      rewrite ?Nat.sub_0_r. lra.
    + rewrite ?Nat.sub_0_r.
      assert (k * m = (k - 1) * m + m).
      { destruct k as [|k']; [lia|]. replace (S k' - 1) with k' by lia. simpl. lia. }
      rewrite H. generalize ((k - 1) * m). intros. lia.
Qed.

(** "backward substitution": with a non-zero diagonal, every row of the
    result satisfies its equation of the upper-triangular system. *)
Lemma ge_backsubst_spec (n m : nat) (p1 p2 : list R) :
  length p2 = n * m ->
  (forall r, r < n -> cell n p1 r r <> 0%R) ->
  let X := ge_backsubst n m p1 p2 in
  length X = n * m /\
  forall r i, r < n -> i < m ->
    rsum n (fun c => if decide (r <= c)%nat then (cell n p1 r c * cell m X c i)%R else 0%R)
    = cell m p2 r i.
Proof.
  intros Hl Hd X. subst X. unfold ge_backsubst.
  set (row_body := fun row p2 =>
      for_up 0 m (fun i p2 =>
        let '(sum, d2) :=
          for_down (row + 1) n (fun col '(sum, d2) =>
            (sum [-] (p1 !!! (row * n + col)) [*] (p2 !!! d2), d2 - m))
            (p2 !!! (row * m + i), (n - 1) * m + i) in
        <[d2 := sum [/] (p1 !!! (row * n + row))]> p2) p2).
  (* one row *)
  assert (Hrow : forall row t, row < n -> length t = n * m ->
    length (row_body row t) = n * m /\
    forall r i, r < n -> i < m ->
      cell m (row_body row t) r i =
        if decide (r = row)
        then ((cell m t row i
               - rsum n (fun c => if decide (row + 1 <= c)%nat
                                  then (cell n p1 row c * cell m t c i)%R else 0%R))
              / cell n p1 row row)%R
        else cell m t r i).
  { intros row t Hr Ht. unfold row_body.
    pose proof (for_up_ind
      (fun k u => length u = n * m /\
         forall r i, r < n -> i < m ->
           cell m u r i =
             if decide (r = row /\ i < k)
             then ((cell m t row i
                    - rsum n (fun c => if decide (row + 1 <= c)%nat
                                       then (cell n p1 row c * cell m t c i)%R else 0%R))
                   / cell n p1 row row)%R
             else cell m t r i) 0 m) as H.
    match goal with
    | |- context [for_up 0 m ?body ?s] => specialize (H body s)
    end.
    destruct H as (H1 & H2).
    - lia.
    - split; [done|]. intros r i _ _. by rewrite decide_False by lia.
    - intros k u Hk (Hu & Hc). rscalar.
      rewrite (ge_backsubst_inner n m row k p1 u) by lia.
      rewrite length_insert. split; [done|]. intros r i Hr' Hi.
      rewrite (cell_insert m n) by (done || lia).
      fold (cell n p1 row row).
      destruct (decide (r = row /\ i = k)) as [[-> ->]|Hne].
      + rewrite decide_True by lia. f_equal. f_equal.
        * rewrite Hc by lia. by rewrite decide_False by lia.
        * apply rsum_ext. intros c Hcn. case_decide; [|done].
          rewrite Hc by lia. by rewrite decide_False by lia.
      + rewrite Hc by done. repeat case_decide; first [done | exfalso; lia].
    - split; [done|]. intros r i Hr' Hi. rewrite H2 by done.
      repeat case_decide; first [done | exfalso; lia]. }
  (* all rows, from the last one up *)
  pose proof (for_down_ind
    (fun k t => length t = n * m /\
       (forall r i, r < k -> i < m -> cell m t r i = cell m p2 r i) /\
       forall r i, k <= r < n -> i < m ->
         rsum n (fun c => if decide (r <= c)%nat then (cell n p1 r c * cell m t c i)%R else 0%R)
         = cell m p2 r i)
    0 n row_body p2) as H.
  destruct H as (H1 & _ & H3).
  - lia.
  - split; [done|]. split; [done|]. intros; lia.
  - intros k t Hk (Ht & Hlow & Hhigh).
    destruct (Hrow k t ltac:(lia) Ht) as (Hl' & Hc'). split; [done|]. split.
    + intros r i Hr Hi. rewrite Hc' by lia. rewrite decide_False by lia.
      apply Hlow; lia.
    + intros r i Hr Hi. destruct (decide (r = k)) as [->|Hne].
      * rewrite (rsum_from_step n k) by lia.
        rewrite (rsum_ext n _
          (fun c => if decide (k + 1 <= c)%nat then (cell n p1 k c * cell m t c i)%R else 0%R)).
        2: { intros c Hc. case_decide; [|done]. rewrite Hc' by lia.
             by rewrite decide_False by lia. }
        rewrite Hc' by lia. rewrite decide_True by done.
        rewrite (Hlow k i) by lia. field. apply Hd. lia.
      * rewrite <- (Hhigh r i) by lia. apply rsum_ext. intros c Hc.
        case_decide; [|done]. rewrite Hc' by lia. by rewrite decide_False by lia.
  - split; [done|]. intros r i Hr Hi. apply H3; lia.
Qed.


(** ** Gaussian elimination: the invariant of the main loop *)

Section EliminationStep.
Local Open Scope R_scope.

(** Subtracting [F k] times row [col] from every row [k] is undone by
    adding the [F]-weighted sum of [g] to its entry [col]. *)
Lemma ge_dot_step (n col : nat) (g F v : nat -> R) :
  (col < n)%nat -> F col = 0 ->
  rsum n (fun k =>
    (g k + (if decide (k = col) then rsum n (fun l => g l * F l) else 0))
    * (v k - F k * v col))
  = rsum n (fun k => g k * v k).
Proof.
  intros Hcol HF. set (S2 := rsum n (fun l => g l * F l)).
  rewrite (rsum_ext n _
    (fun k => (g k * v k - (g k * F k) * v col)
              + (if decide (k = col) then S2 * (v k - F k * v col) else 0))).
  2: { intros k _. case_decide; lra. }
  rewrite rsum_plus, rsum_minus, rsum_scal_r.
  rewrite (rsum_single n col (fun k => S2 * (v k - F k * v col))) by done.
  fold S2. rewrite HF. lra.
Qed.

(** A unit upper-triangular-like system with non-zero diagonal can be
    solved upwards from row [col - 1]: the rows [col - k .. col - 1] of
    [W x] vanish for a vector [x] with [x col = 1]. *)
Lemma upper_null (n col : nat) (W : nat -> nat -> R) :
  (col < n)%nat ->
  (forall c, (c < col)%nat -> W c c <> 0) ->
  forall k, (k <= col)%nat ->
  exists x : nat -> R,
    x col = 1 /\ (forall c, (col < c)%nat -> x c = 0) /\
    forall r, (col - k <= r < col)%nat ->
      rsum n (fun c => if decide (r <= c)%nat then W r c * x c else 0) = 0.
Proof.
  intros Hcol Hd k. induction k as [|k IH]; intros Hk.
  - exists (fun c => if decide (c = col) then 1 else 0). split; [by rewrite decide_True|].
    split; [intros c Hc; by rewrite decide_False by lia|]. intros r Hr. lia.
  - destruct IH as (x & Hx1 & Hx0 & Hrows); [lia|].
    pose (r0 := (col - Datatypes.S k)%nat).
    assert (Hr0 : r0 = (col - Datatypes.S k)%nat) by done. clearbody r0.
    set (s := rsum n (fun c => if decide (r0 + 1 <= c)%nat then W r0 c * x c else 0)).
    exists (fun c => if decide (c = r0) then - s / W r0 r0 else x c).
    split; [rewrite decide_False by lia; done|].
    split; [intros c Hc; rewrite decide_False by lia; by apply Hx0|].
    intros r Hr. destruct (decide (r = r0)) as [->|Hne].
    + rewrite (rsum_from_step n r0) by lia. rewrite decide_True by done.
      rewrite (rsum_ext n _
        (fun c => if decide (r0 + 1 <= c)%nat then W r0 c * x c else 0)).
      2: { intros c _. destruct (decide (r0 + 1 <= c)%nat); [|done].
           by rewrite decide_False by lia. }
      fold s. field. apply Hd. lia.
    + etrans; [|apply (Hrows r); lia]. apply rsum_ext. intros c _.
      destruct (decide (r <= c)%nat); [|done]. by rewrite decide_False by lia.
Qed.
End EliminationStep.

Section GaussEliminationInvariant.
Local Open Scope R_scope.
Variables (n m : nat) (A0 B0 : list R).

(** [G] is the accumulated inverse of the row operations applied so
    far: [G [W | Y] = [A0 | B0]]. *)
Definition ge_ghost (G : nat -> nat -> R) (p1 p2 : list R) : Prop :=
  forall a, (a < n)%nat ->
    (forall c, (c < n)%nat -> rsum n (fun l => G a l * cell n p1 l c) = cell n A0 a c) /\
    (forall j, (j < m)%nat -> rsum n (fun l => G a l * cell m p2 l j) = cell m B0 a j).

(** The invariant before column [col] is visited: the columns to its left
    are zero below the diagonal and have a non-zero diagonal entry. *)
Definition ge_inv (col : nat) (st : list R * list R) : Prop :=
  length st.1 = (n * n)%nat /\ length st.2 = (n * m)%nat /\
  (forall c r, (c < col)%nat -> (c < r < n)%nat -> cell n st.1 r c = 0) /\
  (forall c, (c < col)%nat -> (c < n)%nat -> cell n st.1 c c <> 0) /\
  exists G, ge_ghost G st.1 st.2.

(** Column [col] has no non-zero entry at or below the diagonal. *)
Definition ge_stuck (col : nat) (st : list R * list R) : Prop :=
  ge_inv col st /\
  forall r, (col <= r < n)%nat -> cell n st.1 r col = 0.

Lemma ge_inv_init :
  length A0 = (n * n)%nat -> length B0 = (n * m)%nat -> ge_inv 0 (A0, B0).
Proof.
  intros HA HB. unfold ge_inv. cbn [fst snd].
  split; [done|]. split; [done|]. split; [intros; lia|]. split; [intros; lia|].
  exists delta. intros a Ha. split.
  - intros c Hc. by rewrite rsum_delta_l.
  - intros j Hj. by rewrite rsum_delta_l.
Qed.

(** The rows after the optional interchange. *)
Lemma ge_swap_spec (w pivot col : nat) (p : list R) :
  (pivot < n)%nat -> (col < n)%nat -> length p = (n * w)%nat ->
  let p' := if (pivot =? col)%nat then p else swap_rows w pivot col p in
  length p' = (n * w)%nat /\
  forall i j, (i < n)%nat -> (j < w)%nat ->
    cell w p' i j = cell w p (transp pivot col i) j.
Proof.
  intros Hp Hc Hl p'. subst p'.
  destruct (Nat.eqb_spec pivot col) as [->|Hne].
  - split; [done|]. intros i j _ _. by rewrite transp_same.
  - destruct (swap_rows_spec w n pivot col p Hp Hc Hne Hl) as (Hl' & Hc').
    split; [congruence|done].
Qed.

(** One iteration of the main loop keeps the invariant, or stops at a
    column without a pivot. *)
Lemma ge_body_inv (col : nat) (st : list R * list R) :
  (col < n)%nat -> ge_inv col st ->
  match ge_body n m col st with
  | Next st' => ge_inv (Datatypes.S col) st'
  | Return st' => ge_stuck col st'
  end.
Proof.
  intros Hcol Hinv. pose proof Hinv as (L1 & L2 & Hlow & Hdiag & G & HG).
  destruct st as [p1 p2]. cbn [fst snd] in *. unfold ge_body.
  pose proof (ge_search_spec n col p1 Hcol) as Hs. cbv zeta in Hs.
  set (pivot := ge_search n col p1) in *. destruct Hs as (Hpr & Hmax).
  rscalar. fold (cell n p1 pivot col). unfold R_eqb.
  destruct (Req_dec_T (cell n p1 pivot col) 0) as [Hz|Hnz].
  { split; [done|]. cbn [fst snd]. intros r Hr.
    specialize (Hmax r Hr). rewrite Hz, Rabs_R0 in Hmax.
    pose proof (Rabs_pos (cell n p1 r col)).
    destruct (Req_dec_T (cell n p1 r col) 0) as [|Hne]; [done|].
    apply Rabs_pos_lt in Hne. lra. }
  destruct (ge_swap_spec n pivot col p1 ltac:(lia) Hcol L1) as (Ls1 & Hs1).
  destruct (ge_swap_spec m pivot col p2 ltac:(lia) Hcol L2) as (Ls2 & Hs2).
  cbv zeta in *.
  assert (Hpair :
    (if (pivot =? col)%nat then (p1, p2)
     else (swap_rows n pivot col p1, swap_rows m pivot col p2))
    = (if (pivot =? col)%nat then p1 else swap_rows n pivot col p1,
       if (pivot =? col)%nat then p2 else swap_rows m pivot col p2)).
  { by destruct (pivot =? col)%nat. }
  rewrite Hpair. clear Hpair.
  set (q1 := if (pivot =? col)%nat then p1 else swap_rows n pivot col p1) in *.
  set (q2 := if (pivot =? col)%nat then p2 else swap_rows m pivot col p2) in *.
  assert (Hqcc : cell n q1 col col = cell n p1 pivot col).
  { rewrite Hs1 by lia. by rewrite transp_r. }
  destruct (ge_forward_spec n m col q1 q2 Hcol Ls1 Ls2 ltac:(by rewrite Hqcc))
    as (Lf1 & Lf2 & Hf1 & Hf2).
  cbv zeta in *.
  set (f := fun r => cell n q1 r col / cell n q1 col col) in *.
  set (F := fun r => if decide (col < r)%nat then f r else 0).
  (* the left columns of the interchanged matrix *)
  assert (Hq_low : forall c r, (c < col)%nat -> (c < r < n)%nat -> cell n q1 r c = 0).
  { intros c r Hc Hr. rewrite Hs1 by lia. apply Hlow; [done|].
    unfold transp. repeat case_decide; lia. }
  assert (Hq_diag : forall c, (c < col)%nat -> cell n q1 c c = cell n p1 c c).
  { intros c Hc. rewrite Hs1 by lia. rewrite transp_other by lia. done. }
  (* the new cells as one row operation *)
  assert (HW : forall k c, (k < n)%nat -> (c < n)%nat ->
            cell n (ge_forward n m col q1 q2).1 k c
            = cell n q1 k c - F k * cell n q1 col c).
  { intros k c Hk Hc. rewrite Hf1 by done. unfold F.
    destruct (decide (col < k)%nat) as [Hck|Hck]; [|lra].
    destruct (decide (c = col)) as [->|Hne].
    - unfold f. field. by rewrite Hqcc.
    - destruct (decide (col < c)%nat) as [|Hcc]; [unfold f, Rdiv; ring|].
      rewrite (Hq_low c col) by lia. lra. }
  assert (HY : forall k j, (k < n)%nat -> (j < m)%nat ->
            cell m (ge_forward n m col q1 q2).2 k j
            = cell m q2 k j - F k * cell m q2 col j).
  { intros k j Hk Hj. rewrite Hf2 by done. unfold F, f, Rdiv. case_decide; ring. }
  unfold ge_inv. cbn [fst snd].
  split; [done|]. split; [done|]. split; [|split].
  - intros c r Hc Hr. rewrite Hf1 by lia.
    destruct (decide (c = col)) as [->|Hne].
    + rewrite decide_True by lia. done.
    + assert (Hz : cell n q1 r c = 0) by (apply Hq_low; lia).
      repeat case_decide; first [done | exfalso; lia].
  - intros c Hc _. rewrite Hf1 by lia. rewrite decide_False by lia.
    destruct (decide (c = col)) as [->|Hne].
    + by rewrite Hqcc.
    + rewrite Hq_diag by lia. apply Hdiag; lia.
  - set (G1 := fun a k => G a (transp pivot col k)).
    exists (fun a k => G1 a k
              + (if decide (k = col) then rsum n (fun l => G1 a l * F l) else 0)).
    intros a Ha. destruct (HG a Ha) as (GW & GY).
    assert (HFcol : F col = 0) by (unfold F; by rewrite decide_False by lia).
    split.
    + intros c Hc. rewrite <- (GW c Hc).
      rewrite (rsum_ext n _
        (fun k => (G1 a k + (if decide (k = col)
                             then rsum n (fun l => G1 a l * F l) else 0))
                  * ((fun k => cell n q1 k c) k - F k * (fun k => cell n q1 k c) col))).
      2: { intros k Hk. by rewrite HW. }
      rewrite (ge_dot_step n col (G1 a) F (fun k => cell n q1 k c) Hcol HFcol).
      rewrite <- (rsum_transp n pivot col (fun l => G a l * cell n p1 l c))
        by lia.
      apply rsum_ext. intros k Hk. unfold G1. by rewrite Hs1.
    + intros j Hj. rewrite <- (GY j Hj).
      rewrite (rsum_ext n _
        (fun k => (G1 a k + (if decide (k = col)
                             then rsum n (fun l => G1 a l * F l) else 0))
                  * ((fun k => cell m q2 k j) k - F k * (fun k => cell m q2 k j) col))).
      2: { intros k Hk. by rewrite HY. }
      rewrite (ge_dot_step n col (G1 a) F (fun k => cell m q2 k j) Hcol HFcol).
      rewrite <- (rsum_transp n pivot col (fun l => G a l * cell m p2 l j))
        by lia.
      apply rsum_ext. intros k Hk. unfold G1. by rewrite Hs2.
Qed.

(** A column without a pivot exhibits a non-zero vector in the kernel of
    the input matrix. *)
Lemma ge_stuck_null (col : nat) (st : list R * list R) :
  (col < n)%nat -> ge_stuck col st -> exists x, null_vector n A0 x.
Proof.
  intros Hcol ((L1 & L2 & Hlow & Hdiag & G & HG) & Hzero).
  set (W := cell n st.1) in *.
  destruct (upper_null n col W Hcol ltac:(intros; apply Hdiag; lia) col ltac:(lia))
    as (x & Hx1 & Hx0 & Hrows).
  assert (HWx : forall l, (l < n)%nat -> rsum n (fun c => W l c * x c) = 0).
  { intros l Hl. destruct (decide (l < col)%nat) as [Hlt|Hge].
    - etrans; [|apply (Hrows l); lia]. apply rsum_ext. intros c Hc.
      case_decide; [done|]. rewrite (Hlow c l) by lia. lra.
    - apply rsum_zero. intros c Hc.
      destruct (Nat.lt_trichotomy c col) as [Hlt|[->|Hgt]].
      + rewrite (Hlow c l) by lia. lra.
      + rewrite Hzero by lia. lra.
      + rewrite Hx0 by done. lra. }
  exists x. split.
  - exists col. split; [done|]. rewrite Hx1. lra.
  - intros i Hi. destruct (HG i Hi) as (GW & _).
    rewrite (rsum_ext n _ (fun c => rsum n (fun l => G i l * (W l c * x c)))).
    2: { intros c Hc. rewrite <- (GW c Hc). rewrite <- rsum_scal_r.
         apply rsum_ext. intros l _. fold W. lra. }
    rewrite rsum_exchange. apply rsum_zero. intros l Hl.
    rewrite rsum_scal_l, HWx by done. lra.
Qed.

(** Once every column has a pivot, the back-substitution solves the
    original system. *)
Lemma ge_inv_solves (st : list R * list R) :
  ge_inv (n - 1) st -> cell n st.1 (n - 1) (n - 1) <> 0 ->
  length (ge_backsubst n m st.1 st.2) = (n * m)%nat /\
  forall i j, (i < n)%nat -> (j < m)%nat ->
    prod_entry n n m A0 (ge_backsubst n m st.1 st.2) i j = cell m B0 i j.
Proof.
  intros (L1 & L2 & Hlow & Hdiag & G & HG) Hlast.
  assert (Hd : forall r, (r < n)%nat -> cell n st.1 r r <> 0).
  { intros r Hr. destruct (decide (r = n - 1)%nat) as [->|Hne]; [done|].
    apply Hdiag; lia. }
  destruct (ge_backsubst_spec n m st.1 st.2 L2 Hd) as (LX & HX). cbv zeta in *.
  set (X := ge_backsubst n m st.1 st.2) in *.
  split; [done|]. intros i j Hi Hj.
  assert (HWX : forall l, (l < n)%nat ->
            rsum n (fun c => cell n st.1 l c * cell m X c j) = cell m st.2 l j).
  { intros l Hl. rewrite <- (HX l j Hl Hj). apply rsum_ext. intros c Hc.
    case_decide; [done|]. rewrite (Hlow c l) by lia. lra. }
  destruct (HG i Hi) as (GW & GY). rewrite <- (GY j Hj). unfold prod_entry.
  rewrite (rsum_ext n _
    (fun c => rsum n (fun l => G i l * (cell n st.1 l c * cell m X c j)))).
  2: { intros c Hc. rewrite <- (GW c Hc). rewrite <- rsum_scal_r.
       apply rsum_ext. intros l _. lra. }
  rewrite rsum_exchange. apply rsum_ext. intros l Hl.
  rewrite rsum_scal_l, HWX by done. done.
Qed.
End GaussEliminationInvariant.

Section GaussEliminationKernel.
Local Open Scope R_scope.
Variables (n m : nat) (A0 B0 : list R).

(** How [ge_kernel] ends.  A report of singularity is always justified;
    a completed run leaves the forward-eliminated matrix behind [p1] and,
    unless the input is singular, the solution behind [p2]. *)
Lemma ge_kernel_cases :
  length A0 = (n * n)%nat -> length B0 = (n * m)%nat ->
  let r := ge_kernel n m A0 B0 in
  (r.1.1 = SingularReported /\ exists x, null_vector n A0 x)
  \/ (r.1.1 = Completed /\
      length r.1.2 = (n * n)%nat /\
      (n <> 1%nat -> forall i j, (j < i < n)%nat -> cell n r.1.2 i j = 0) /\
      (n = 1%nat -> r.1.2 = [1 / A0 !!! 0%nat]) /\
      ((exists x, null_vector n A0 x) \/
       (length r.2 = (n * m)%nat /\
        forall i j, (i < n)%nat -> (j < m)%nat ->
          prod_entry n n m A0 r.2 i j = cell m B0 i j))).
Proof.
  intros HA HB r. subst r. unfold ge_kernel.
  destruct (Nat.eqb_spec n 1) as [->|Hn1].
  - destruct (gauss_1x1_cases m A0 B0) as [(Hnz & Hst & Hp1 & Hl2 & Hp2)|(Hz & Hr)];
      [done|lia| |].
    + right. split; [done|]. rewrite Hp1. split; [done|].
      split; [done|]. split; [done|]. right. split; [lia|].
      intros i j Hi Hj. replace i with 0%nat by lia.
      unfold prod_entry, cell. simpl. rewrite Hp2 by done.
      replace (j + 0)%nat with j by lia. field. done.
    + left. rewrite Hr. split; [done|]. exists (fun _ => 1). split.
      * exists 0%nat. split; [lia|lra].
      * intros i Hi. replace i with 0%nat by lia. unfold cell. simpl.
        rewrite Hz. lra.
  - pose proof (for_each_seq_ind
      (ge_inv n m A0 B0)
      (fun st => exists k, (k < n)%nat /\ ge_stuck n m A0 B0 k st)
      0 (n - 1) (ge_body n m) (A0, B0) (ge_inv_init n m A0 B0 HA HB)) as Hloop.
    assert (Hstep : forall i t, (0 <= i < 0 + (n - 1))%nat -> ge_inv n m A0 B0 i t ->
      match ge_body n m i t with
      | Next t' => ge_inv n m A0 B0 (Datatypes.S i) t'
      | Return t' => exists k, (k < n)%nat /\ ge_stuck n m A0 B0 k t'
      end).
    { intros i t Hi Hinv.
      pose proof (ge_body_inv n m A0 B0 i t ltac:(lia) Hinv) as Hb.
      destruct (ge_body n m i t); [done|]. exists i. split; [lia|done]. }
    specialize (Hloop Hstep).
    destruct (for_each (seq 0 (n - 1)) (ge_body n m) (A0, B0)) as [[p1 p2]|[p1 p2]];
      cbn [fst snd].
    + right. simpl in Hloop. pose proof Hloop as (L1 & L2 & Hlow & Hdiag & _).
      cbn [fst snd] in *. split; [done|]. split; [done|]. split.
      { intros _ i j Hij. apply Hlow; lia. }
      split; [done|].
      destruct (decide (n = 0)%nat) as [Hn0|Hn0].
      { right. split; [|intros; lia]. unfold ge_backsubst.
        by rewrite for_down_done by lia. }
      destruct (Req_dec_T (cell n p1 (n - 1) (n - 1)) 0) as [Hz|Hnz].
      * left. apply (ge_stuck_null n m A0 B0 (n - 1) (p1, p2)); [lia|].
        split; [done|]. cbn [fst snd]. intros r0 Hr0.
        replace r0 with (n - 1)%nat by lia. done.
      * right. exact (ge_inv_solves n m A0 B0 (p1, p2) Hloop Hnz).
    + left. split; [done|]. destruct Hloop as (k & Hk & Hstuck).
      by apply (ge_stuck_null n m A0 B0 k (p1, p2)).
Qed.

End GaussEliminationKernel.


(** ** [MP_GaussElimination] against [MP_GaussJordan] *)

(** Two buffers of the same shape with the same cells are equal. *)
Lemma cells_ext (h w : nat) (l1 l2 : list R) :
  length l1 = h * w -> length l2 = h * w ->
  (forall i j, i < h -> j < w -> cell w l1 i j = cell w l2 i j) ->
  l1 = l2.
Proof.
  intros H1 H2 Hc. apply (list_eq_same_length l1 l2 (h * w)); [done..|].
  intros k x y Hk Hx Hy.
  assert (Hw : w <> 0) by (intros ->; lia).
  pose proof (Nat.div_mod_eq k w) as Hdm.
  pose proof (Nat.mod_upper_bound k w Hw) as Hmod.
  assert (Hdiv : k / w < h) by (apply Nat.Div0.div_lt_upper_bound; lia).
  specialize (Hc (k / w) (k mod w) Hdiv Hmod). unfold cell in Hc.
  replace (k / w * w + k mod w) with k in Hc by lia.
  rewrite (list_lookup_total_correct l1 k x Hx) in Hc.
  rewrite (list_lookup_total_correct l2 k y Hy) in Hc. done.
Qed.

Lemma MP_GaussElimination_unfold (a : Args R) :
  m_rows (arg_A a) = m_cols (arg_A a) -> m_rows (arg_A a) = m_rows (arg_B a) ->
  MP_GaussElimination a =
  let r := ge_kernel (m_cols (arg_A a)) (m_cols (arg_B a))
             (m_matrix (arg_A a)) (m_matrix (arg_B a)) in
  (r.1.1, mkArgs (mkMatrix (m_rows (arg_A a)) (m_cols (arg_A a)) r.1.2)
                 (arg_B a)
                 (mkMatrix (m_rows (arg_B a)) (m_cols (arg_B a)) r.2)).
Proof.
  intros H1 H2. unfold MP_GaussElimination.
  rewrite (proj2 (Nat.eqb_eq _ _) H1), (proj2 (Nat.eqb_eq _ _) H2).
  cbn [andb negb arg_X arg_B].
  by destruct (ge_kernel _ _ _ _) as [[st p1] p2].
Qed.




(** A matrix whose inverse is not upper triangular. *)
Definition example_A2s : Matrix R := mkMatrix 2 2 [1; 1; 1; 2]%R.




(** ** The right-hand side is an input only *)

Section Frame.
Context {F : Type} `{Scalar F}.



End Frame.


(** ** Small matrices, entry by entry *)

(** Replace a list of known length by its elements. *)
Ltac explode_list l H :=
  repeat (destruct l as [|? l]; simpl in H; try (exfalso; lia)).

Ltac explode_matrix A Hwf Hr Hc :=
  destruct A as [?r ?c ?d]; unfold wf_matrix in Hwf; simpl in Hwf, Hr, Hc; subst;
  match type of Hwf with length ?d = _ => simpl in Hwf; explode_list d Hwf end.


(** ** [MP_matrixToQuaternion]: which derivation runs *)

(** Case analysis on nested [Rmax], innermost comparison first. *)
Ltac rmax_cases :=
  unfold Rmax;
  repeat match goal with
         | |- context [Rle_dec ?a ?b] =>
             is_var a; is_var b; destruct (Rle_dec a b); cbn iota
         end.

Lemma R_ltb_Rmax (a b : R) : (if R_ltb a b then b else a) = Rmax a b.
Proof. unfold R_ltb, Rmax. destruct (Rlt_dec a b), (Rle_dec a b); lra. Qed.

Lemma quat_max_Rmax (rr xx yy zz : R) :
  quat_max rr xx yy zz = Rmax (Rmax (Rmax rr xx) yy) zz.
Proof. unfold quat_max; rscalar. by rewrite !R_ltb_Rmax. Qed.



(** ** [MP_quaternionToMatrix] *)

Lemma quat_norm2_nonneg (q : Quaternion R) : (0 <= quat_norm2 q)%R.
Proof. unfold quat_norm2; rscalar. nra. Qed.

Lemma quat_norm_sqr (q : Quaternion R) : (quat_norm q * quat_norm q = quat_norm2 q)%R.
Proof. unfold quat_norm; rscalar. apply sqrt_sqrt, quat_norm2_nonneg. Qed.

(** Above the threshold [normalize] divides every component by the norm. *)
Lemma quat_normalize_ok (q : Quaternion R) :
  (sEPSILON <= quat_norm q)%R ->
  quat_normalize q =
    (false, mkQuaternion (q_x q / quat_norm q) (q_y q / quat_norm q)
                         (q_z q / quat_norm q) (q_w q / quat_norm q))%R.
Proof.
  intros Hn. unfold quat_normalize. rscalar.
  rewrite (proj2 (R_ltb_false _ _)) by lra. reflexivity.
Qed.

(** The normalised components have unit sum of squares. *)
Lemma quat_unit_after_normalize (q : Quaternion R) :
  (0 < quat_norm q)%R ->
  let n := quat_norm q in
  (q_w q / n * (q_w q / n) + q_x q / n * (q_x q / n) + q_y q / n * (q_y q / n)
   + q_z q / n * (q_z q / n) = 1)%R.
Proof.
  intros Hn n. pose proof (quat_norm_sqr q) as Hs. fold n in Hs.
  unfold quat_norm2 in Hs; rscalar. fold n in Hn.
  field_simplify; [|lra]. apply Rmult_eq_reg_r with (n ^ 2)%R; [|nra].
  field_simplify; [|lra]. nra.
Qed.




(** ** Rotation matrices and the round trip through quaternions *)

(** The determinant of a 3 x 3 matrix, by the rule of Sarrus. *)
Definition det3 (A : Matrix R) : R :=
  (mat_get A 0 0 * (mat_get A 1 1 * mat_get A 2 2 - mat_get A 1 2 * mat_get A 2 1)
   - mat_get A 0 1 * (mat_get A 1 0 * mat_get A 2 2 - mat_get A 1 2 * mat_get A 2 0)
   + mat_get A 0 2 * (mat_get A 1 0 * mat_get A 2 1 - mat_get A 1 1 * mat_get A 2 0))%R.

(** Columns [i] and [j] of [A] have inner product [d]. *)
Definition col_dot (A : Matrix R) (i j : nat) : R :=
  (mat_get A 0 i * mat_get A 0 j + mat_get A 1 i * mat_get A 1 j
   + mat_get A 2 i * mat_get A 2 j)%R.

(** A rotation matrix: 3 x 3, orthonormal columns, determinant +1. *)
Definition is_rotation (A : Matrix R) : Prop :=
  wf_matrix A /\ m_rows A = 3 /\ m_cols A = 3 /\
  col_dot A 0 0 = 1%R /\ col_dot A 1 1 = 1%R /\ col_dot A 2 2 = 1%R /\
  col_dot A 0 1 = 0%R /\ col_dot A 0 2 = 0%R /\ col_dot A 1 2 = 0%R /\
  det3 A = 1%R.

Section RotationAlgebra.
Local Open Scope R_scope.
Variables a00 a01 a02 a10 a11 a12 a20 a21 a22 : R.









End RotationAlgebra.

(** ** The round trip *)

(** The base of the derivation that runs is the largest base. *)
Definition base_of (rr xx yy zz : R) (b : branch) : R :=
  match b with Branch_rr => rr | Branch_xx => xx | Branch_yy => yy | Branch_zz => zz end.

Lemma quat_branch_base (rr xx yy zz : R) :
  base_of rr xx yy zz (quat_branch rr xx yy zz) = quat_max rr xx yy zz /\
  (rr <= quat_max rr xx yy zz /\ xx <= quat_max rr xx yy zz /\
   yy <= quat_max rr xx yy zz /\ zz <= quat_max rr xx yy zz)%R.
Proof.
  assert (Hge : (rr <= quat_max rr xx yy zz /\ xx <= quat_max rr xx yy zz /\
                 yy <= quat_max rr xx yy zz /\ zz <= quat_max rr xx yy zz)%R).
  { rewrite quat_max_Rmax. rmax_cases; lra. }
  assert (Hone : rr = quat_max rr xx yy zz \/ xx = quat_max rr xx yy zz \/
                 yy = quat_max rr xx yy zz \/ zz = quat_max rr xx yy zz).
  { rewrite quat_max_Rmax. rmax_cases; auto. }
  split; [|exact Hge]. unfold quat_branch. set (M := quat_max rr xx yy zz) in *.
  clearbody M. rscalar. unfold R_eqb.
  destruct (Req_dec_T rr M), (Req_dec_T xx M), (Req_dec_T yy M); simpl; try done.
  destruct Hone as [|[|[|]]]; done.
Qed.



(** Modelled from the spec: the unary minus of quaternions, declared in
    [Quaternion.h] and defined outside the sources. *)
Definition quat_neg (q : Quaternion R) : Quaternion R :=
  mkQuaternion (- q_x q)%R (- q_y q)%R (- q_z q)%R (- q_w q)%R.

Lemma sqrt_base (b c : R) : (b = 4 * c * c)%R -> R_sqrt.sqrt (b * 4) = (4 * Rabs c)%R.
Proof.
  intros ->. replace (4 * c * c * 4)%R with (Rsqr (4 * c)) by (unfold Rsqr; ring).
  rewrite sqrt_Rsqr_abs, Rabs_mult. rewrite (Rabs_right 4) by lra. done.
Qed.

(** Converting the closed form of a unit quaternion back gives the
    quaternion or its negative. *)
Lemma quat_of_closed_form (x y z w : R) :
  (x * x + y * y + z * z + w * w = 1)%R ->
  let q := MP_matrixToQuaternion (mkMatrix 3 3
    [ w * w + x * x - y * y - z * z; 2 * x * y - 2 * w * z; 2 * x * z + 2 * w * y;
      2 * x * y + 2 * w * z; w * w - x * x + y * y - z * z; 2 * y * z - 2 * w * x;
      2 * x * z - 2 * w * y; 2 * y * z + 2 * w * x; w * w - x * x - y * y + z * z ]%R) in
  q = mkQuaternion x y z w \/ q = quat_neg (mkQuaternion x y z w).
Proof.
  intros Hu q. subst q. unfold MP_matrixToQuaternion, quat_bases, quat_neg.
  cbn -[quat_branch quat_derive].
  set (rr := (1 + _ + _ + _)%R). set (xx := (1 + _ - _ - _)%R).
  set (yy := (1 - _ + _ - _)%R). set (zz := (1 - _ - _ + _)%R).
  assert (Hrr : rr = (4 * w * w)%R) by (unfold rr; lra).
  assert (Hxx : xx = (4 * x * x)%R) by (unfold xx; lra).
  assert (Hyy : yy = (4 * y * y)%R) by (unfold yy; lra).
  assert (Hzz : zz = (4 * z * z)%R) by (unfold zz; lra).
  destruct (quat_branch_base rr xx yy zz) as (Hbase & Hr1 & Hx1 & Hy1 & Hz1).
  set (M := quat_max _ _ _ _) in *. clearbody M.
  assert (HM : (1 <= M)%R) by lra.
  destruct (quat_branch _ _ _ _); unfold quat_derive; cbn [base_of] in Hbase; cbn.
  - rewrite (sqrt_base rr w Hrr).
    assert (Hc : w <> 0%R) by (intros ->; lra).
    destruct (Rcase_abs w) as [Hneg|Hpos].
    + right. rewrite (Rabs_left _ Hneg). f_equal; field; lra.
    + left. rewrite (Rabs_right _ Hpos). f_equal; field; lra.
  - rewrite (sqrt_base xx x Hxx).
    assert (Hc : x <> 0%R) by (intros ->; lra).
    destruct (Rcase_abs x) as [Hneg|Hpos].
    + right. rewrite (Rabs_left _ Hneg). f_equal; field; lra.
    + left. rewrite (Rabs_right _ Hpos). f_equal; field; lra.
  - rewrite (sqrt_base yy y Hyy).
    assert (Hc : y <> 0%R) by (intros ->; lra).
    destruct (Rcase_abs y) as [Hneg|Hpos].
    + right. rewrite (Rabs_left _ Hneg). f_equal; field; lra.
    + left. rewrite (Rabs_right _ Hpos). f_equal; field; lra.
  - rewrite (sqrt_base zz z Hzz).
    assert (Hc : z <> 0%R) by (intros ->; lra).
    destruct (Rcase_abs z) as [Hneg|Hpos].
    + right. rewrite (Rabs_left _ Hneg). f_equal; field; lra.
    + left. rewrite (Rabs_right _ Hpos). f_equal; field; lra.
Qed.




(** ** [MP_getDiag] and [MP_setDiag] *)

(** A 3 x 1 matrix and a 5 x 2 matrix: more rows than columns. *)
Definition tall_3x1 : Matrix R := mkMatrix 3 1 [1; 2; 3]%R.
Definition tall_5x2 : Matrix R := mkMatrix 5 2 [1; 2; 3; 4; 5; 6; 7; 8; 9; 10]%R.

(** C8 (the code departs from the claim).  With the negative offset
    [d = -1], which passes the assertion [MP_abs(d) < l], the copy loop of
    [MP_getDiag] is bounded by [l + d] rows only and never by the number of
    columns.  On the 3 x 1 matrix and a vector of 2 elements it
    dereferences the cell after the end of the buffer; [MP_setDiag] then
    writes to the same cell.  On the 5 x 2 matrix and a vector of 3
    elements it stays inside the buffer and returns the cell (4, 0), which
    is not on the diagonal, where the diagonal's length would require the
    padding 0. *)
Theorem getDiag_negative_offset_tall :
  MP_getDiag tall_3x1 (-1) [0; 0]%R = OutOfBounds /\
  MP_setDiag [2; 0]%R tall_3x1 (-1) = OutOfBounds /\
  MP_getDiag tall_5x2 (-1) [0; 0; 0]%R = Ok [3; 6; 9]%R.
Proof. repeat split; vm_compute; reflexivity. Qed.


(** ** Rows and columns of a matrix: [MP_getRow], [MP_setRow], [MP_getCol],
    [MP_setCol]

    Nothing in this part depends on the arithmetic of the scalars: the
    statements hold for every scalar type, binary64 included. *)

Section CopyLoops.
Context {F : Type} `{Scalar F}.

(** The first [cnt] values of [f], then zeros, [n] entries in all. *)
Definition padded (n cnt : nat) (f : nat -> F) : list F :=
  map (fun k => if decide (k < cnt) then f k else sZ 0) (seq 0 n).

Lemma padded_length (n cnt : nat) (f : nat -> F) : length (padded n cnt f) = n.
Proof. unfold padded. by rewrite length_map, length_seq. Qed.

Lemma padded_lookup (n cnt : nat) (f : nat -> F) (k : nat) :
  k < n -> padded n cnt f !!! k = if decide (k < cnt) then f k else sZ 0.
Proof.
  intros Hk. unfold padded. apply list_lookup_total_correct.
  rewrite list_lookup_fmap, lookup_seq_lt by done. done.
Qed.

Lemma lookup_total_ext (l1 l2 : list F) :
  length l1 = length l2 ->
  (forall k, k < length l1 -> l1 !!! k = l2 !!! k) -> l1 = l2.
Proof.
  intros Hl He. apply (list_eq_same_length l1 l2 (length l1)); [done|done|].
  intros k x y Hk Hx Hy. specialize (He k Hk).
  rewrite (list_lookup_total_correct l1 k x Hx) in He.
  rewrite (list_lookup_total_correct l2 k y Hy) in He. done.
Qed.

(** Two matrices of the same shape with the same entries are equal. *)
Lemma matrix_ext (A B : Matrix F) :
  wf_matrix A -> wf_matrix B ->
  m_rows A = m_rows B -> m_cols A = m_cols B ->
  (forall i j, i < m_rows A -> j < m_cols A -> mat_get A i j = mat_get B i j) ->
  A = B.
Proof.
  destruct A as [r c a], B as [r' c' b]. unfold wf_matrix, mat_get.
  cbn [m_rows m_cols m_matrix]. intros Ha Hb <- <- He. f_equal.
  apply lookup_total_ext; [congruence|]. intros k Hk. rewrite Ha in Hk.
  assert (Hc : c <> 0) by (intros ->; lia).
  pose proof (Nat.div_mod_eq k c) as Hdm.
  pose proof (Nat.mod_upper_bound k c Hc) as Hmod.
  assert (Hdiv : k / c < r) by (apply Nat.Div0.div_lt_upper_bound; lia).
  specialize (He (k / c) (k mod c) Hdiv Hmod).
  replace (k / c * c + k mod c) with k in He by lia. done.
Qed.

(** The copy loop out of a buffer, when every read is inside it. *)
Lemma copy_out_spec (count : nat) (Ad : list F) (step i p : nat) (u : list F) :
  i + count <= length u ->
  (forall k, k < count -> p + k * step < length Ad) ->
  exists u', copy_out count Ad step i p u = Ok u' /\ length u' = length u /\
    forall k, u' !!! k = if decide (i <= k < i + count)
                         then Ad !!! (p + (k - i) * step) else u !!! k.
Proof.
  revert i p u. induction count as [|c IH]; intros i p u Hu Hp.
  - exists u. simpl. split; [done|]. split; [done|]. intros k.
    by rewrite decide_False by lia.
  - simpl. pose proof (Hp 0 ltac:(lia)) as Hp0. simpl in Hp0.
    rewrite Nat.add_0_r in Hp0.
    destruct (lookup_lt_is_Some_2 Ad p Hp0) as [v Hv]. rewrite Hv.
    rewrite decide_True by lia.
    destruct (IH (S i) (p + step) (<[i := v]> u)) as (u' & Hrun & Hlen & Hget).
    + rewrite length_insert. lia.
    + intros k Hk. specialize (Hp (S k) ltac:(lia)). simpl in Hp. lia.
    + exists u'. split; [done|]. rewrite length_insert in Hlen. split; [done|].
      intros k. rewrite Hget.
      destruct (decide (k = i)) as [->|Hne].
      * rewrite decide_False by lia. rewrite decide_True by lia.
        rewrite list_lookup_total_insert_eq by lia.
        rewrite Nat.sub_diag. simpl. rewrite Nat.add_0_r.
        by rewrite (list_lookup_total_correct Ad p v Hv).
      * rewrite list_lookup_total_insert_ne by done.
        destruct (decide (S i <= k < S i + c)), (decide (i <= k < i + S c));
          try lia; [|done].
        f_equal. replace (k - i) with (S (k - S i)) by lia. simpl. lia.
Qed.

(** The copy loop into a buffer, when every write is inside it. *)
Lemma copy_in_spec (count : nat) (u : list F) (step i p : nat) (Ad : list F) :
  0 < step -> i + count <= length u ->
  (forall k, k < count -> p + k * step < length Ad) ->
  exists Ad', copy_in count u step i p Ad = Ok Ad' /\ length Ad' = length Ad /\
    (forall k, k < count -> Ad' !!! (p + k * step) = u !!! (i + k)) /\
    (forall q, (forall k, k < count -> q <> p + k * step) -> Ad' !!! q = Ad !!! q).
Proof.
  intros Hstep. revert i p Ad. induction count as [|c IH]; intros i p Ad Hu Hp.
  - exists Ad. simpl. split; [done|]. split; [done|]. split; [intros; lia|done].
  - simpl. destruct (lookup_lt_is_Some_2 u i ltac:(lia)) as [v Hv]. rewrite Hv.
    pose proof (Hp 0 ltac:(lia)) as Hp0. simpl in Hp0. rewrite Nat.add_0_r in Hp0.
    rewrite decide_True by lia.
    destruct (IH (S i) (p + step) (<[p := v]> Ad)) as (Ad' & Hrun & Hlen & Hget & Hframe).
    + lia.
    + intros k Hk. rewrite length_insert.
      specialize (Hp (S k) ltac:(lia)). simpl in Hp. lia.
    + exists Ad'. split; [done|]. rewrite length_insert in Hlen. split; [done|]. split.
      * intros k Hk. destruct k as [|k].
        -- simpl. rewrite !Nat.add_0_r. rewrite Hframe.
           ++ rewrite list_lookup_total_insert_eq by lia.
              symmetry. by apply list_lookup_total_correct.
           ++ intros k Hk'. assert (0 < step + k * step) by lia. lia.
        -- replace (p + S k * step) with (p + step + k * step) by (simpl; lia).
           rewrite Hget by lia. f_equal. lia.
      * intros q Hq. rewrite Hframe.
        -- apply list_lookup_total_insert_ne. specialize (Hq 0 ltac:(lia)).
           simpl in Hq. lia.
        -- intros k Hk. specialize (Hq (S k) ltac:(lia)). simpl in Hq. lia.
Qed.

(** The padding loop. *)
Lemma pad_zero_spec (i : nat) (u : list F) :
  length (pad_zero i u) = length u /\
  forall k, pad_zero i u !!! k = if decide (i <= k < length u) then sZ 0 else u !!! k.
Proof.
  unfold pad_zero. destruct (decide (i <= length u)) as [Hle|Hgt].
  2: { rewrite for_up_done by lia. split; [done|]. intros k.
       by rewrite decide_False by lia. }
  pose (P := fun (k : nat) (t : list F) =>
    length t = length u /\
    forall q, t !!! q = if decide (i <= q < k) then sZ 0 else u !!! q).
  apply (for_up_ind P i (length u)); unfold P; clear P.
  - done.
  - split; [done|]. intros q. by rewrite decide_False by lia.
  - intros k t Hk (Hl & Ht). rewrite length_insert. split; [done|]. intros q.
    destruct (decide (q = k)) as [->|Hne].
    + rewrite list_lookup_total_insert_eq by lia. by rewrite decide_True by lia.
    + rewrite list_lookup_total_insert_ne by done. rewrite Ht.
      destruct (decide (i <= q < k)), (decide (i <= q < S k)); try lia; done.
Qed.

(** A row index that passes the assertion. *)
Lemma index_assert (row : Z) (l : nat) :
  (0 <= row < Z.of_nat l)%Z ->
  negb ((0 <=? row)%Z && (row <? Z.of_nat l)%Z) = false /\ Z.to_nat row < l.
Proof.
  intros Hr. split; [|lia].
  rewrite (proj2 (Z.leb_le _ _)), (proj2 (Z.ltb_lt _ _)) by lia. done.
Qed.

(** [MP_getRow] overwrites the whole of [u]: the leading entries are row
    [row] of [A], as far as it reaches, the others are zero. *)
Lemma MP_getRow_spec (A : Matrix F) (row : Z) (u : list F) :
  wf_matrix A -> (0 <= row < Z.of_nat (m_rows A))%Z -> 0 < m_cols A ->
  MP_getRow A row u
  = Ok (padded (length u) (m_cols A) (mat_get A (Z.to_nat row))).
Proof.
  intros Hwf Hrow Hm. unfold MP_getRow. cbv zeta.
  destruct (index_assert row (m_rows A) Hrow) as (-> & Hr).
  set (r := Z.to_nat row) in *. unfold wf_matrix in Hwf.
  assert (Hp : forall k, k < m_cols A -> r * m_cols A + k < length (m_matrix A)).
  { intros k Hk. rewrite Hwf. by apply cell_idx_lt. }
  destruct (lookup_lt_is_Some_2 (m_matrix A) (r * m_cols A)) as [v ->].
  { specialize (Hp 0 Hm). lia. }
  destruct (copy_out_spec (Nat.min (m_cols A) (length u)) (m_matrix A) 1 0
              (r * m_cols A) u) as (u' & -> & Hl & Hget).
  { lia. }
  { intros k Hk. specialize (Hp k ltac:(lia)). lia. }
  f_equal. destruct (pad_zero_spec (Nat.min (m_cols A) (length u)) u') as (Hl' & Hpad).
  apply lookup_total_ext.
  - rewrite padded_length. congruence.
  - intros k Hk. rewrite Hpad, Hget, padded_lookup by lia. unfold mat_get.
    destruct (decide (k < m_cols A)).
    + rewrite decide_False by lia. rewrite decide_True by lia.
      f_equal. lia.
    + rewrite decide_True by lia. done.
Qed.

(** [MP_setRow] writes the leading entries of [u] into row [row] and
    nothing else. *)
Lemma MP_setRow_spec (u : list F) (A : Matrix F) (row : Z) :
  wf_matrix A -> (0 <= row < Z.of_nat (m_rows A))%Z -> 0 < m_cols A ->
  exists A', MP_setRow u A row = Ok A' /\
    m_rows A' = m_rows A /\ m_cols A' = m_cols A /\ wf_matrix A' /\
    forall i j, i < m_rows A -> j < m_cols A ->
      mat_get A' i j = if decide (i = Z.to_nat row /\ j < length u)
                       then u !!! j else mat_get A i j.
Proof.
  intros Hwf Hrow Hm. unfold MP_setRow. cbv zeta.
  destruct (index_assert row (m_rows A) Hrow) as (-> & Hr).
  set (r := Z.to_nat row) in *. unfold wf_matrix in Hwf.
  assert (Hp : forall k, k < m_cols A -> r * m_cols A + k < length (m_matrix A)).
  { intros k Hk. rewrite Hwf. by apply cell_idx_lt. }
  destruct (lookup_lt_is_Some_2 (m_matrix A) (r * m_cols A)) as [v ->].
  { specialize (Hp 0 Hm). lia. }
  destruct (copy_in_spec (Nat.min (m_cols A) (length u)) u 1 0
              (r * m_cols A) (m_matrix A)) as (Ad' & -> & Hl & Hget & Hframe).
  { lia. }
  { lia. }
  { intros k Hk. specialize (Hp k ltac:(lia)). lia. }
  eexists. split; [done|]. cbn [m_rows m_cols m_matrix]. unfold wf_matrix.
  cbn [m_rows m_cols m_matrix]. split; [done|]. split; [done|].
  split; [congruence|]. intros i j Hi Hj. unfold mat_get. cbn [m_cols m_matrix].
  destruct (decide (i = r /\ j < length u)) as [[-> Hju]|Hne].
  - specialize (Hget j ltac:(lia)). rewrite Nat.mul_1_r in Hget. by rewrite Hget.
  - apply Hframe. intros k Hk Heq. rewrite Nat.mul_1_r in Heq.
    apply cell_idx_inj in Heq as [-> ->]; lia.
Qed.

(** An index that fails the assertion. *)
Lemma index_assert_fails (row : Z) (l : nat) :
  ~ (0 <= row < Z.of_nat l)%Z ->
  negb ((0 <=? row)%Z && (row <? Z.of_nat l)%Z) = true.
Proof.
  intros Hr. destruct (Z.leb_spec 0 row), (Z.ltb_spec row (Z.of_nat l)); try done. lia.
Qed.

(** X1. [MP_getRow(A, row, u)] on a matrix with at least one column:
    when [row] is a row of [A], the call stays inside both buffers and
    overwrites all of [u], whatever it held, with the entries of that row
    followed by zeros if [u] is longer than a row (a shorter [u] receives
    the leading entries); when [row] is not a row of [A] the assertion
    fails. *)
Theorem MP_getRow_contract (A : Matrix F) (row : Z) (u : list F) :
  wf_matrix A -> 0 < m_cols A ->
  ((0 <= row < Z.of_nat (m_rows A))%Z ->
     MP_getRow A row u
     = Ok (padded (length u) (m_cols A) (mat_get A (Z.to_nat row)))) /\
  (~ (0 <= row < Z.of_nat (m_rows A))%Z -> MP_getRow A row u = AssertFails).
Proof.
  intros Hwf Hm. split.
  - intros Hrow. by apply MP_getRow_spec.
  - intros Hrow. unfold MP_getRow. cbv zeta. by rewrite index_assert_fails.
Qed.

(** X2. [MP_setRow(u, A, row)] on a matrix with at least one column: when
    [row] is a row of [A], the call stays inside both buffers, keeps the
    shape of [A], copies the leading entries of [u] into that row, as
    many as fit, and changes no other entry; it does not pad a row that
    is longer than [u].  When [row] is not a row of [A] the assertion
    fails. *)
Theorem MP_setRow_contract (u : list F) (A : Matrix F) (row : Z) :
  wf_matrix A -> 0 < m_cols A ->
  ((0 <= row < Z.of_nat (m_rows A))%Z ->
     exists A', MP_setRow u A row = Ok A' /\
       m_rows A' = m_rows A /\ m_cols A' = m_cols A /\ wf_matrix A' /\
       forall i j, i < m_rows A -> j < m_cols A ->
         mat_get A' i j = if decide (i = Z.to_nat row /\ j < length u)
                          then u !!! j else mat_get A i j) /\
  (~ (0 <= row < Z.of_nat (m_rows A))%Z -> MP_setRow u A row = AssertFails).
Proof.
  intros Hwf Hm. split.
  - intros Hrow. by apply MP_setRow_spec.
  - intros Hrow. unfold MP_setRow. cbv zeta. by rewrite index_assert_fails.
Qed.

(** X3. Rows round-trip.  Reading a row into any vector and writing that
    vector back leaves the matrix as it was; writing a vector that is no
    longer than a row and reading the row back into a vector of the same
    size returns the vector that was written. *)
Theorem MP_row_round_trip (A : Matrix F) (row : Z) (u v : list F) :
  wf_matrix A -> 0 < m_cols A -> (0 <= row < Z.of_nat (m_rows A))%Z ->
  (exists u', MP_getRow A row u = Ok u' /\ MP_setRow u' A row = Ok A) /\
  (length u <= m_cols A -> length v = length u ->
   exists A', MP_setRow u A row = Ok A' /\ MP_getRow A' row v = Ok u).
Proof.
  intros Hwf Hm Hrow. split.
  - eexists. split; [by apply MP_getRow_spec|].
    destruct (MP_setRow_spec
                (padded (length u) (m_cols A) (mat_get A (Z.to_nat row))) A row
                Hwf Hrow Hm) as (A' & -> & Hr & Hc & Hwf' & Hget).
    f_equal. apply matrix_ext; [done..|]. rewrite Hr, Hc. intros i j Hi Hj.
    rewrite Hget by done. rewrite padded_length.
    destruct (decide (i = Z.to_nat row /\ j < length u)) as [[-> Hju]|Hne]; [|done].
    rewrite padded_lookup by done. by rewrite decide_True.
  - intros Hu Hv.
    destruct (MP_setRow_spec u A row Hwf Hrow Hm) as (A' & HA' & Hr & Hc & Hwf' & Hget).
    exists A'. split; [done|].
    rewrite MP_getRow_spec by (rewrite ?Hr, ?Hc; done). f_equal.
    apply lookup_total_ext.
    + rewrite padded_length. done.
    + rewrite padded_length. intros k Hk. rewrite padded_lookup by done.
      rewrite Hc. rewrite decide_True by lia.
      rewrite Hget by lia. rewrite decide_True by lia. done.
Qed.

(** The column loops visit the cells [(k, col)]. *)
Lemma col_index (A : Matrix F) (c : nat) (k : nat) :
  c + k * m_cols A = k * m_cols A + c.
Proof. lia. Qed.

Lemma MP_getCol_spec (A : Matrix F) (col : Z) (u : list F) :
  wf_matrix A -> (0 <= col < Z.of_nat (m_cols A))%Z -> 0 < m_rows A ->
  MP_getCol A col u
  = Ok (padded (length u) (m_rows A) (fun k => mat_get A k (Z.to_nat col))).
Proof.
  intros Hwf Hcol Hl. unfold MP_getCol. cbv zeta.
  destruct (index_assert col (m_cols A) Hcol) as (-> & Hc).
  set (c := Z.to_nat col) in *. unfold wf_matrix in Hwf.
  assert (Hp : forall k, k < m_rows A -> c + k * m_cols A < length (m_matrix A)).
  { intros k Hk. rewrite Hwf, col_index. by apply cell_idx_lt. }
  destruct (lookup_lt_is_Some_2 (m_matrix A) c) as [v ->].
  { specialize (Hp 0 Hl). lia. }
  destruct (copy_out_spec (Nat.min (m_rows A) (length u)) (m_matrix A) (m_cols A) 0
              c u) as (u' & -> & Hlen & Hget).
  { lia. }
  { intros k Hk. apply Hp. lia. }
  f_equal. destruct (pad_zero_spec (Nat.min (m_rows A) (length u)) u') as (Hl' & Hpad).
  apply lookup_total_ext.
  - rewrite padded_length. congruence.
  - intros k Hk. rewrite Hpad, Hget, padded_lookup by lia. unfold mat_get.
    destruct (decide (k < m_rows A)).
    + rewrite decide_False by lia. rewrite decide_True by lia.
      f_equal. lia.
    + rewrite decide_True by lia. done.
Qed.

Lemma MP_setCol_spec (u : list F) (A : Matrix F) (col : Z) :
  wf_matrix A -> (0 <= col < Z.of_nat (m_cols A))%Z -> 0 < m_rows A ->
  exists A', MP_setCol u A col = Ok A' /\
    m_rows A' = m_rows A /\ m_cols A' = m_cols A /\ wf_matrix A' /\
    forall i j, i < m_rows A -> j < m_cols A ->
      mat_get A' i j = if decide (j = Z.to_nat col /\ i < length u)
                       then u !!! i else mat_get A i j.
Proof.
  intros Hwf Hcol Hl. unfold MP_setCol. cbv zeta.
  destruct (index_assert col (m_cols A) Hcol) as (-> & Hc).
  set (c := Z.to_nat col) in *. unfold wf_matrix in Hwf.
  assert (Hp : forall k, k < m_rows A -> c + k * m_cols A < length (m_matrix A)).
  { intros k Hk. rewrite Hwf, col_index. by apply cell_idx_lt. }
  destruct (lookup_lt_is_Some_2 (m_matrix A) c) as [v ->].
  { specialize (Hp 0 Hl). lia. }
  destruct (copy_in_spec (Nat.min (m_rows A) (length u)) u (m_cols A) 0
              c (m_matrix A)) as (Ad' & -> & Hlen & Hget & Hframe).
  { lia. }
  { lia. }
  { intros k Hk. apply Hp. lia. }
  eexists. split; [done|]. cbn [m_rows m_cols m_matrix]. unfold wf_matrix.
  cbn [m_rows m_cols m_matrix]. split; [done|]. split; [done|].
  split; [congruence|]. intros i j Hi Hj. unfold mat_get. cbn [m_cols m_matrix].
  destruct (decide (j = c /\ i < length u)) as [[-> Hiu]|Hne].
  - specialize (Hget i ltac:(lia)). rewrite col_index in Hget. by rewrite Hget.
  - apply Hframe. intros k Hk Heq. rewrite col_index in Heq.
    apply cell_idx_inj in Heq as [-> ->]; lia.
Qed.

(** X4. [MP_getCol(A, col, u)] on a matrix with at least one row: when
    [col] is a column of [A], the call stays inside both buffers and
    overwrites all of [u] with the entries of that column, top to bottom,
    followed by zeros if [u] is longer than a column; when [col] is not a
    column of [A] the assertion fails. *)
Theorem MP_getCol_contract (A : Matrix F) (col : Z) (u : list F) :
  wf_matrix A -> 0 < m_rows A ->
  ((0 <= col < Z.of_nat (m_cols A))%Z ->
     MP_getCol A col u
     = Ok (padded (length u) (m_rows A) (fun k => mat_get A k (Z.to_nat col)))) /\
  (~ (0 <= col < Z.of_nat (m_cols A))%Z -> MP_getCol A col u = AssertFails).
Proof.
  intros Hwf Hl. split.
  - intros Hcol. by apply MP_getCol_spec.
  - intros Hcol. unfold MP_getCol. cbv zeta. by rewrite index_assert_fails.
Qed.

(** X5. [MP_setCol(u, A, col)] on a matrix with at least one row: when
    [col] is a column of [A], the call stays inside both buffers, keeps
    the shape of [A], copies the leading entries of [u] down that column,
    as many as fit, and changes no other entry; when [col] is not a
    column of [A] the assertion fails. *)
Theorem MP_setCol_contract (u : list F) (A : Matrix F) (col : Z) :
  wf_matrix A -> 0 < m_rows A ->
  ((0 <= col < Z.of_nat (m_cols A))%Z ->
     exists A', MP_setCol u A col = Ok A' /\
       m_rows A' = m_rows A /\ m_cols A' = m_cols A /\ wf_matrix A' /\
       forall i j, i < m_rows A -> j < m_cols A ->
         mat_get A' i j = if decide (j = Z.to_nat col /\ i < length u)
                          then u !!! i else mat_get A i j) /\
  (~ (0 <= col < Z.of_nat (m_cols A))%Z -> MP_setCol u A col = AssertFails).
Proof.
  intros Hwf Hl. split.
  - intros Hcol. by apply MP_setCol_spec.
  - intros Hcol. unfold MP_setCol. cbv zeta. by rewrite index_assert_fails.
Qed.

(** X6. Columns round-trip.  Reading a column into any vector and writing
    that vector back leaves the matrix as it was; writing a vector that
    is no longer than a column and reading the column back into a vector
    of the same size returns the vector that was written. *)
Theorem MP_col_round_trip (A : Matrix F) (col : Z) (u v : list F) :
  wf_matrix A -> 0 < m_rows A -> (0 <= col < Z.of_nat (m_cols A))%Z ->
  (exists u', MP_getCol A col u = Ok u' /\ MP_setCol u' A col = Ok A) /\
  (length u <= m_rows A -> length v = length u ->
   exists A', MP_setCol u A col = Ok A' /\ MP_getCol A' col v = Ok u).
Proof.
  intros Hwf Hl Hcol. split.
  - eexists. split; [by apply MP_getCol_spec|].
    destruct (MP_setCol_spec
                (padded (length u) (m_rows A) (fun k => mat_get A k (Z.to_nat col)))
                A col Hwf Hcol Hl) as (A' & -> & Hr & Hc & Hwf' & Hget).
    f_equal. apply matrix_ext; [done..|]. rewrite Hr, Hc. intros i j Hi Hj.
    rewrite Hget by done. rewrite padded_length.
    destruct (decide (j = Z.to_nat col /\ i < length u)) as [[-> Hiu]|Hne]; [|done].
    rewrite padded_lookup by done. by rewrite decide_True.
  - intros Hu Hv.
    destruct (MP_setCol_spec u A col Hwf Hcol Hl) as (A' & HA' & Hr & Hc & Hwf' & Hget).
    exists A'. split; [done|].
    rewrite MP_getCol_spec by (rewrite ?Hr, ?Hc; done). f_equal.
    apply lookup_total_ext.
    + rewrite padded_length. done.
    + rewrite padded_length. intros k Hk. rewrite padded_lookup by done.
      rewrite Hr. rewrite decide_True by lia.
      rewrite Hget by lia. rewrite decide_True by lia. done.
Qed.
End CopyLoops.

(** A 2 x 3 matrix of binary64 numbers. *)
Definition example_2x3 : Matrix float := mkMatrix 2 3 [1; 2; 3; 4; 5; 6]%float.

Lemma MP_getRow_contract_witness :
  MP_getRow example_2x3 1 [9; 9; 9; 9]%float = Ok [4; 5; 6; 0]%float /\
  MP_getRow example_2x3 2 [9; 9; 9; 9]%float = AssertFails.
Proof.
  split.
  - exact (proj1 (MP_getRow_contract example_2x3 1 [9; 9; 9; 9]%float eq_refl ltac:(simpl; lia))
             ltac:(simpl; lia)).
  - exact (proj2 (MP_getRow_contract example_2x3 2 [9; 9; 9; 9]%float eq_refl ltac:(simpl; lia))
             ltac:(simpl; lia)).
Defined.

Lemma MP_setRow_contract_witness :
  (exists A', MP_setRow [7; 8]%float example_2x3 1 = Ok A' /\
     m_rows A' = 2 /\ m_cols A' = 3 /\ wf_matrix A' /\
     forall i j, i < 2 -> j < 3 ->
       mat_get A' i j = if decide (i = 1 /\ j < 2)
                        then [7; 8]%float !!! j else mat_get example_2x3 i j) /\
  MP_setRow [7; 8]%float example_2x3 (-1) = AssertFails.
Proof.
  split.
  - exact (proj1 (MP_setRow_contract [7; 8]%float example_2x3 1 eq_refl ltac:(simpl; lia))
             ltac:(simpl; lia)).
  - exact (proj2 (MP_setRow_contract [7; 8]%float example_2x3 (-1) eq_refl ltac:(simpl; lia))
             ltac:(simpl; lia)).
Defined.

Lemma MP_row_round_trip_witness :
  (exists u', MP_getRow example_2x3 1 [7; 8]%float = Ok u' /\
     MP_setRow u' example_2x3 1 = Ok example_2x3) /\
  (exists A', MP_setRow [7; 8]%float example_2x3 1 = Ok A' /\
     MP_getRow A' 1 [0; 0]%float = Ok [7; 8]%float).
Proof.
  destruct (MP_row_round_trip example_2x3 1 [7; 8]%float [0; 0]%float eq_refl
              ltac:(simpl; lia) ltac:(simpl; lia)) as (H1 & H2).
  split; [exact H1|]. apply H2; simpl; lia.
Defined.

Lemma MP_getCol_contract_witness :
  MP_getCol example_2x3 2 [9; 9; 9]%float = Ok [3; 6; 0]%float /\
  MP_getCol example_2x3 3 [9; 9; 9]%float = AssertFails.
Proof.
  split.
  - exact (proj1 (MP_getCol_contract example_2x3 2 [9; 9; 9]%float eq_refl ltac:(simpl; lia))
             ltac:(simpl; lia)).
  - exact (proj2 (MP_getCol_contract example_2x3 3 [9; 9; 9]%float eq_refl ltac:(simpl; lia))
             ltac:(simpl; lia)).
Defined.

Lemma MP_setCol_contract_witness :
  (exists A', MP_setCol [7]%float example_2x3 2 = Ok A' /\
     m_rows A' = 2 /\ m_cols A' = 3 /\ wf_matrix A' /\
     forall i j, i < 2 -> j < 3 ->
       mat_get A' i j = if decide (j = 2 /\ i < 1)
                        then [7]%float !!! i else mat_get example_2x3 i j) /\
  MP_setCol [7]%float example_2x3 (-1) = AssertFails.
Proof.
  split.
  - exact (proj1 (MP_setCol_contract [7]%float example_2x3 2 eq_refl ltac:(simpl; lia))
             ltac:(simpl; lia)).
  - exact (proj2 (MP_setCol_contract [7]%float example_2x3 (-1) eq_refl ltac:(simpl; lia))
             ltac:(simpl; lia)).
Defined.

Lemma MP_col_round_trip_witness :
  (exists u', MP_getCol example_2x3 0 [7; 8]%float = Ok u' /\
     MP_setCol u' example_2x3 0 = Ok example_2x3) /\
  (exists A', MP_setCol [7; 8]%float example_2x3 0 = Ok A' /\
     MP_getCol A' 0 [0; 0]%float = Ok [7; 8]%float).
Proof.
  destruct (MP_col_round_trip example_2x3 0 [7; 8]%float [0; 0]%float eq_refl
              ltac:(simpl; lia) ltac:(simpl; lia)) as (H1 & H2).
  split; [exact H1|]. apply H2; simpl; lia.
Defined.


(** ** Diagonals of a matrix: where [MP_getDiag] and [MP_setDiag] are right *)

Section Diagonals.
Context {F : Type} `{Scalar F}.

(** The number of cells on the diagonal of offset [d]. *)
Definition diag_len (A : Matrix F) (d : Z) : nat :=
  if (0 <=? d)%Z then Nat.min (m_rows A) (m_cols A - Z.to_nat d)
  else Nat.min (m_rows A - Z.to_nat (- d)) (m_cols A).

(** Its [k]-th cell: [(k, d + k)] above the main diagonal, [(|d| + k, k)]
    below it. *)
Definition diag_entry (A : Matrix F) (d : Z) (k : nat) : F :=
  if (0 <=? d)%Z then mat_get A k (Z.to_nat d + k)
  else mat_get A (Z.to_nat (- d) + k) k.

(** The copy of [min (rows + d, n)] cells along a diagonal below the main
    one ends before the last column. *)
Definition diag_fits (A : Matrix F) (d : Z) (n : nat) : Prop :=
  (0 <= d)%Z \/ Nat.min (m_rows A - Z.to_nat (- d)) n <= m_cols A.

(** The loop of [MP_getDiag] is a copy loop with stride [m + 1] that runs
    [min (fuel, max - i)] times. *)
Lemma getDiag_copy_copy_out (fuel : nat) (Ad : list F) (m i p : nat) (max : Z)
    (u : list F) :
  getDiag_copy fuel Ad (Z.of_nat m) max (Z.of_nat i) (Z.of_nat p) u =
  match copy_out (Nat.min fuel (Z.to_nat (max - Z.of_nat i))) Ad (m + 1) i p u with
  | Ok u' => Ok (Z.of_nat (i + Nat.min fuel (Z.to_nat (max - Z.of_nat i))), u')
  | AssertFails => AssertFails
  | OutOfBounds => OutOfBounds
  end.
Proof.
  revert i p u. induction fuel as [|fuel IH]; intros i p u.
  - simpl. by rewrite Nat.add_0_r.
  - cbn [getDiag_copy]. destruct (Z.leb_spec max (Z.of_nat i)) as [Hle|Hlt].
    + replace (Z.to_nat (max - Z.of_nat i)) with 0 by lia.
      rewrite Nat.min_0_r. simpl. by rewrite Nat.add_0_r.
    + replace (Nat.min (S fuel) (Z.to_nat (max - Z.of_nat i)))
        with (S (Nat.min fuel (Z.to_nat (max - Z.of_nat (S i))))) by lia.
      cbn [copy_out]. unfold deref, store.
      rewrite (proj2 (Z.ltb_ge _ _)) by lia. rewrite Nat2Z.id.
      destruct (Ad !! p) as [v|]; [|done].
      rewrite (proj2 (Z.ltb_ge _ _)) by lia. rewrite Nat2Z.id.
      destruct (decide (i < length u)); [|done].
      replace (Z.of_nat i + 1)%Z with (Z.of_nat (S i)) by lia.
      replace (Z.of_nat p + (Z.of_nat m + 1))%Z with (Z.of_nat (p + (m + 1))) by lia.
      rewrite IH. destruct (copy_out _ _ _ _ _ _); try done.
      do 2 f_equal. lia.
Qed.

Lemma setDiag_copy_copy_in (fuel : nat) (u : list F) (m i p : nat) (max : Z)
    (Ad : list F) :
  setDiag_copy fuel u (Z.of_nat m) max (Z.of_nat i) (Z.of_nat p) Ad =
  copy_in (Nat.min fuel (Z.to_nat (max - Z.of_nat i))) u (m + 1) i p Ad.
Proof.
  revert i p Ad. induction fuel as [|fuel IH]; intros i p Ad.
  - done.
  - cbn [setDiag_copy]. destruct (Z.leb_spec max (Z.of_nat i)) as [Hle|Hlt].
    + replace (Z.to_nat (max - Z.of_nat i)) with 0 by lia.
      by rewrite Nat.min_0_r.
    + replace (Nat.min (S fuel) (Z.to_nat (max - Z.of_nat i)))
        with (S (Nat.min fuel (Z.to_nat (max - Z.of_nat (S i))))) by lia.
      cbn [copy_in]. unfold deref, store.
      rewrite (proj2 (Z.ltb_ge _ _)) by lia. rewrite Nat2Z.id.
      destruct (u !! i) as [v|]; [|done].
      rewrite (proj2 (Z.ltb_ge _ _)) by lia. rewrite Nat2Z.id.
      destruct (decide (p < length Ad)); [|done].
      replace (Z.of_nat i + 1)%Z with (Z.of_nat (S i)) by lia.
      replace (Z.of_nat p + (Z.of_nat m + 1))%Z with (Z.of_nat (p + (m + 1))) by lia.
      by rewrite IH.
Qed.

(** What both functions compute first, in terms of natural numbers: the
    offset of the first cell and the number of cells the loop copies. *)
Definition diag_first (A : Matrix F) (d : Z) : nat :=
  if (0 <=? d)%Z then Z.to_nat d else Z.to_nat (- d) * m_cols A.

Definition diag_count (A : Matrix F) (d : Z) (n : nat) : nat :=
  if (0 <=? d)%Z then Nat.min (m_rows A) (Nat.min (m_cols A - Z.to_nat d) n)
  else Nat.min (m_rows A - Z.to_nat (- d)) n.

Lemma diag_start_valid (A : Matrix F) (d : Z) (n : nat) :
  (- Z.of_nat (m_rows A) < d < Z.of_nat (m_rows A))%Z ->
  exists max,
    diag_start (Z.of_nat (m_rows A)) (Z.of_nat (m_cols A)) (Z.of_nat n) d
    = Ok (Z.of_nat (diag_first A d), max) /\
    Nat.min (m_rows A) (Z.to_nat (max - Z.of_nat 0)) = diag_count A d n.
Proof.
  intros Hd. unfold diag_start, diag_first, diag_count, MP_min, MP_abs_int.
  destruct (Z.leb_spec 0 d) as [Hpos|Hneg].
  - rewrite (proj2 (Z.ltb_lt _ _)) by lia. eexists. split.
    + do 2 f_equal. lia.
    + destruct (Z.ltb_spec (Z.of_nat (m_cols A) - d) (Z.of_nat n)); lia.
  - rewrite (proj2 (Z.ltb_lt _ _)) by lia. eexists. split.
    + do 2 f_equal. lia.
    + destruct (Z.ltb_spec (Z.of_nat (m_rows A) + d) (Z.of_nat n)); lia.
Qed.


(** The cells the loop visits are the cells of the diagonal, inside the
    buffer. *)
Lemma diag_cells (A : Matrix F) (d : Z) (n k : nat) :
  wf_matrix A -> 0 < m_cols A ->
  (- Z.of_nat (m_rows A) < d < Z.of_nat (m_rows A))%Z ->
  diag_fits A d n -> k < diag_count A d n ->
  diag_first A d + k * (m_cols A + 1) < length (m_matrix A) /\
  m_matrix A !!! (diag_first A d + k * (m_cols A + 1)) = diag_entry A d k /\
  k < diag_len A d /\
  exists i j, i < m_rows A /\ j < m_cols A /\
    diag_first A d + k * (m_cols A + 1) = i * m_cols A + j /\
    Z.of_nat j = (Z.of_nat i + d)%Z /\ Nat.min i j = k.
Proof.
  intros Hwf Hm Hd Hfit Hk. unfold wf_matrix in Hwf.
  unfold diag_first, diag_count, diag_entry, diag_len, diag_fits, mat_get in *.
  destruct (Z.leb_spec 0 d) as [Hpos|Hneg].
  - assert (Hidx : Z.to_nat d + k * (m_cols A + 1) = k * m_cols A + (Z.to_nat d + k)) by lia.
    rewrite Hidx. split; [|split; [done|split; [lia|]]].
    + rewrite Hwf. apply cell_idx_lt; lia.
    + exists k, (Z.to_nat d + k). repeat split; lia.
  - destruct Hfit as [?|Hfit]; [lia|].
    assert (Hidx : Z.to_nat (- d) * m_cols A + k * (m_cols A + 1)
                   = (Z.to_nat (- d) + k) * m_cols A + k) by lia.
    rewrite Hidx. split; [|split; [done|split; [lia|]]].
    + rewrite Hwf. apply cell_idx_lt; lia.
    + exists (Z.to_nat (- d) + k), k. repeat split; lia.
Qed.

Lemma diag_first_valid (A : Matrix F) (d : Z) :
  wf_matrix A -> 0 < m_cols A ->
  (- Z.of_nat (m_rows A) < d < Z.of_nat (m_rows A))%Z ->
  diag_first A d < length (m_matrix A).
Proof.
  intros Hwf Hm Hd. unfold wf_matrix in Hwf. rewrite Hwf. unfold diag_first.
  destruct (Z.leb_spec 0 d) as [Hpos|Hneg].
  - assert (1 * m_cols A <= m_rows A * m_cols A) by (apply Nat.mul_le_mono_r; lia).
    assert (Z.to_nat d * 1 <= Z.to_nat d * m_cols A) by (apply Nat.mul_le_mono_l; lia).
    assert ((Z.to_nat d + 1) * m_cols A <= m_rows A * m_cols A)
      by (apply Nat.mul_le_mono_r; lia).
    lia.
  - assert ((Z.to_nat (- d) + 1) * m_cols A <= m_rows A * m_cols A)
      by (apply Nat.mul_le_mono_r; lia).
    lia.
Qed.

Lemma MP_getDiag_spec (A : Matrix F) (d : Z) (u : list F) :
  wf_matrix A -> 0 < m_cols A ->
  (- Z.of_nat (m_rows A) < d < Z.of_nat (m_rows A))%Z ->
  diag_fits A d (length u) ->
  MP_getDiag A d u = Ok (padded (length u) (diag_len A d) (diag_entry A d)).
Proof.
  intros Hwf Hm Hd Hfit. unfold MP_getDiag. cbv zeta.
  destruct (diag_start_valid A d (length u) Hd) as (max & -> & Hcnt).
  unfold deref. rewrite (proj2 (Z.ltb_ge _ _)) by lia. rewrite Nat2Z.id.
  destruct (lookup_lt_is_Some_2 (m_matrix A) (diag_first A d)) as [v ->].
  { by apply diag_first_valid. }
  rewrite (getDiag_copy_copy_out (m_rows A) (m_matrix A) (m_cols A) 0 (diag_first A d)).
  rewrite Hcnt.
  destruct (copy_out_spec (diag_count A d (length u)) (m_matrix A) (m_cols A + 1) 0
              (diag_first A d) u) as (u' & -> & Hl & Hget).
  { unfold diag_count. destruct (0 <=? d)%Z; lia. }
  { intros k Hk. by apply (diag_cells A d (length u) k). }
  f_equal. rewrite Nat2Z.id. cbn [Nat.add].
  destruct (pad_zero_spec (diag_count A d (length u)) u') as (Hl' & Hpad).
  fold (pad_zero (diag_count A d (length u)) u').
  apply lookup_total_ext.
  - rewrite padded_length. congruence.
  - intros k Hk. rewrite Hpad, Hget, padded_lookup by lia.
    destruct (decide (k < diag_count A d (length u))) as [Hlt|Hge].
    + rewrite decide_False by lia. rewrite decide_True by lia.
      destruct (diag_cells A d (length u) k Hwf Hm Hd Hfit Hlt) as (_ & He & Hlen & _).
      rewrite decide_True by done. rewrite Nat.sub_0_r. done.
    + rewrite decide_True by lia. rewrite decide_False; [done|].
      unfold diag_count, diag_len, diag_fits in *.
      destruct (0 <=? d)%Z; [lia|]. destruct Hfit as [?|Hfit]; lia.
Qed.

Lemma MP_setDiag_spec (u : list F) (A : Matrix F) (d : Z) :
  wf_matrix A -> 0 < m_cols A ->
  (- Z.of_nat (m_rows A) < d < Z.of_nat (m_rows A))%Z ->
  diag_fits A d (length u) ->
  exists A', MP_setDiag u A d = Ok A' /\
    m_rows A' = m_rows A /\ m_cols A' = m_cols A /\ wf_matrix A' /\
    forall i j, i < m_rows A -> j < m_cols A ->
      mat_get A' i j
      = if decide (Z.of_nat j = (Z.of_nat i + d)%Z /\ Nat.min i j < length u)
        then u !!! (Nat.min i j) else mat_get A i j.
Proof.
  intros Hwf Hm Hd Hfit. unfold MP_setDiag. cbv zeta.
  destruct (diag_start_valid A d (length u) Hd) as (max & -> & Hcnt).
  unfold deref. rewrite (proj2 (Z.ltb_ge _ _)) by lia. rewrite Nat2Z.id.
  destruct (lookup_lt_is_Some_2 (m_matrix A) (diag_first A d)) as [v ->].
  { by apply diag_first_valid. }
  rewrite (setDiag_copy_copy_in (m_rows A) u (m_cols A) 0 (diag_first A d)).
  rewrite Hcnt.
  destruct (copy_in_spec (diag_count A d (length u)) u (m_cols A + 1) 0
              (diag_first A d) (m_matrix A)) as (Ad' & -> & Hl & Hget & Hframe).
  { lia. }
  { unfold diag_count. destruct (0 <=? d)%Z; lia. }
  { intros k Hk. by apply (diag_cells A d (length u) k). }
  eexists. split; [done|]. cbn [m_rows m_cols m_matrix]. unfold wf_matrix in *.
  cbn [m_rows m_cols m_matrix]. split; [done|]. split; [done|].
  split; [congruence|]. intros i j Hi Hj. unfold mat_get. cbn [m_cols m_matrix].
  destruct (decide (Z.of_nat j = (Z.of_nat i + d)%Z /\ Nat.min i j < length u))
    as [[Hon Hku]|Hoff].
  - assert (Hk : Nat.min i j < diag_count A d (length u)).
    { unfold diag_count. destruct (Z.leb_spec 0 d); lia. }
    destruct (diag_cells A d (length u) (Nat.min i j) Hwf Hm Hd Hfit Hk)
      as (_ & _ & _ & i' & j' & Hi' & Hj' & Hidx & Hon' & Hmin).
    assert (i' = i /\ j' = j) as [-> ->] by lia.
    rewrite <- Hidx. by rewrite Hget.
  - apply Hframe. intros k Hk Heq.
    destruct (diag_cells A d (length u) k Hwf Hm Hd Hfit Hk)
      as (_ & _ & _ & i' & j' & Hi' & Hj' & Hidx & Hon' & Hmin).
    rewrite Hidx in Heq. apply cell_idx_inj in Heq as [-> ->]; [|done..].
    apply Hoff. split; [done|]. unfold diag_count in Hk.
    destruct (0 <=? d)%Z; lia.
Qed.



(** X9. Where the diagonal round trip does hold.  For every offset
    [d >= 0] that passes the assertion, and for every [d < 0] that passes
    it and whose copy fits within the columns, reading the diagonal into
    any vector [u] and writing the result back leaves [A] as it was. *)
Theorem MP_diag_round_trip (A : Matrix F) (d : Z) (u : list F) :
  wf_matrix A -> 0 < m_cols A ->
  (- Z.of_nat (m_rows A) < d < Z.of_nat (m_rows A))%Z ->
  diag_fits A d (length u) ->
  exists u', MP_getDiag A d u = Ok u' /\ MP_setDiag u' A d = Ok A.
Proof.
  intros Hwf Hm Hd Hfit. eexists. split; [by apply MP_getDiag_spec|].
  destruct (MP_setDiag_spec
              (padded (length u) (diag_len A d) (diag_entry A d)) A d Hwf Hm Hd)
    as (A' & -> & Hr & Hc & Hwf' & Hget).
  { by rewrite padded_length. }
  f_equal. apply matrix_ext; [done..|]. rewrite Hr, Hc. intros i j Hi Hj.
  rewrite Hget by done. rewrite padded_length.
  destruct (decide (Z.of_nat j = (Z.of_nat i + d)%Z /\ Nat.min i j < length u))
    as [[Hon Hku]|Hoff]; [|done].
  rewrite padded_lookup by done. unfold diag_len, diag_entry.
  destruct (Z.leb_spec 0 d) as [Hpos|Hneg].
  - rewrite decide_True by lia. f_equal; lia.
  - rewrite decide_True by lia. f_equal; lia.
Qed.
End Diagonals.

(** A 3 x 2 matrix of binary64 numbers; its diagonal of offset -1 has one
    cell less than there are rows below the first. *)
Definition example_3x2 : Matrix float := mkMatrix 3 2 [1; 2; 3; 4; 5; 6]%float.



Lemma MP_diag_round_trip_witness :
  exists u', MP_getDiag example_3x2 (-1) [9; 9; 9]%float = Ok u' /\
    MP_setDiag u' example_3x2 (-1) = Ok example_3x2.
Proof.
  exact (MP_diag_round_trip example_3x2 (-1) [9; 9; 9]%float eq_refl
           ltac:(simpl; lia) ltac:(simpl; lia) ltac:(right; simpl; lia)).
Defined.

(** *** Where the copy does not fit *)

Section DiagonalMisfit.
Context {F : Type} `{Scalar F}.

(** What a copy loop that ran to its end has read. *)
Lemma copy_out_ok (count : nat) (Ad : list F) (step i p : nat) (u u' : list F) :
  copy_out count Ad step i p u = Ok u' ->
  length u' = length u /\
  (forall j, j < i -> u' !!! j = u !!! j) /\
  forall k, k < count ->
    p + k * step < length Ad /\ i + k < length u /\
    u' !!! (i + k) = Ad !!! (p + k * step).
Proof.
  revert i p u. induction count as [|c IH]; intros i p u Hrun.
  - simpl in Hrun. injection Hrun as <-. split; [done|]. split; [done|]. intros; lia.
  - simpl in Hrun. destruct (Ad !! p) as [v|] eqn:Hv; [|done].
    destruct (decide (i < length u)) as [Hi|]; [|done].
    destruct (IH _ _ _ Hrun) as (Hl & Hlow & Hget). rewrite length_insert in Hl.
    split; [done|]. split.
    { intros j Hj. rewrite Hlow by lia. by rewrite list_lookup_total_insert_ne by lia. }
    intros k Hk. destruct k as [|k].
    + rewrite ?Nat.add_0_r. simpl. rewrite ?Nat.add_0_r.
      split; [by apply (lookup_lt_Some Ad p v)|]. split; [done|].
      rewrite Hlow by lia. rewrite list_lookup_total_insert_eq by done.
      symmetry. by apply list_lookup_total_correct.
    + destruct (Hget k ltac:(lia)) as (H1 & H2 & H3). rewrite length_insert in H2.
      replace (p + S k * step) with (p + step + k * step) by (simpl; lia).
      replace (i + S k) with (S i + k) by lia. done.
Qed.

Lemma copy_out_no_assert (count : nat) (Ad : list F) (step i p : nat) (u : list F) :
  copy_out count Ad step i p u <> AssertFails.
Proof.
  revert i p u. induction count as [|c IH]; intros i p u; simpl; [done|].
  destruct (Ad !! p); [|done]. destruct (decide (i < length u)); [|done]. apply IH.
Qed.

(** What a copy loop that ran to its end has written. *)
Lemma copy_in_ok (count : nat) (u : list F) (step i p : nat) (Ad Ad' : list F) :
  0 < step ->
  copy_in count u step i p Ad = Ok Ad' ->
  length Ad' = length Ad /\
  (forall q, q < p -> Ad' !!! q = Ad !!! q) /\
  forall k, k < count ->
    p + k * step < length Ad /\ Ad' !!! (p + k * step) = u !!! (i + k).
Proof.
  intros Hstep. revert i p Ad. induction count as [|c IH]; intros i p Ad Hrun.
  - simpl in Hrun. injection Hrun as <-. split; [done|]. split; [done|]. intros; lia.
  - simpl in Hrun. destruct (u !! i) as [v|] eqn:Hv; [|done].
    destruct (decide (p < length Ad)) as [Hp|]; [|done].
    destruct (IH _ _ _ Hrun) as (Hl & Hlow & Hget). rewrite length_insert in Hl.
    split; [done|]. split.
    { intros q Hq. rewrite Hlow by lia. by rewrite list_lookup_total_insert_ne by lia. }
    intros k Hk. destruct k as [|k].
    + rewrite ?Nat.add_0_r. simpl. rewrite ?Nat.add_0_r. split; [done|].
      rewrite Hlow by lia. rewrite list_lookup_total_insert_eq by done.
      symmetry. by apply list_lookup_total_correct.
    + destruct (Hget k ltac:(lia)) as (H1 & H2). rewrite length_insert in H1.
      replace (p + S k * step) with (p + step + k * step) by (simpl; lia).
      replace (i + S k) with (S i + k) by lia. done.
Qed.

Lemma copy_in_no_assert (count : nat) (u : list F) (step i p : nat) (Ad : list F) :
  copy_in count u step i p Ad <> AssertFails.
Proof.
  revert i p Ad. induction count as [|c IH]; intros i p Ad; simpl; [done|].
  destruct (u !! i); [|done]. destruct (decide (p < length Ad)); [|done]. apply IH.
Qed.

(** X27. Where [MP_getDiag] and [MP_setDiag] go wrong.  Let [d < 0] pass
    the assertion and let the copy not fit: with M columns, the count
    [min (rows + d, n)] exceeds M, the length of that diagonal.  Then
    iteration M of the loop is executed, at the cell after the last cell
    of the diagonal.  [MP_getDiag] either leaves the buffer of [A], or
    returns a vector whose entry M, where padding is due, is the
    off-diagonal cell [(|d| + M + 1, 0)]; [MP_setDiag] either leaves the
    buffer or overwrites that cell with [u !!! M]. *)
Theorem MP_diag_misfit (A : Matrix F) (d : Z) (u : list F) :
  wf_matrix A -> 0 < m_cols A ->
  (- Z.of_nat (m_rows A) < d < 0)%Z ->
  m_cols A < Nat.min (m_rows A - Z.to_nat (- d)) (length u) ->
  let r := Z.to_nat (- d) + m_cols A + 1 in
  (MP_getDiag A d u = OutOfBounds \/
   exists u', MP_getDiag A d u = Ok u' /\ r < m_rows A /\
     u' !!! m_cols A = mat_get A r 0) /\
  (MP_setDiag u A d = OutOfBounds \/
   exists A', MP_setDiag u A d = Ok A' /\ r < m_rows A /\
     mat_get A' r 0 = u !!! m_cols A).
Proof.
  intros Hwf Hm Hd Hmis r.
  destruct (diag_start_valid A d (length u) ltac:(lia)) as (max & Hstart & Hcnt).
  assert (Hfirst : diag_first A d = Z.to_nat (- d) * m_cols A).
  { unfold diag_first. by rewrite (proj2 (Z.leb_gt _ _)) by lia. }
  assert (Hcount : diag_count A d (length u)
                   = Nat.min (m_rows A - Z.to_nat (- d)) (length u)).
  { unfold diag_count. by rewrite (proj2 (Z.leb_gt _ _)) by lia. }
  assert (Hidx : diag_first A d + m_cols A * (m_cols A + 1) = r * m_cols A + 0).
  { rewrite Hfirst. unfold r. lia. }
  assert (Hrow : forall idx, idx = r * m_cols A + 0 -> idx < length (m_matrix A) ->
                   r < m_rows A).
  { intros idx -> Hlt. unfold wf_matrix in Hwf. rewrite Hwf in Hlt.
    destruct (decide (r < m_rows A)) as [|Hge]; [done|]. exfalso.
    assert (m_rows A * m_cols A <= r * m_cols A) by (apply Nat.mul_le_mono_r; lia).
    lia. }
  split.
  - unfold MP_getDiag. cbv zeta. rewrite Hstart.
    unfold deref. rewrite (proj2 (Z.ltb_ge _ _)) by lia. rewrite Nat2Z.id.
    destruct (m_matrix A !! diag_first A d); [|by left].
    rewrite (getDiag_copy_copy_out (m_rows A) (m_matrix A) (m_cols A) 0 (diag_first A d)).
    rewrite Hcnt, Hcount.
    destruct (copy_out _ _ _ _ _ _) as [u'| |] eqn:Hrun; [|
      by destruct (copy_out_no_assert _ _ _ _ _ _ Hrun)|by left].
    right. destruct (copy_out_ok _ _ _ _ _ _ _ Hrun) as (Hl & _ & Hget).
    destruct (Hget (m_cols A) ltac:(lia)) as (Hin & _ & Hval).
    eexists. split; [done|]. split; [by apply (Hrow _ Hidx)|].
    rewrite Nat2Z.id. cbn [Nat.add].
    destruct (pad_zero_spec (Nat.min (m_rows A - Z.to_nat (- d)) (length u)) u')
      as (_ & Hpad).
    fold (pad_zero (Nat.min (m_rows A - Z.to_nat (- d)) (length u)) u').
    rewrite Hpad. rewrite decide_False by lia.
    cbn [Nat.add] in Hval. rewrite Hval, Hidx. done.
  - unfold MP_setDiag. cbv zeta. rewrite Hstart.
    unfold deref. rewrite (proj2 (Z.ltb_ge _ _)) by lia. rewrite Nat2Z.id.
    destruct (m_matrix A !! diag_first A d); [|by left].
    rewrite (setDiag_copy_copy_in (m_rows A) u (m_cols A) 0 (diag_first A d)).
    rewrite Hcnt, Hcount.
    destruct (copy_in _ _ _ _ _ _) as [Ad'| |] eqn:Hrun; [|
      by destruct (copy_in_no_assert _ _ _ _ _ _ Hrun)|by left].
    right. destruct (copy_in_ok _ _ (m_cols A + 1) _ _ _ _ ltac:(lia) Hrun) as (Hl & _ & Hget).
    destruct (Hget (m_cols A) ltac:(lia)) as (Hin & Hval).
    eexists. split; [done|]. split; [by apply (Hrow _ Hidx)|].
    unfold mat_get. cbn [m_cols m_matrix]. rewrite <- Hidx. by rewrite Hval.
Qed.
End DiagonalMisfit.

(** A 5 x 2 matrix of binary64 numbers. *)
Definition example_5x2 : Matrix float :=
  mkMatrix 5 2 [1; 2; 3; 4; 5; 6; 7; 8; 9; 10]%float.

Lemma MP_diag_misfit_witness :
  (MP_getDiag example_5x2 (-1) [0; 0; 0]%float = OutOfBounds \/
   exists u', MP_getDiag example_5x2 (-1) [0; 0; 0]%float = Ok u' /\ 4 < 5 /\
     u' !!! 2 = mat_get example_5x2 4 0) /\
  (MP_setDiag [0; 0; 0]%float example_5x2 (-1) = OutOfBounds \/
   exists A', MP_setDiag [0; 0; 0]%float example_5x2 (-1) = Ok A' /\ 4 < 5 /\
     mat_get A' 4 0 = [0; 0; 0]%float !!! 2).
Proof.
  exact (MP_diag_misfit example_5x2 (-1) [0; 0; 0]%float eq_refl
           ltac:(simpl; lia) ltac:(simpl; lia) ltac:(simpl; lia)).
Defined.


(** ** [MP_swapRows] and [MP_swapCols] *)

Section SwapRowsCols.
Context {F : Type} `{Scalar F}.

(** The template [MP_swap] on two cells of a buffer. *)
Lemma MP_swap_lookup (a b k : nat) (p : list F) :
  a < length p -> b < length p ->
  MP_swap a b p !!! k
  = if decide (k = b) then p !!! a else if decide (k = a) then p !!! b else p !!! k.
Proof.
  intros Ha Hb. unfold MP_swap.
  rewrite lookup_total_insert_cases by (by rewrite length_insert).
  destruct (decide (b = k)) as [->|Hbk].
  - by rewrite decide_True.
  - rewrite decide_False by done. rewrite lookup_total_insert_cases by done.
    destruct (decide (a = k)) as [->|Hak].
    + by rewrite decide_True.
    + by rewrite decide_False.
Qed.

Lemma MP_swap_length (a b : nat) (p : list F) :
  length (MP_swap a b p) = length p.
Proof. unfold MP_swap. by rewrite !length_insert. Qed.

(** The loop of [MP_swapRows]. *)
Lemma swap_rows_loop (h w r1 r2 : nat) (p : list F) :
  r1 < h -> r2 < h -> r1 <> r2 -> length p = h * w ->
  let p' := for_up 0 w (fun k p => MP_swap (r1 * w + k) (r2 * w + k) p) p in
  length p' = length p /\
  forall i j, i < h -> j < w ->
    p' !!! (i * w + j) = p !!! (transp r1 r2 i * w + j).
Proof.
  intros Hr1 Hr2 Hne Hl p'. subst p'.
  pose (P := fun (k : nat) (t : list F) =>
    length t = length p /\
    forall i j, i < h -> j < w ->
      t !!! (i * w + j) = if decide (j < k) then p !!! (transp r1 r2 i * w + j)
                          else p !!! (i * w + j)).
  assert (HP : P w (for_up 0 w (fun k p => MP_swap (r1 * w + k) (r2 * w + k) p) p)).
  { apply (for_up_ind P 0 w); unfold P; clear P.
    - lia.
    - split; [done|]. intros i j _ _. by rewrite decide_False by lia.
    - intros k t Hk (Hlt & Ht). rewrite MP_swap_length. split; [done|].
      intros i j Hi Hj.
      assert (Hb1 : r1 * w + k < length t) by (rewrite Hlt, Hl; apply cell_idx_lt; lia).
      assert (Hb2 : r2 * w + k < length t) by (rewrite Hlt, Hl; apply cell_idx_lt; lia).
      rewrite MP_swap_lookup by done. rewrite !Ht by lia.
      rewrite !(decide_False (P := k < k)) by lia. unfold transp.
      destruct (decide (i * w + j = r2 * w + k)) as [He|N2].
      + apply cell_idx_inj in He as [-> ->]; [|lia..].
        rewrite decide_True by lia. repeat case_decide; try done; congruence.
      + destruct (decide (i * w + j = r1 * w + k)) as [He|N1].
        * apply cell_idx_inj in He as [-> ->]; [|lia..].
          rewrite decide_True by lia. repeat case_decide; try done; congruence.
        * destruct (decide (j < k)), (decide (j < S k)); try done; try lia.
          assert (j = k) by lia. subst j.
          repeat case_decide; subst; try done; exfalso; lia. }
  destruct HP as (Hlen & Hc). split; [done|]. intros i j Hi Hj.
  rewrite Hc by done. by rewrite decide_True.
Qed.

(** The loop of [MP_swapCols]. *)
Lemma swap_cols_loop (h w c1 c2 : nat) (p : list F) :
  c1 < w -> c2 < w -> c1 <> c2 -> length p = h * w ->
  let p' := for_up 0 h (fun k p => MP_swap (k * w + c1) (k * w + c2) p) p in
  length p' = length p /\
  forall i j, i < h -> j < w ->
    p' !!! (i * w + j) = p !!! (i * w + transp c1 c2 j).
Proof.
  intros Hc1 Hc2 Hne Hl p'. subst p'.
  pose (P := fun (k : nat) (t : list F) =>
    length t = length p /\
    forall i j, i < h -> j < w ->
      t !!! (i * w + j) = if decide (i < k) then p !!! (i * w + transp c1 c2 j)
                          else p !!! (i * w + j)).
  assert (HP : P h (for_up 0 h (fun k p => MP_swap (k * w + c1) (k * w + c2) p) p)).
  { apply (for_up_ind P 0 h); unfold P; clear P.
    - lia.
    - split; [done|]. intros i j _ _. by rewrite decide_False by lia.
    - intros k t Hk (Hlt & Ht). rewrite MP_swap_length. split; [done|].
      intros i j Hi Hj.
      assert (Hb1 : k * w + c1 < length t) by (rewrite Hlt, Hl; apply cell_idx_lt; lia).
      assert (Hb2 : k * w + c2 < length t) by (rewrite Hlt, Hl; apply cell_idx_lt; lia).
      rewrite MP_swap_lookup by done. rewrite !Ht by lia.
      rewrite !(decide_False (P := k < k)) by lia. unfold transp.
      destruct (decide (i * w + j = k * w + c2)) as [He|N2].
      + apply cell_idx_inj in He as [-> ->]; [|lia..].
        rewrite decide_True by lia. repeat case_decide; try done; congruence.
      + destruct (decide (i * w + j = k * w + c1)) as [He|N1].
        * apply cell_idx_inj in He as [-> ->]; [|lia..].
          rewrite decide_True by lia. repeat case_decide; try done; congruence.
        * destruct (decide (i < k)), (decide (i < S k)); try done; try lia.
          assert (i = k) by lia. subst i.
          repeat case_decide; subst; try done; exfalso; lia. }
  destruct HP as (Hlen & Hc). split; [done|]. intros i j Hi Hj.
  rewrite Hc by done. by rewrite decide_True.
Qed.

Lemma MP_swapRows_run (A : Matrix F) (i j : Z) :
  wf_matrix A -> i <> j ->
  (0 <= i < Z.of_nat (m_rows A))%Z -> (0 <= j < Z.of_nat (m_rows A))%Z ->
  exists A', MP_swapRows A i j = Ok A' /\
    m_rows A' = m_rows A /\ m_cols A' = m_cols A /\ wf_matrix A' /\
    forall r c, r < m_rows A -> c < m_cols A ->
      mat_get A' r c = mat_get A (transp (Z.to_nat i) (Z.to_nat j) r) c.
Proof.
  intros Hwf Hij Hi Hj. unfold MP_swapRows.
  rewrite (proj2 (Z.eqb_neq _ _) Hij).
  destruct (index_assert i (m_rows A) Hi) as (-> & Hi').
  destruct (index_assert j (m_rows A) Hj) as (-> & Hj').
  destruct (swap_rows_loop (m_rows A) (m_cols A) (Z.to_nat i) (Z.to_nat j) (m_matrix A))
    as (Hl & Hc); [done|done|lia|done|]. cbv zeta in *.
  eexists. split; [done|]. unfold wf_matrix in *. cbn [m_rows m_cols m_matrix].
  split; [done|]. split; [done|]. split; [congruence|].
  intros r c Hr Hc'. unfold mat_get. cbn [m_cols m_matrix]. by apply Hc.
Qed.

Lemma MP_swapCols_run (A : Matrix F) (i j : Z) :
  wf_matrix A -> i <> j ->
  (0 <= i < Z.of_nat (m_cols A))%Z -> (0 <= j < Z.of_nat (m_cols A))%Z ->
  exists A', MP_swapCols A i j = Ok A' /\
    m_rows A' = m_rows A /\ m_cols A' = m_cols A /\ wf_matrix A' /\
    forall r c, r < m_rows A -> c < m_cols A ->
      mat_get A' r c = mat_get A r (transp (Z.to_nat i) (Z.to_nat j) c).
Proof.
  intros Hwf Hij Hi Hj. unfold MP_swapCols.
  rewrite (proj2 (Z.eqb_neq _ _) Hij).
  destruct (index_assert i (m_cols A) Hi) as (-> & Hi').
  destruct (index_assert j (m_cols A) Hj) as (-> & Hj').
  destruct (swap_cols_loop (m_rows A) (m_cols A) (Z.to_nat i) (Z.to_nat j) (m_matrix A))
    as (Hl & Hc); [done|done|lia|done|]. cbv zeta in *.
  eexists. split; [done|]. unfold wf_matrix in *. cbn [m_rows m_cols m_matrix].
  split; [done|]. split; [done|]. split; [congruence|].
  intros r c Hr Hc'. unfold mat_get. cbn [m_cols m_matrix]. by apply Hc.
Qed.

(** X10. [MP_swapRows(A, i, j)].  With [i = j] the call changes nothing
    and checks nothing, whatever the index.  With two distinct rows of
    [A] it keeps the shape of [A], exchanges the two rows entry by entry,
    leaves every other row alone, and a second call with the same
    indices restores [A].  With distinct indices one of which is not a
    row of [A], an assertion fails. *)
Theorem MP_swapRows_contract (A : Matrix F) (i j : Z) :
  wf_matrix A ->
  (i = j -> MP_swapRows A i j = Ok A) /\
  (i <> j ->
   (0 <= i < Z.of_nat (m_rows A))%Z -> (0 <= j < Z.of_nat (m_rows A))%Z ->
   exists A', MP_swapRows A i j = Ok A' /\
     m_rows A' = m_rows A /\ m_cols A' = m_cols A /\ wf_matrix A' /\
     (forall r c, r < m_rows A -> c < m_cols A ->
        mat_get A' r c = mat_get A (transp (Z.to_nat i) (Z.to_nat j) r) c) /\
     MP_swapRows A' i j = Ok A) /\
  (i <> j ->
   ~ ((0 <= i < Z.of_nat (m_rows A))%Z /\ (0 <= j < Z.of_nat (m_rows A))%Z) ->
   MP_swapRows A i j = AssertFails).
Proof.
  intros Hwf. split; [|split].
  - intros ->. unfold MP_swapRows. by rewrite Z.eqb_refl.
  - intros Hij Hi Hj.
    destruct (MP_swapRows_run A i j Hwf Hij Hi Hj) as (A' & HA' & Hr & Hc & Hwf' & Hget).
    exists A'. repeat split; try done.
    destruct (MP_swapRows_run A' i j Hwf' Hij) as (A'' & -> & Hr' & Hc' & Hwf'' & Hget');
      [by rewrite Hr..|].
    f_equal. apply matrix_ext; [done|done|congruence|congruence|].
    rewrite Hr', Hc', Hr, Hc. intros r c Hrr Hcc.
    rewrite Hget' by lia. rewrite Hget.
    + by rewrite transp_invol.
    + apply transp_lt; lia.
    + done.
  - intros Hij Hrange. unfold MP_swapRows. rewrite (proj2 (Z.eqb_neq _ _) Hij).
    destruct (decide (0 <= i < Z.of_nat (m_rows A))%Z) as [Hi|Hi].
    + destruct (index_assert i (m_rows A) Hi) as (-> & _).
      rewrite index_assert_fails; [done|]. tauto.
    + by rewrite index_assert_fails.
Qed.

(** X11. [MP_swapCols(A, i, j)].  With [i = j] the call changes nothing
    and checks nothing.  With two distinct columns of [A] it keeps the
    shape of [A], exchanges the two columns entry by entry, leaves every
    other column alone, and a second call with the same indices restores
    [A].  With distinct indices one of which is not a column of [A], an
    assertion fails. *)
Theorem MP_swapCols_contract (A : Matrix F) (i j : Z) :
  wf_matrix A ->
  (i = j -> MP_swapCols A i j = Ok A) /\
  (i <> j ->
   (0 <= i < Z.of_nat (m_cols A))%Z -> (0 <= j < Z.of_nat (m_cols A))%Z ->
   exists A', MP_swapCols A i j = Ok A' /\
     m_rows A' = m_rows A /\ m_cols A' = m_cols A /\ wf_matrix A' /\
     (forall r c, r < m_rows A -> c < m_cols A ->
        mat_get A' r c = mat_get A r (transp (Z.to_nat i) (Z.to_nat j) c)) /\
     MP_swapCols A' i j = Ok A) /\
  (i <> j ->
   ~ ((0 <= i < Z.of_nat (m_cols A))%Z /\ (0 <= j < Z.of_nat (m_cols A))%Z) ->
   MP_swapCols A i j = AssertFails).
Proof.
  intros Hwf. split; [|split].
  - intros ->. unfold MP_swapCols. by rewrite Z.eqb_refl.
  - intros Hij Hi Hj.
    destruct (MP_swapCols_run A i j Hwf Hij Hi Hj) as (A' & HA' & Hr & Hc & Hwf' & Hget).
    exists A'. repeat split; try done.
    destruct (MP_swapCols_run A' i j Hwf' Hij) as (A'' & -> & Hr' & Hc' & Hwf'' & Hget');
      [by rewrite Hc..|].
    f_equal. apply matrix_ext; [done|done|congruence|congruence|].
    rewrite Hr', Hc', Hr, Hc. intros r c Hrr Hcc.
    rewrite Hget' by lia. rewrite Hget.
    + by rewrite transp_invol.
    + done.
    + apply transp_lt; lia.
  - intros Hij Hrange. unfold MP_swapCols. rewrite (proj2 (Z.eqb_neq _ _) Hij).
    destruct (decide (0 <= i < Z.of_nat (m_cols A))%Z) as [Hi|Hi].
    + destruct (index_assert i (m_cols A) Hi) as (-> & _).
      rewrite index_assert_fails; [done|]. tauto.
    + by rewrite index_assert_fails.
Qed.
End SwapRowsCols.

Lemma MP_swapRows_contract_witness :
  MP_swapRows example_2x3 5 5 = Ok example_2x3 /\
  (exists A', MP_swapRows example_2x3 0 1 = Ok A' /\
     m_rows A' = 2 /\ m_cols A' = 3 /\ wf_matrix A' /\
     (forall r c, r < 2 -> c < 3 ->
        mat_get A' r c = mat_get example_2x3 (transp 0 1 r) c) /\
     MP_swapRows A' 0 1 = Ok example_2x3) /\
  MP_swapRows example_2x3 0 2 = AssertFails.
Proof.
  split; [|split].
  - exact (proj1 (MP_swapRows_contract example_2x3 5 5 eq_refl) eq_refl).
  - exact (proj1 (proj2 (MP_swapRows_contract example_2x3 0 1 eq_refl))
             ltac:(lia) ltac:(simpl; lia) ltac:(simpl; lia)).
  - exact (proj2 (proj2 (MP_swapRows_contract example_2x3 0 2 eq_refl))
             ltac:(lia) ltac:(simpl; lia)).
Defined.

Lemma MP_swapCols_contract_witness :
  MP_swapCols example_2x3 (-4) (-4) = Ok example_2x3 /\
  (exists A', MP_swapCols example_2x3 0 2 = Ok A' /\
     m_rows A' = 2 /\ m_cols A' = 3 /\ wf_matrix A' /\
     (forall r c, r < 2 -> c < 3 ->
        mat_get A' r c = mat_get example_2x3 r (transp 0 2 c)) /\
     MP_swapCols A' 0 2 = Ok example_2x3) /\
  MP_swapCols example_2x3 0 3 = AssertFails.
Proof.
  split; [|split].
  - exact (proj1 (MP_swapCols_contract example_2x3 (-4) (-4) eq_refl) eq_refl).
  - exact (proj1 (proj2 (MP_swapCols_contract example_2x3 0 2 eq_refl))
             ltac:(lia) ltac:(simpl; lia) ltac:(simpl; lia)).
  - exact (proj2 (proj2 (MP_swapCols_contract example_2x3 0 3 eq_refl))
             ltac:(lia) ltac:(simpl; lia)).
Defined.


(** ** What the eliminators decide about their input *)

Section OneSidedInverses.
Local Open Scope R_scope.

(** A matrix with a left inverse has a trivial kernel. *)
Lemma left_inverse_no_null_vector (n : nat) (A Ainv : list R) (x : nat -> R) :
  (forall i j, (i < n)%nat -> (j < n)%nat -> prod_entry n n n Ainv A i j = delta i j) ->
  ~ null_vector n A x.
Proof.
  intros Hl ((c & Hc & Hx) & Hnull). apply Hx.
  rewrite (left_inverse_recovers n A Ainv x c Hl Hc).
  apply rsum_zero. intros l Hl'. rewrite Hnull by done. lra.
Qed.

(** Products of three square buffers associate. *)
Lemma prod_entry_assoc (n : nat) (A B C : nat -> nat -> R) (i j : nat) :
  rsum n (fun k => rsum n (fun l => A i l * B l k) * C k j)
  = rsum n (fun l => A i l * rsum n (fun k => B l k * C k j)).
Proof.
  rewrite (rsum_ext n _ (fun k => rsum n (fun l => A i l * B l k * C k j))).
  2: { intros k _. by rewrite rsum_scal_r. }
  rewrite rsum_exchange. apply rsum_ext. intros l _.
  rewrite <- rsum_scal_l. apply rsum_ext. intros k _. lra.
Qed.

(** For square matrices a right inverse is a left inverse.  The
    elimination itself supplies the argument: run on the right inverse
    [A'], it cannot report a singular matrix, because [A] is a left inverse
    of [A'], so it returns a right inverse of [A'], which is then [A]. *)
Lemma right_inverse_is_left (n : nat) (A A' : list R) :
  length A = (n * n)%nat -> length A' = (n * n)%nat ->
  (forall i j, (i < n)%nat -> (j < n)%nat -> prod_entry n n n A A' i j = delta i j) ->
  forall i j, (i < n)%nat -> (j < n)%nat -> prod_entry n n n A' A i j = delta i j.
Proof.
  intros HA HA' Hr.
  destruct (gj_kernel_cases n 0 A' [] HA' ltac:(simpl; lia))
    as [(_ & L & _ & Hinv & _)|(_ & x & Hx)].
  2: { by destruct (left_inverse_no_null_vector n A' A x Hr). }
  cbv zeta in *. set (A'' := (gj_kernel n 0 A' []).1.2) in *.
  assert (Heq : forall i j, (i < n)%nat -> (j < n)%nat -> cell n A'' i j = cell n A i j).
  { intros i j Hi Hj.
    rewrite <- (rsum_delta_l n i (fun k => cell n A'' k j) Hi).
    rewrite (rsum_ext n _
      (fun k => rsum n (fun l => cell n A i l * cell n A' l k) * cell n A'' k j)).
    2: { intros k Hk. rewrite <- (Hr i k Hi Hk). done. }
    rewrite (prod_entry_assoc n (cell n A) (cell n A') (cell n A'')).
    rewrite (rsum_ext n _ (fun l => cell n A i l * delta l j)).
    - by rewrite rsum_delta_r.
    - intros l Hl. f_equal. exact (Hinv l j Hl Hj). }
  intros i j Hi Hj. rewrite <- (Hinv i j Hi Hj). unfold prod_entry.
  apply rsum_ext. intros l Hl. by rewrite Heq.
Qed.
End OneSidedInverses.

(** The shape conditions of the two assertions together with well-formed
    buffers. *)
Definition gauss_input (a : Args R) : Prop :=
  wf_matrix (arg_A a) /\ wf_matrix (arg_B a) /\
  m_rows (arg_A a) = m_cols (arg_A a) /\ m_rows (arg_A a) = m_rows (arg_B a).

Lemma gauss_input_lengths (a : Args R) :
  gauss_input a ->
  length (m_matrix (arg_A a)) = m_cols (arg_A a) * m_cols (arg_A a) /\
  length (m_matrix (arg_B a)) = m_cols (arg_A a) * m_cols (arg_B a).
Proof.
  unfold gauss_input, wf_matrix. intros (HA & HB & Hsq & Hrows).
  rewrite <- Hrows, Hsq in HB. rewrite Hsq in HA. done.
Qed.

(** X12. [MP_GaussJordan] decides invertibility.  On an N x N matrix [A]
    with N x M right-hand sides, the call runs to completion exactly when
    [A] is invertible and prints "Singular Matrix" exactly when it is
    not; when it completes, the matrix left in [A] is a two-sided inverse:
    [A' A_original = I] as well as [A_original A' = I]. *)
Theorem MP_GaussJordan_decides_invertibility (a : Args R) :
  gauss_input a ->
  let n := m_rows (arg_A a) in
  let r := MP_GaussJordan a in
  (r.1 = Completed <-> invertible n (m_matrix (arg_A a))) /\
  (r.1 = SingularReported <-> ~ invertible n (m_matrix (arg_A a))) /\
  (r.1 = Completed ->
   inverse_of n (m_matrix (arg_A a)) (m_matrix (arg_A r.2))).
Proof.
  intros Hin. pose proof (gauss_input_lengths a Hin) as (HA & HB).
  destruct Hin as (_ & _ & Hsq & Hrows). cbv zeta.
  rewrite (MP_GaussJordan_unfold a Hsq Hrows). cbv zeta.
  cbn [fst snd arg_A m_matrix]. rewrite Hsq.
  set (n := m_cols (arg_A a)) in *. set (m := m_cols (arg_B a)) in *.
  set (A0 := m_matrix (arg_A a)) in *. set (B0 := m_matrix (arg_B a)) in *.
  destruct (gj_kernel_cases n m A0 B0 HA HB)
    as [(Hst & L1 & L2 & Hinv & Hsol)|(Hst & x & Hx)]; cbv zeta in *.
  - assert (Hboth : inverse_of n A0 (gj_kernel n m A0 B0).1.2).
    { split; [|done]. by apply right_inverse_is_left. }
    assert (Hi : invertible n A0) by (by eexists).
    rewrite Hst. split; [done|]. split; [|done].
    split; [done|]. intros Hn. by destruct Hn.
  - rewrite Hst.
    assert (Hn : ~ invertible n A0).
    { intros Hi. by destruct (invertible_no_null_vector n A0 x Hi). }
    split; [|split]; [split| |]; try done.
Qed.

Lemma MP_GaussJordan_decides_invertibility_witness :
  (MP_GaussJordan (mkArgs example_A2 example_B2 (mkMatrix 0 0 []))).1 = Completed /\
  inverse_of 2 (m_matrix example_A2)
    (m_matrix (arg_A (MP_GaussJordan (mkArgs example_A2 example_B2 (mkMatrix 0 0 []))).2)).
Proof.
  set (a := mkArgs example_A2 example_B2 (mkMatrix 0 0 [])).
  assert (Hin : gauss_input a) by (by repeat split).
  destruct (MP_GaussJordan_decides_invertibility a Hin) as (Hc & _ & Hinv).
  pose proof (proj2 Hc example_A2_invertible) as Hst.
  split; [exact Hst|exact (Hinv Hst)].
Defined.

(** X13. A "Singular Matrix" report of [MP_GaussElimination] is never a
    false alarm: on an N x N matrix [A] with N x M right-hand sides, if
    the call reports, some non-zero vector is mapped to zero by [A], and
    [A] is not invertible. *)
Theorem MP_GaussElimination_report_sound (a : Args R) :
  gauss_input a ->
  (MP_GaussElimination a).1 = SingularReported ->
  (exists x, null_vector (m_rows (arg_A a)) (m_matrix (arg_A a)) x) /\
  ~ invertible (m_rows (arg_A a)) (m_matrix (arg_A a)).
Proof.
  intros Hin. pose proof (gauss_input_lengths a Hin) as (HA & HB).
  destruct Hin as (_ & _ & Hsq & Hrows).
  rewrite (MP_GaussElimination_unfold a Hsq Hrows). cbv zeta.
  cbn [fst snd]. rewrite Hsq. intros Hst.
  destruct (ge_kernel_cases (m_cols (arg_A a)) (m_cols (arg_B a))
              (m_matrix (arg_A a)) (m_matrix (arg_B a)) HA HB)
    as [(_ & x & Hx)|(Hc & _)]; cbv zeta in *; [|congruence].
  split; [by exists x|]. intros Hi.
  by destruct (invertible_no_null_vector _ _ x Hi).
Qed.

(** A singular 2 x 2 matrix with a zero first column. *)
Definition example_Z2 : Matrix R := mkMatrix 2 2 [0; 1; 0; 1]%R.

Lemma example_Z2_reported :
  (MP_GaussElimination (mkArgs example_Z2 example_B2 (mkMatrix 0 0 []))).1
  = SingularReported.
Proof.
  unfold MP_GaussElimination, ge_kernel. cbn [arg_A arg_B arg_X m_rows m_cols
    m_matrix example_Z2 example_B2 Nat.eqb andb negb Nat.sub seq for_each].
  unfold ge_body, ge_search. rewrite for_up_last by lia. rewrite for_up_done by lia.
  rewrite !MP_abs_R. rscalar.
  change ([0; 1; 0; 1]%R !!! (0 * 2 + 0)%nat) with 0%R.
  change ([0; 1; 0; 1]%R !!! (1 * 2 + 0)%nat) with 0%R.
  rewrite Rabs_R0. rewrite (proj2 (R_ltb_false 0 0)) by lra.
  change ([0; 1; 0; 1]%R !!! (0 * 2 + 0)%nat) with 0%R.
  by rewrite (proj2 (R_eqb_true 0 0)).
Qed.

Lemma MP_GaussElimination_report_sound_witness :
  (exists x, null_vector 2 (m_matrix example_Z2) x) /\
  ~ invertible 2 (m_matrix example_Z2).
Proof.
  apply (MP_GaussElimination_report_sound
           (mkArgs example_Z2 example_B2 (mkMatrix 0 0 []))).
  - by repeat split.
  - exact example_Z2_reported.
Defined.

(** *** The last pivot is not tested *)

Section UpperTriangular.
Local Open Scope R_scope.
Variables (n m : nat) (A0 B0 : list R).

(** On a matrix that is zero below the diagonal the pivot search stays
    on the diagonal. *)
Lemma ge_search_upper (col : nat) :
  (forall i j, (j < i < n)%nat -> cell n A0 i j = 0) ->
  ge_search n col A0 = col.
Proof.
  intros Hup. unfold ge_search.
  destruct (decide (col + 1 <= n)%nat) as [Hle|Hgt].
  2: { by rewrite for_up_done by lia. }
  apply (for_up_ind (fun _ pivot => pivot = col) (col + 1) n); [done|done|].
  intros row pivot Hrow ->. rewrite !MP_abs_R. rscalar.
  fold (cell n A0 row col). rewrite (Hup row col) by lia. rewrite Rabs_R0.
  rewrite (proj2 (R_ltb_false _ _)); [done|]. apply Rabs_pos.
Qed.

(** ... and the forward elimination has nothing to eliminate. *)
Lemma ge_forward_upper (col : nat) :
  (forall i j, (j < i < n)%nat -> cell n A0 i j = 0) ->
  ge_forward n m col A0 B0 = (A0, B0).
Proof.
  intros Hup. unfold ge_forward.
  destruct (decide (col + 1 <= n)%nat) as [Hle|Hgt].
  2: { by rewrite for_up_done by lia. }
  apply (for_up_ind (fun _ st => st = (A0, B0)) (col + 1) n); [done|done|].
  intros row st Hrow ->. rscalar. fold (cell n A0 row col).
  rewrite (Hup row col) by lia. by rewrite (proj2 (R_eqb_true 0 0)).
Qed.

Lemma ge_kernel_upper :
  (2 <= n)%nat ->
  (forall i j, (j < i < n)%nat -> cell n A0 i j = 0) ->
  (forall c, (c < n - 1)%nat -> cell n A0 c c <> 0) ->
  (ge_kernel n m A0 B0).1 = (Completed, A0).
Proof.
  intros Hn Hup Hdiag. unfold ge_kernel.
  rewrite (proj2 (Nat.eqb_neq n 1)) by lia.
  pose proof (for_each_seq_ind
    (fun _ st => st = (A0, B0)) (fun _ => False)
    0 (n - 1) (ge_body n m) (A0, B0) eq_refl) as Hloop.
  assert (Hstep : forall i t, (0 <= i < 0 + (n - 1))%nat -> t = (A0, B0) ->
    match ge_body n m i t with
    | Next t' => t' = (A0, B0)
    | Return _ => False
    end).
  { intros i t Hi ->. unfold ge_body. rewrite (ge_search_upper i Hup).
    rscalar. fold (cell n A0 i i).
    rewrite (proj2 (R_eqb_false _ _)) by (apply Hdiag; lia).
    rewrite Nat.eqb_refl. by rewrite (ge_forward_upper i Hup). }
  specialize (Hloop Hstep).
  destruct (for_each (seq 0 (n - 1)) (ge_body n m) (A0, B0)) as [[p1 p2]|[p1 p2]];
    [|done].
  simpl in Hloop. by injection Hloop as -> ->.
Qed.

(** An upper-triangular matrix whose only zero on the diagonal is the
    last entry has a non-trivial kernel. *)
Lemma upper_zero_last_null :
  (1 <= n)%nat ->
  (forall i j, (j < i < n)%nat -> cell n A0 i j = 0) ->
  (forall c, (c < n - 1)%nat -> cell n A0 c c <> 0) ->
  cell n A0 (n - 1) (n - 1) = 0 ->
  exists x, null_vector n A0 x.
Proof.
  intros Hn Hup Hdiag Hlast.
  destruct (upper_null n (n - 1) (cell n A0) ltac:(lia) Hdiag (n - 1)%nat ltac:(lia))
    as (x & Hx1 & Hx0 & Hrows).
  exists x. split.
  - exists (n - 1)%nat. split; [lia|]. rewrite Hx1. lra.
  - intros i Hi. destruct (decide (i < n - 1)%nat) as [Hlt|Hge].
    + etrans; [|apply (Hrows i); lia]. apply rsum_ext. intros c Hc.
      destruct (decide (i <= c)%nat); [done|]. rewrite (Hup i c) by lia. lra.
    + replace i with (n - 1)%nat by lia. apply rsum_zero. intros c Hc.
      destruct (decide (c = n - 1)%nat) as [->|Hne].
      * rewrite Hlast. lra.
      * rewrite (Hup (n - 1)%nat c) by lia. lra.
Qed.
End UpperTriangular.

(** X14. [MP_GaussElimination] does not test the last pivot.  On every
    N x N matrix [A], N >= 2, that is zero below the diagonal and whose
    first N - 1 diagonal entries are non-zero, the call runs to
    completion without a report and leaves [A] as it was, whatever the
    last diagonal entry is.  When that entry is zero, [A] is singular: a
    non-zero vector is mapped to zero, and [A] is not invertible. *)
Theorem MP_GaussElimination_last_pivot_untested (a : Args R) :
  gauss_input a ->
  let n := m_rows (arg_A a) in
  2 <= n ->
  (forall i j, j < i < n -> mat_get (arg_A a) i j = 0%R) ->
  (forall c, c < n - 1 -> mat_get (arg_A a) c c <> 0%R) ->
  (MP_GaussElimination a).1 = Completed /\
  arg_A (MP_GaussElimination a).2 = arg_A a /\
  (mat_get (arg_A a) (n - 1) (n - 1) = 0%R ->
   (exists x, null_vector n (m_matrix (arg_A a)) x) /\
   ~ invertible n (m_matrix (arg_A a))).
Proof.
  intros Hin. pose proof (gauss_input_lengths a Hin) as (HA & HB).
  destruct Hin as (_ & _ & Hsq & Hrows). cbv zeta.
  rewrite (MP_GaussElimination_unfold a Hsq Hrows). cbv zeta.
  cbn [fst snd arg_A]. unfold mat_get. rewrite Hsq.
  intros Hn Hup Hdiag.
  rewrite (ge_kernel_upper (m_cols (arg_A a)) (m_cols (arg_B a))
             (m_matrix (arg_A a)) (m_matrix (arg_B a)) Hn Hup Hdiag).
  cbn [fst snd]. split; [done|]. split.
  - destruct (arg_A a) as [r c d]. cbn [m_rows m_cols m_matrix] in *. by rewrite Hsq.
  - intros Hlast.
    destruct (upper_zero_last_null (m_cols (arg_A a)) (m_matrix (arg_A a))
                ltac:(lia) Hup Hdiag Hlast) as (x & Hx).
    split; [by exists x|]. intros Hi.
    by destruct (invertible_no_null_vector _ _ x Hi).
Qed.

(** A singular upper-triangular matrix. *)
Definition example_U2 : Matrix R := mkMatrix 2 2 [1; 1; 0; 0]%R.

Lemma MP_GaussElimination_last_pivot_untested_witness :
  (MP_GaussElimination (mkArgs example_U2 example_B2 (mkMatrix 0 0 []))).1 = Completed /\
  arg_A (MP_GaussElimination (mkArgs example_U2 example_B2 (mkMatrix 0 0 []))).2
  = example_U2 /\
  (exists x, null_vector 2 (m_matrix example_U2) x) /\
  ~ invertible 2 (m_matrix example_U2).
Proof.
  set (a := mkArgs example_U2 example_B2 (mkMatrix 0 0 [])).
  assert (Hin : gauss_input a) by (by repeat split).
  assert (Hup : forall i j, j < i < 2 -> mat_get example_U2 i j = 0%R).
  { intros i j Hij. assert (i = 1 /\ j = 0) as [-> ->] by lia. reflexivity. }
  assert (Hdiag : forall c, c < 2 - 1 -> mat_get example_U2 c c <> 0%R).
  { intros c Hc. replace c with 0 by lia. unfold mat_get. simpl. lra. }
  destruct (MP_GaussElimination_last_pivot_untested a Hin (le_n 2) Hup Hdiag)
    as (Hst & HA & Hsing).
  split; [exact Hst|]. split; [exact HA|]. apply Hsing. reflexivity.
Defined.


(** ** [MP_matrixMultiply] *)

Section Multiply.
Local Open Scope R_scope.

(** The innermost loop accumulates the dot product in the order of
    [rsum]. *)
Lemma dot_loop (c1 : nat) (f : nat -> R) :
  for_up 0 c1 (fun i sum => sum + f i) 0 = rsum c1 f.
Proof.
  apply (for_up_ind (fun k s => s = rsum k f) 0 c1); [lia|done|].
  intros i t _ ->. done.
Qed.

(** The shapes [MP_matrixMultiply] expects: [A] is L x M, [B] is M x N
    and [C] is L x N. *)
Definition multiply_shapes (A B C : Matrix R) : Prop :=
  wf_matrix A /\ wf_matrix B /\ wf_matrix C /\
  m_rows B = m_cols A /\ m_rows C = m_rows A /\ m_cols C = m_cols B.

Lemma MP_matrixMultiply_spec (A B C : Matrix R) :
  multiply_shapes A B C ->
  m_rows (MP_matrixMultiply A B C) = m_rows A /\
  m_cols (MP_matrixMultiply A B C) = m_cols B /\
  wf_matrix (MP_matrixMultiply A B C) /\
  forall r c, (r < m_rows A)%nat -> (c < m_cols B)%nat ->
    mat_get (MP_matrixMultiply A B C) r c = mat_prod A B r c.
Proof.
  intros (HwA & HwB & HwC & HB & HCr & HCc). unfold MP_matrixMultiply. cbv zeta.
  set (r1 := m_rows A) in *. set (c1 := m_cols A) in *. set (c2 := m_cols B) in *.
  set (dot := fun r c =>
    for_up 0 c1 (fun i sum =>
      sum [+] (m_matrix A !!! (r * c1 + i)%nat) [*] (m_matrix B !!! (c + i * c2)%nat))
      (sZ 0)).
  assert (Hdot : forall r c, dot r c = mat_prod A B r c).
  { intros r c. unfold dot, mat_prod, mat_get. rscalar. fold c1 c2.
    rewrite (dot_loop c1 (fun i => m_matrix A !!! (r * c1 + i)%nat
                                   * m_matrix B !!! (c + i * c2)%nat)).
    apply rsum_ext. intros i _. do 2 f_equal. lia. }
  unfold wf_matrix in HwC. rewrite HCr, HCc in HwC. fold r1 c2 in HwC.
  (* one row of the result *)
  assert (Hrow : forall r d, (r < r1)%nat -> length d = (r1 * c2)%nat ->
    let st := for_up 0 c2 (fun c '(d3, Cd) => (S d3, <[d3 := dot r c]> Cd))
                ((r * c2)%nat, d) in
    st.1 = (S r * c2)%nat /\ length st.2 = (r1 * c2)%nat /\
    forall i j, (i < r1)%nat -> (j < c2)%nat ->
      st.2 !!! (i * c2 + j)%nat
      = if decide (i = r) then dot r j else d !!! (i * c2 + j)%nat).
  { intros r d Hr Hd st. subst st.
    pose (P := fun (k : nat) (st : nat * list R) =>
      st.1 = (r * c2 + k)%nat /\ length st.2 = (r1 * c2)%nat /\
      forall i j, (i < r1)%nat -> (j < c2)%nat ->
        st.2 !!! (i * c2 + j)%nat
        = if decide (i = r /\ (j < k)%nat) then dot r j else d !!! (i * c2 + j)%nat).
    assert (HP : P c2 (for_up 0 c2 (fun c '(d3, Cd) => (S d3, <[d3 := dot r c]> Cd))
                         ((r * c2)%nat, d))).
    { apply (for_up_ind P 0 c2); unfold P; clear P.
      - lia.
      - cbn [fst snd]. split; [lia|]. split; [done|]. intros i j _ _.
        by rewrite decide_False by lia.
      - intros k [d3 Cd] Hk (Hd3 & Hl & Hc). cbn [fst snd] in *. subst d3.
        split; [lia|]. rewrite length_insert. split; [done|]. intros i j Hi Hj.
        rewrite lookup_total_insert_cases
          by (rewrite Hl; apply cell_idx_lt; lia).
        destruct (decide (r * c2 + k = i * c2 + j)%nat) as [He|Hne].
        + apply cell_idx_inj in He as [<- <-]; [|lia..]. by rewrite decide_True by lia.
        + rewrite Hc by done.
          destruct (decide (i = r /\ (j < k)%nat)), (decide (i = r /\ (j < S k)%nat));
            try done; try lia. }
    destruct HP as (H1 & H2 & H3). split; [simpl; lia|]. split; [done|].
    intros i j Hi Hj. rewrite H3 by done.
    destruct (decide (i = r)), (decide (i = r /\ (j < c2)%nat)); try done; lia. }
  (* all rows *)
  pose (Q := fun (k : nat) (st : nat * list R) =>
    st.1 = (k * c2)%nat /\ length st.2 = (r1 * c2)%nat /\
    forall i j, (i < r1)%nat -> (j < c2)%nat ->
      st.2 !!! (i * c2 + j)%nat
      = if decide (i < k)%nat then dot i j else m_matrix C !!! (i * c2 + j)%nat).
  assert (HQ : Q r1 (for_up 0 r1 (fun r '(d3, Cd) =>
                  for_up 0 c2 (fun c '(d3, Cd) => (S d3, <[d3 := dot r c]> Cd)) (d3, Cd))
                  (0%nat, m_matrix C))).
  { apply (for_up_ind Q 0 r1); unfold Q; clear Q.
    - lia.
    - cbn [fst snd]. split; [done|]. split; [done|]. intros i j _ _.
      by rewrite decide_False by lia.
    - intros k [d3 Cd] Hk (Hd3 & Hl & Hc). cbn [fst snd] in Hd3, Hl, Hc. subst d3.
      destruct (Hrow k Cd ltac:(lia) Hl) as (H1 & H2 & H3). cbv zeta in *.
      split; [done|]. split; [done|]. intros i j Hi Hj. rewrite H3 by done.
      destruct (decide (i = k)) as [->|Hne].
      + by rewrite decide_True by lia.
      + rewrite Hc by done.
        destruct (decide (i < k)%nat), (decide (i < S k)%nat); try done; lia. }
  fold dot in HQ |- *.
  destruct (for_up 0 r1 _ (0%nat, m_matrix C)) as [d3 Cd].
  destruct HQ as (_ & Hl & Hc). cbn [fst snd] in *.
  unfold wf_matrix. cbn [m_rows m_cols m_matrix].
  split; [done|]. split; [done|]. split; [by rewrite HCr, HCc|].
  intros r c Hr Hc'. unfold mat_get at 1. cbn [m_cols m_matrix]. rewrite HCc.
  rewrite Hc by done. rewrite decide_True by done. apply Hdot.
Qed.

(** X15. [MP_matrixMultiply(A, B, C)] on an L x M matrix [A], an M x N
    matrix [B] and an L x N matrix [C]: afterwards [C] has the same shape
    and each entry [(r, c)] is the sum over [i] of [A(r, i) B(i, c)],
    accumulated from [i = 0] upwards; what [C] held before has no
    influence on the result. *)
Theorem MP_matrixMultiply_entries (A B C C0 : Matrix R) :
  multiply_shapes A B C -> multiply_shapes A B C0 ->
  m_rows (MP_matrixMultiply A B C) = m_rows A /\
  m_cols (MP_matrixMultiply A B C) = m_cols B /\
  wf_matrix (MP_matrixMultiply A B C) /\
  (forall r c, (r < m_rows A)%nat -> (c < m_cols B)%nat ->
     mat_get (MP_matrixMultiply A B C) r c
     = rsum (m_cols A) (fun i => mat_get A r i * mat_get B i c)) /\
  MP_matrixMultiply A B C = MP_matrixMultiply A B C0.
Proof.
  intros Hs Hs0.
  destruct (MP_matrixMultiply_spec A B C Hs) as (Hr & Hc & Hwf & Hget).
  destruct (MP_matrixMultiply_spec A B C0 Hs0) as (Hr0 & Hc0 & Hwf0 & Hget0).
  repeat split; try done.
  apply matrix_ext; [done|done|congruence|congruence|].
  rewrite Hr, Hc. intros i j Hi Hj. by rewrite Hget, Hget0.
Qed.

(** X16. Over the reals [MP_matrixMultiply] is associative: computing
    [(A B) C] and [A (B C)] through any intermediate and result matrices
    of the right shapes gives the same matrix.  (In binary64 the two
    orders of evaluation round differently.) *)
Theorem MP_matrixMultiply_assoc (A B C T1 T2 T3 T4 : Matrix R) :
  multiply_shapes A B T1 -> multiply_shapes B C T3 ->
  multiply_shapes T1 C T2 -> multiply_shapes A T3 T4 ->
  MP_matrixMultiply (MP_matrixMultiply A B T1) C T2
  = MP_matrixMultiply A (MP_matrixMultiply B C T3) T4.
Proof.
  intros H1 H3 H2 H4.
  destruct (MP_matrixMultiply_spec A B T1 H1) as (Hr1 & Hc1 & Hw1 & Hg1).
  destruct (MP_matrixMultiply_spec B C T3 H3) as (Hr3 & Hc3 & Hw3 & Hg3).
  pose proof H1 as (HwA & HwB & HwT1 & HBA & HT1r & HT1c).
  pose proof H3 as (_ & HwC & HwT3 & HCB & HT3r & HT3c).
  pose proof H2 as (_ & _ & HwT2 & HCT1 & HT2r & HT2c).
  pose proof H4 as (_ & _ & HwT4 & HT3A & HT4r & HT4c).
  assert (H2' : multiply_shapes (MP_matrixMultiply A B T1) C T2).
  { unfold multiply_shapes. rewrite Hr1, Hc1. repeat split; try done; congruence. }
  assert (H4' : multiply_shapes A (MP_matrixMultiply B C T3) T4).
  { unfold multiply_shapes. rewrite Hr3, Hc3. repeat split; try done; congruence. }
  destruct (MP_matrixMultiply_spec _ C T2 H2') as (Hr2 & Hc2 & Hw2 & Hg2).
  destruct (MP_matrixMultiply_spec A _ T4 H4') as (Hr4 & Hc4 & Hw4 & Hg4).
  apply matrix_ext; [done|done|congruence|congruence|].
  rewrite Hr2, Hc2, Hr1. intros i j Hi Hj.
  rewrite Hg2 by (rewrite ?Hr1; done). rewrite Hg4 by (rewrite ?Hc3; done).
  unfold mat_prod. rewrite Hc1.
  rewrite (rsum_ext (m_cols B) _
    (fun k => rsum (m_cols A) (fun l => mat_get A i l * mat_get B l k) * mat_get C k j)).
  2: { intros k Hk. by rewrite Hg1. }
  rewrite (rsum_ext (m_cols A) _
    (fun l => mat_get A i l * rsum (m_cols B) (fun k => mat_get B l k * mat_get C k j))).
  2: { intros l Hl. rewrite Hg3 by (rewrite ?HBA; done). done. }
  rewrite (rsum_ext (m_cols B) _
    (fun k => rsum (m_cols A) (fun l => mat_get A i l * mat_get B l k * mat_get C k j))).
  2: { intros k _. by rewrite rsum_scal_r. }
  rewrite rsum_exchange. apply rsum_ext. intros l _.
  rewrite <- rsum_scal_l. apply rsum_ext. intros k _. lra.
Qed.

(** X17. Multiplying back.  After [MP_GaussJordan(A, B, X)] has completed
    on an N x N matrix [A] with N x M right-hand sides,
    [MP_matrixMultiply] of the original [A] and [X] returns [B], and
    [MP_matrixMultiply] of the original [A] and the matrix left in [A],
    in either order, returns the identity matrix. *)
Theorem MP_GaussJordan_multiply_back (a : Args R) (T TB : Matrix R) :
  gauss_input a ->
  wf_matrix T -> m_rows T = m_rows (arg_A a) -> m_cols T = m_rows (arg_A a) ->
  wf_matrix TB -> m_rows TB = m_rows (arg_A a) -> m_cols TB = m_cols (arg_B a) ->
  (MP_GaussJordan a).1 = Completed ->
  let A' := arg_A (MP_GaussJordan a).2 in
  let X := arg_X (MP_GaussJordan a).2 in
  MP_matrixMultiply (arg_A a) X TB = arg_B a /\
  (forall i j, (i < m_rows (arg_A a))%nat -> (j < m_rows (arg_A a))%nat ->
     mat_get (MP_matrixMultiply (arg_A a) A' T) i j = delta i j /\
     mat_get (MP_matrixMultiply A' (arg_A a) T) i j = delta i j).
Proof.
  intros Hin HwT HTr HTc HwTB HTBr HTBc.
  pose proof (gauss_input_lengths a Hin) as (HA & HB).
  pose proof Hin as (HwA & HwB & Hsq & Hrows).
  rewrite (MP_GaussJordan_unfold a Hsq Hrows). cbv zeta. cbn [fst snd arg_A arg_X].
  intros Hst.
  destruct (gj_kernel_cases (m_cols (arg_A a)) (m_cols (arg_B a))
              (m_matrix (arg_A a)) (m_matrix (arg_B a)) HA HB)
    as [(_ & L1 & L2 & Hinv & Hsol)|(Hst' & _)]; cbv zeta in *; [|congruence].
  set (r := gj_kernel (m_cols (arg_A a)) (m_cols (arg_B a))
              (m_matrix (arg_A a)) (m_matrix (arg_B a))) in *.
  pose proof (right_inverse_is_left _ _ _ HA L1 Hinv) as Hleft.
  set (A' := mkMatrix (m_rows (arg_A a)) (m_cols (arg_A a)) r.1.2).
  set (X := mkMatrix (m_rows (arg_B a)) (m_cols (arg_B a)) r.2).
  assert (HwA' : wf_matrix A') by (unfold wf_matrix; cbn; by rewrite Hsq).
  assert (HwX : wf_matrix X) by (unfold wf_matrix; cbn; by rewrite <- Hrows, Hsq).
  assert (S1 : multiply_shapes (arg_A a) X TB).
  { unfold multiply_shapes. cbn [m_rows m_cols X]. repeat split; try done; congruence. }
  assert (S2 : multiply_shapes (arg_A a) A' T).
  { unfold multiply_shapes. cbn [m_rows m_cols A']. repeat split; try done; congruence. }
  assert (S3 : multiply_shapes A' (arg_A a) T).
  { unfold multiply_shapes. cbn [m_rows m_cols A']. repeat split; try done; congruence. }
  destruct (MP_matrixMultiply_spec _ _ _ S1) as (Hr1 & Hc1 & Hw1 & Hg1).
  destruct (MP_matrixMultiply_spec _ _ _ S2) as (Hr2 & Hc2 & Hw2 & Hg2).
  destruct (MP_matrixMultiply_spec _ _ _ S3) as (Hr3 & Hc3 & Hw3 & Hg3).
  cbn [m_rows m_cols A' X] in *. split.
  - apply matrix_ext; [done|done|congruence|done|].
    rewrite Hr1, Hc1. intros i j Hi Hj. rewrite Hg1 by done.
    rewrite Hsq in Hi. exact (Hsol i j Hi Hj).
  - intros i j Hi Hj. rewrite Hsq in Hi, Hj. split.
    + rewrite Hg2 by (rewrite ?Hsq; done). exact (Hinv i j Hi Hj).
    + rewrite Hg3 by (rewrite ?Hsq; done). exact (Hleft i j Hi Hj).
Qed.
End Multiply.

Definition example_I2 : Matrix R := mkMatrix 2 2 [1; 0; 0; 1]%R.
Definition example_T21 : Matrix R := mkMatrix 2 1 [0; 0]%R.

Lemma MP_matrixMultiply_entries_witness :
  mat_get (MP_matrixMultiply example_A2 example_B2 example_T21) 1 0
  = rsum 2 (fun i => mat_get example_A2 1 i * mat_get example_B2 i 0)%R /\
  MP_matrixMultiply example_A2 example_B2 example_T21
  = MP_matrixMultiply example_A2 example_B2 example_B2.
Proof.
  assert (S1 : multiply_shapes example_A2 example_B2 example_T21) by (by repeat split).
  assert (S2 : multiply_shapes example_A2 example_B2 example_B2) by (by repeat split).
  destruct (MP_matrixMultiply_entries example_A2 example_B2 example_T21 example_B2 S1 S2)
    as (_ & _ & _ & Hget & Heq).
  split; [|exact Heq]. apply Hget; simpl; lia.
Defined.

Lemma MP_matrixMultiply_assoc_witness :
  MP_matrixMultiply (MP_matrixMultiply example_A2 example_A2s example_I2)
    example_B2 example_T21
  = MP_matrixMultiply example_A2
      (MP_matrixMultiply example_A2s example_B2 example_T21) example_T21.
Proof.
  apply MP_matrixMultiply_assoc; by repeat split.
Defined.

Lemma MP_GaussJordan_multiply_back_witness :
  MP_matrixMultiply example_A2
    (arg_X (MP_GaussJordan (mkArgs example_A2 example_B2 (mkMatrix 0 0 []))).2)
    example_T21
  = example_B2.
Proof.
  set (a := mkArgs example_A2 example_B2 (mkMatrix 0 0 [])).
  assert (Hin : gauss_input a) by (by repeat split).
  assert (Hst : (MP_GaussJordan a).1 = Completed).
  { rewrite (MP_GaussJordan_unfold a eq_refl eq_refl). cbv zeta. cbn [fst snd].
    apply gj_kernel_invertible; [done|done|]. exact example_A2_invertible. }
  exact (proj1 (MP_GaussJordan_multiply_back a example_I2 example_T21 Hin
                  eq_refl eq_refl eq_refl eq_refl eq_refl eq_refl Hst)).
Defined.


(** ** Calling [MP_GaussJordan] again on its own output *)

Section InvertTwice.
Local Open Scope R_scope.

(** Multiplying by a matrix that has a right inverse can be undone: if
    [A P = I] then [P Y = C] gives [Y = A C], for [Y] and [C] of any
    width. *)
Lemma left_cancel (n w : nat) (A P Y : list R) (C : nat -> nat -> R) (i j : nat) :
  (forall i j, (i < n)%nat -> (j < n)%nat -> prod_entry n n n A P i j = delta i j) ->
  (forall i j, (i < n)%nat -> (j < w)%nat -> prod_entry n n w P Y i j = C i j) ->
  (i < n)%nat -> (j < w)%nat ->
  cell w Y i j = rsum n (fun l => cell n A i l * C l j).
Proof.
  intros HAP HPY Hi Hj.
  rewrite <- (rsum_delta_l n i (fun k => cell w Y k j)) by done.
  rewrite (rsum_ext n _ (fun k => rsum n (fun l => cell n A i l * cell n P l k)
                                   * cell w Y k j)).
  2: { intros k Hk. by rewrite <- (HAP i k Hi Hk). }
  rewrite (prod_entry_assoc n (cell n A) (cell n P) (cell w Y) i j).
  apply rsum_ext. intros l Hl.
  by rewrite <- (HPY l j Hl Hj).
Qed.

(** X28. Inverting twice.  When [MP_GaussJordan(A, B, X)] has completed,
    a second call on the same three matrices completes as well, puts the
    original matrix back into [A], leaves [B] alone, and leaves in [X]
    the product of the original [A] and [B], as [MP_matrixMultiply]
    computes it. *)
Theorem MP_GaussJordan_twice (a : Args R) (T : Matrix R) :
  gauss_input a ->
  wf_matrix T -> m_rows T = m_rows (arg_A a) -> m_cols T = m_cols (arg_B a) ->
  (MP_GaussJordan a).1 = Completed ->
  let r := MP_GaussJordan (MP_GaussJordan a).2 in
  r.1 = Completed /\
  arg_A r.2 = arg_A a /\
  arg_B r.2 = arg_B a /\
  arg_X r.2 = MP_matrixMultiply (arg_A a) (arg_B a) T.
Proof.
  intros Hin HwT HTr HTc.
  pose proof (gauss_input_lengths a Hin) as (HA & HB).
  pose proof Hin as (HwA & HwB & Hsq & Hrows).
  rewrite (MP_GaussJordan_unfold a Hsq Hrows). cbv zeta. cbn [fst snd].
  intros Hst.
  destruct (gj_kernel_cases (m_cols (arg_A a)) (m_cols (arg_B a))
              (m_matrix (arg_A a)) (m_matrix (arg_B a)) HA HB)
    as [(_ & L1 & L2 & Hinv & Hsol)|(Hst' & _)]; cbv zeta in *; [|congruence].
  set (k1 := gj_kernel (m_cols (arg_A a)) (m_cols (arg_B a))
               (m_matrix (arg_A a)) (m_matrix (arg_B a))) in *.
  set (a1 := mkArgs (mkMatrix (m_rows (arg_A a)) (m_cols (arg_A a)) k1.1.2)
               (arg_B a)
               (mkMatrix (m_rows (arg_B a)) (m_cols (arg_B a)) k1.2)).
  rewrite (MP_GaussJordan_unfold a1 Hsq Hrows). cbv zeta.
  cbn [fst snd arg_A arg_B arg_X a1 m_rows m_cols m_matrix].
  destruct (gj_kernel_cases (m_cols (arg_A a)) (m_cols (arg_B a))
              k1.1.2 (m_matrix (arg_B a)) L1 HB)
    as [(Hst2 & M1 & M2 & Hinv2 & Hsol2)|(_ & x & Hx)]; cbv zeta in *.
  2: { by destruct (left_inverse_no_null_vector _ _ _ x Hinv). }
  set (k2 := gj_kernel (m_cols (arg_A a)) (m_cols (arg_B a))
               k1.1.2 (m_matrix (arg_B a))) in *.
  split; [done|]. split; [|split; [done|]].
  - assert (E : k2.1.2 = m_matrix (arg_A a)).
    { apply (cells_ext (m_cols (arg_A a)) (m_cols (arg_A a))); [done|done|].
      intros i j Hi Hj.
      rewrite (left_cancel _ _ (m_matrix (arg_A a)) k1.1.2 k2.1.2 delta i j
                 Hinv Hinv2 Hi Hj).
      by rewrite rsum_delta_r. }
    rewrite E. by destruct (arg_A a).
  - assert (S1 : multiply_shapes (arg_A a) (arg_B a) T).
    { unfold multiply_shapes. repeat split; try done; congruence. }
    destruct (MP_matrixMultiply_spec _ _ _ S1) as (Hr1 & Hc1 & Hw1 & Hg1).
    symmetry. apply matrix_ext; cbn [m_rows m_cols]; try done.
    + unfold wf_matrix. cbn. by rewrite <- Hrows, Hsq.
    + congruence.
    + rewrite Hr1, Hc1. intros i j Hi Hj. rewrite Hg1 by done.
      rewrite Hsq in Hi. symmetry.
      exact (left_cancel _ _ (m_matrix (arg_A a)) k1.1.2 k2.2
               (cell (m_cols (arg_B a)) (m_matrix (arg_B a))) i j
               Hinv Hsol2 Hi Hj).
Qed.
End InvertTwice.

Lemma MP_GaussJordan_twice_witness :
  arg_A (MP_GaussJordan
           (MP_GaussJordan (mkArgs example_A2 example_B2 (mkMatrix 0 0 []))).2).2
  = example_A2 /\
  arg_X (MP_GaussJordan
           (MP_GaussJordan (mkArgs example_A2 example_B2 (mkMatrix 0 0 []))).2).2
  = MP_matrixMultiply example_A2 example_B2 example_T21.
Proof.
  set (a := mkArgs example_A2 example_B2 (mkMatrix 0 0 [])).
  assert (Hin : gauss_input a) by (by repeat split).
  assert (Hst : (MP_GaussJordan a).1 = Completed).
  { rewrite (MP_GaussJordan_unfold a eq_refl eq_refl). cbv zeta. cbn [fst snd].
    apply gj_kernel_invertible; [done|done|]. exact example_A2_invertible. }
  destruct (MP_GaussJordan_twice a example_T21 Hin eq_refl eq_refl eq_refl Hst)
    as (_ & HA & _ & HX).
  split; [exact HA|exact HX].
Defined.


(** ** The math helpers *)

(** *** [MP_swap(int &, int &)] on two different variables *)

Section IntSwap.
Local Open Scope Z_scope.

(** The bitwise exclusive or of two [int]s is an [int]. *)
Lemma lxor_nonneg_bound (x y : Z) :
  (0 <= x < 2 ^ 31)%Z -> (0 <= y < 2 ^ 31)%Z -> (0 <= Z.lxor x y < 2 ^ 31)%Z.
Proof.
  intros Hx Hy.
  assert (H0 : (0 <= Z.lxor x y)%Z) by (apply Z.lxor_nonneg; lia).
  split; [done|].
  destruct (Z.eq_dec (Z.lxor x y) 0) as [->|Hne]; [lia|].
  apply Z.log2_lt_pow2; [lia|].
  pose proof (Z.log2_lxor x y ltac:(lia) ltac:(lia)) as Hl.
  assert (Hlx : (Z.log2 x < 31)%Z).
  { destruct (Z.eq_dec x 0) as [->|]; [done|]. apply Z.log2_lt_pow2; lia. }
  assert (Hly : (Z.log2 y < 31)%Z).
  { destruct (Z.eq_dec y 0) as [->|]; [done|]. apply Z.log2_lt_pow2; lia. }
  lia.
Qed.

Lemma lxor_is_int (x y : Z) : is_int x -> is_int y -> is_int (Z.lxor x y).
Proof.
  unfold is_int, int_min, int_max. intros Hx Hy.
  destruct (Z.lt_ge_cases x 0) as [Nx|Px], (Z.lt_ge_cases y 0) as [Ny|Py].
  - rewrite <- Z.lxor_lnot_lnot.
    pose proof (lxor_nonneg_bound (Z.lnot x) (Z.lnot y)) as H.
    unfold Z.lnot in *. lia.
  - pose proof (lxor_nonneg_bound (Z.lnot x) y) as H.
    rewrite <- Z.lnot_lxor_l in H. unfold Z.lnot in *. lia.
  - pose proof (lxor_nonneg_bound x (Z.lnot y)) as H.
    rewrite <- Z.lnot_lxor_r in H. unfold Z.lnot in *. lia.
  - pose proof (lxor_nonneg_bound x y). lia.
Qed.

Lemma int_xor_lxor (x y : Z) : is_int x -> is_int y -> int_xor x y = Z.lxor x y.
Proof. intros Hx Hy. unfold int_xor. apply wrap_int_id. by apply lxor_is_int. Qed.

(** X18. On two different [int] variables the XOR sequence of
    [MP_swap(int &, int &)] does exchange the values, for all 32-bit
    values, touches nothing else, and leaves memory exactly as the generic
    template does. *)
Theorem MP_swap_int_distinct (mem : gmap positive Z) (a b : positive) (x y : Z) :
  a <> b -> is_int x -> is_int y ->
  mem !! a = Some x -> mem !! b = Some y ->
  MP_swap_int a b mem !! a = Some y /\
  MP_swap_int a b mem !! b = Some x /\
  (forall c, c <> a -> c <> b -> MP_swap_int a b mem !! c = mem !! c) /\
  MP_swap_int a b mem = MP_swap a b mem.
Proof.
  intros Hab Hx Hy Ha Hb.
  assert (Hrun : MP_swap_int a b mem = <[a := y]> (<[b := x]> mem)).
  { unfold MP_swap_int. cbv zeta.
    rewrite (lookup_total_correct mem a x Ha), (lookup_total_correct mem b y Hb).
    assert (H1a : <[a := int_xor x y]> mem !!! a = int_xor x y)
      by apply lookup_total_insert_eq.
    assert (H1b : <[a := int_xor x y]> mem !!! b = y).
    { rewrite lookup_total_insert_ne by done. by apply lookup_total_correct. }
    rewrite H1a, H1b.
    rewrite lookup_total_insert_eq.
    rewrite lookup_total_insert_ne by done. rewrite H1a.
    rewrite (int_xor_lxor x y) by done.
    rewrite (int_xor_lxor y (Z.lxor x y)) by (try apply lxor_is_int; done).
    assert (E1 : Z.lxor y (Z.lxor x y) = x).
    { rewrite (Z.lxor_comm x y), <- Z.lxor_assoc, Z.lxor_nilpotent.
      apply Z.lxor_0_l. }
    rewrite E1. rewrite (int_xor_lxor (Z.lxor x y) x) by (try apply lxor_is_int; done).
    assert (E2 : Z.lxor (Z.lxor x y) x = y).
    { rewrite (Z.lxor_comm x y), Z.lxor_assoc, Z.lxor_nilpotent.
      apply Z.lxor_0_r. }
    rewrite E2.
    rewrite (insert_insert_ne _ b a) by done.
    rewrite insert_insert_eq. done. }
  rewrite Hrun. split; [by rewrite lookup_insert_eq|]. split.
  { rewrite lookup_insert_ne by done. by rewrite lookup_insert_eq. }
  split.
  { intros c Hca Hcb. by rewrite !lookup_insert_ne by done. }
  unfold MP_swap.
  rewrite (lookup_total_correct mem a x Ha), (lookup_total_correct mem b y Hb).
  by rewrite (insert_insert_ne _ b a) by done.
Qed.

End IntSwap.

Lemma MP_swap_int_distinct_witness :
  MP_swap_int 1 2 ({[ 1%positive := (-7)%Z; 2%positive := 42%Z ]} : gmap positive Z)
  = MP_swap 1%positive 2%positive {[ 1%positive := (-7)%Z; 2%positive := 42%Z ]}.
Proof.
  apply (MP_swap_int_distinct {[ 1%positive := (-7)%Z; 2%positive := 42%Z ]}
           1%positive 2%positive (-7)%Z 42%Z).
  - lia.
  - unfold is_int, int_min, int_max. lia.
  - unfold is_int, int_min, int_max. lia.
  - reflexivity.
  - reflexivity.
Defined.

(** *** Comparisons on the reals *)

Section RealHelpers.
Local Open Scope R_scope.

(** X19. [MP_clip] with bounds in order returns a value between them,
    returns its argument when that already lies between them, and is
    idempotent.  With the bounds the wrong way round ([h < l]) the result
    is [l] for [a <= l] and [h] otherwise, so for [a > l] it lies below
    the lower bound. *)
Theorem MP_clip_contract (a l h : R) :
  (l <= h ->
   l <= MP_clip a l h <= h /\
   (l <= a <= h -> MP_clip a l h = a) /\
   MP_clip (MP_clip a l h) l h = MP_clip a l h) /\
  (h < l -> (a <= l -> MP_clip a l h = l) /\ (l < a -> MP_clip a l h = h)).
Proof.
  unfold MP_clip. rscalar. unfold R_leb. split.
  - intros Hlh. repeat split.
    + destruct (Rle_dec a l), (Rle_dec a h); lra.
    + destruct (Rle_dec a l), (Rle_dec a h); lra.
    + intros Ha. destruct (Rle_dec a l), (Rle_dec a h); lra.
    + destruct (Rle_dec a l) as [Hal|Hal].
      * destruct (Rle_dec l l); [done|lra].
      * destruct (Rle_dec a h) as [Hah|Hah].
        -- destruct (Rle_dec a l); [lra|]. destruct (Rle_dec a h); [done|lra].
        -- destruct (Rle_dec h l); [lra|]. destruct (Rle_dec h h); [done|lra].
  - intros Hhl. split; intros Ha.
    + destruct (Rle_dec a l); [done|lra].
    + destruct (Rle_dec a l); [lra|]. destruct (Rle_dec a h); [lra|done].
Qed.

Lemma MP_clip_contract_witness :
  (0 <= MP_clip 5 0 1 <= 1) /\ MP_clip (1 / 2) 0 1 = 1 / 2 /\
  MP_clip 5 1 0 = 0.
Proof.
  destruct (MP_clip_contract 5 0 1) as (H1 & _).
  destruct (MP_clip_contract (1 / 2) 0 1) as (H2 & _).
  destruct (MP_clip_contract 5 1 0) as (_ & H3).
  split; [apply H1; lra|]. split.
  - apply H2; lra.
  - apply H3; lra.
Defined.

(** X20. Sign and magnitude.  Over the reals [MP_sgn(a) * MP_abs(a)] is
    [a]; [MP_abs] is non-negative and even, [MP_sgn] is odd and is 0 only
    at 0; [MP_min] and [MP_max] return their arguments in order, and the
    gap between them is [MP_abs] of the difference. *)
Theorem MP_sign_magnitude (a b : R) :
  IZR (MP_sgn a) * MP_abs a = a /\
  0 <= MP_abs a /\
  MP_abs (- a) = MP_abs a /\
  MP_sgn (- a) = (- MP_sgn a)%Z /\
  (MP_sgn a = 0%Z <-> a = 0) /\
  MP_min_T a b <= MP_max a b /\
  MP_min_T a b + MP_max a b = a + b /\
  MP_max a b - MP_min_T a b = MP_abs (a - b).
Proof.
  rewrite !MP_abs_R. unfold MP_sgn, MP_min_T, MP_max. rscalar. unfold R_ltb.
  repeat split.
  - unfold Rabs. destruct (Rlt_dec 0 a), (Rlt_dec a 0), (Rcase_abs a); lra.
  - apply Rabs_pos.
  - apply Rabs_Ropp.
  - destruct (Rlt_dec 0 a), (Rlt_dec a 0), (Rlt_dec 0 (- a)), (Rlt_dec (- a) 0);
      try lia; lra.
  - destruct (Rlt_dec 0 a), (Rlt_dec a 0); try lia; lra.
  - intros ->. destruct (Rlt_dec 0 0); [lra|done].
  - destruct (Rlt_dec a b), (Rlt_dec b a); lra.
  - destruct (Rlt_dec a b), (Rlt_dec b a); lra.
  - unfold Rabs. destruct (Rlt_dec a b), (Rlt_dec b a), (Rcase_abs (a - b)); lra.
Qed.
End RealHelpers.

(** *** Not-a-number in binary64 *)

Lemma nan_ltb_l (y : float) : PrimFloat.ltb nan y = false.
Proof. rewrite ltb_spec. by destruct (Prim2SF y). Qed.

Lemma nan_ltb_r (y : float) : PrimFloat.ltb y nan = false.
Proof.
  rewrite ltb_spec. change (Prim2SF nan) with S754_nan.
  unfold SFltb, SFcompare. by destruct (Prim2SF y).
Qed.

Lemma nan_leb_l (y : float) : PrimFloat.leb nan y = false.
Proof. rewrite leb_spec. by destruct (Prim2SF y). Qed.

Lemma nan_leb_r (y : float) : PrimFloat.leb y nan = false.
Proof.
  rewrite leb_spec. change (Prim2SF nan) with S754_nan.
  unfold SFleb, SFcompare. by destruct (Prim2SF y).
Qed.

(** X21. The helpers on a NaN, in binary64.  Every comparison with a NaN
    is false, so each helper falls through to its last alternative:
    [MP_clip] of a NaN is the upper bound [h]; [MP_max] and [MP_min]
    return their second argument whenever either argument is a NaN, so
    they return the other operand when the NaN comes first and the NaN
    when it comes second; [MP_sgn] of a NaN is 0, [MP_abs] of a NaN is a
    NaN, and [MP_isZero] of a NaN is false. *)
Theorem MP_helpers_nan (x l h : float) :
  MP_clip nan l h = h /\
  MP_max nan x = x /\ MP_max x nan = nan /\
  MP_min_T nan x = x /\ MP_min_T x nan = nan /\
  MP_sgn nan = 0%Z /\
  MP_abs nan = nan /\
  MP_isZero nan = 0%float.
Proof.
  unfold MP_clip, MP_max, MP_min_T, MP_sgn, MP_isZero, MP_abs.
  cbn [sZ sadd ssub smul sdiv sneg ssqrt seqb sltb sleb sEPSILON float_scalar].
  rewrite !nan_leb_l, !nan_leb_r, !nan_ltb_l, !nan_ltb_r.
  repeat split; reflexivity.
Qed.

(** *** Rounding to integers *)

Section Rounding.
Local Open Scope R_scope.

Lemma is_intb_true (z : Z) : is_intb z = true <-> (int_min <= z <= int_max)%Z.
Proof. unfold is_intb. rewrite andb_true_iff, !Z.leb_le. done. Qed.

Lemma is_intb_false (z : Z) : is_intb z = false <-> ~ (int_min <= z <= int_max)%Z.
Proof. rewrite <- is_intb_true. by destruct (is_intb z). Qed.

Lemma IZR_lower (z k : Z) : IZR k - 1 < IZR z -> (k <= z)%Z.
Proof.
  intros H. destruct (Z.le_gt_cases k z) as [|Hgt]; [done|]. exfalso.
  assert (Hle : (z <= k - 1)%Z) by lia. apply IZR_le in Hle.
  rewrite minus_IZR in Hle. lra.
Qed.

Lemma IZR_upper (z k : Z) : IZR z < IZR k + 1 -> (z <= k)%Z.
Proof.
  intros H. destruct (Z.le_gt_cases z k) as [|Hgt]; [done|]. exfalso.
  assert (Hle : (k + 1 <= z)%Z) by lia. apply IZR_le in Hle.
  rewrite plus_IZR in Hle. lra.
Qed.

(** The ceiling, from the floor [Int_part]. *)
Definition Z_ceil (a : R) : Z := (- Int_part (- a))%Z.

Lemma floor_bounds (a : R) : IZR (Int_part a) <= a < IZR (Int_part a) + 1.
Proof. pose proof (base_Int_part a). lra. Qed.

Lemma ceil_bounds (a : R) : IZR (Z_ceil a) - 1 < a <= IZR (Z_ceil a).
Proof. unfold Z_ceil. pose proof (base_Int_part (- a)). rewrite opp_IZR. lra. Qed.

Lemma floor_ceil (a : R) :
  (Z_ceil a = Int_part a /\ a = IZR (Int_part a)) \/
  (Z_ceil a = Int_part a + 1 /\ a <> IZR (Int_part a) /\ a <> IZR (Z_ceil a))%Z.
Proof.
  pose proof (floor_bounds a) as Hf. pose proof (ceil_bounds a) as Hc.
  assert (H1 : (Int_part a <= Z_ceil a)%Z) by (apply le_IZR; lra).
  assert (H2 : (Z_ceil a < Int_part a + 2)%Z).
  { apply lt_IZR. rewrite plus_IZR. lra. }
  destruct (Z.eq_dec (Z_ceil a) (Int_part a)) as [He|Hne].
  - left. split; [done|]. rewrite He in Hc. lra.
  - right. assert (He : Z_ceil a = (Int_part a + 1)%Z) by lia.
    split; [done|]. rewrite He in Hc |- *. rewrite plus_IZR in *. lra.
Qed.

Lemma R_trunc_cases (a : R) :
  (0 <= a /\ R_trunc a = Int_part a) \/ (a < 0 /\ R_trunc a = Z_ceil a).
Proof.
  unfold R_trunc, Z_ceil. destruct (Rle_dec 0 a); [left|right]; split; try done; lra.
Qed.

(** X22. [MP_floor] and [MP_ceiling] are defined exactly when the floor,
    respectively the ceiling, of their argument is an [int], and then
    they return it.  In the other cases the conversion [(int) a] or the
    [int] addition after it overflows: [MP_floor] is undefined on
    arguments strictly between [INT_MIN - 1] and [INT_MIN], whose
    truncation is the [int] [INT_MIN], and [MP_ceiling] on arguments
    strictly between [INT_MAX] and [INT_MAX + 1]. *)
Theorem MP_floor_ceiling (a : R) :
  MP_floor a = (if is_intb (Int_part a) then Some (IZR (Int_part a)) else None) /\
  MP_ceiling a = (if is_intb (Z_ceil a) then Some (IZR (Z_ceil a)) else None).
Proof.
  pose proof (floor_bounds a) as Hf. pose proof (ceil_bounds a) as Hc.
  unfold MP_floor, MP_ceiling, int_cast, int_checked.
  destruct (R_trunc_cases a) as [(Ha & ->)|(Ha & ->)].
  - (* a >= 0: the truncation is the floor *)
    split.
    + destruct (is_intb (Int_part a)) eqn:Hi; [|done]. simpl.
      unfold R_eqb, R_ltb. destruct (Req_dec_T a (IZR (Int_part a))) as [|Hne]; [done|].
      destruct (Rlt_dec 0 a); [done|]. exfalso. apply Hne.
      assert (Hz : a = 0) by lra. rewrite Hz in Hf |- *.
      assert (Int_part 0 = 0)%Z as -> by (apply Z.le_antisymm;
        [apply IZR_upper|apply IZR_lower]; simpl; lra).
      done.
    + destruct (floor_ceil a) as [(He & Hint)|(He & Hn1 & Hn2)].
      * rewrite He. destruct (is_intb (Int_part a)) eqn:Hi; [|done]. simpl.
        unfold R_eqb. destruct (Req_dec_T a (IZR (Int_part a))); [done|done].
      * rewrite He. destruct (is_intb (Int_part a)) eqn:Hi; simpl.
        -- unfold R_eqb, R_ltb. destruct (Req_dec_T a (IZR (Int_part a))); [done|].
           assert (H0 : (0 <= Int_part a)%Z) by (apply IZR_lower; simpl; lra).
           apply IZR_le in H0.
           destruct (Rlt_dec 0 a); [|lra]. by destruct (is_intb (Int_part a + 1)).
        -- destruct (is_intb (Int_part a + 1)) eqn:Hi'; [|done].
           exfalso. apply is_intb_false in Hi. apply is_intb_true in Hi'.
           assert (0 <= Int_part a)%Z by (apply IZR_lower; simpl; lra).
           unfold int_min, int_max in *. lia.
  - (* a < 0: the truncation is the ceiling *)
    split.
    + destruct (floor_ceil a) as [(He & Hint)|(He & Hn1 & Hn2)].
      * rewrite He. destruct (is_intb (Int_part a)) eqn:Hi; [|done]. simpl.
        unfold R_eqb. destruct (Req_dec_T a (IZR (Int_part a))); [done|done].
      * destruct (is_intb (Z_ceil a)) eqn:Hi; simpl.
        -- unfold R_eqb, R_ltb. destruct (Req_dec_T a (IZR (Z_ceil a))); [done|].
           destruct (Rlt_dec 0 a); [lra|].
           replace (Z_ceil a - 1)%Z with (Int_part a) by lia.
           by destruct (is_intb (Int_part a)).
        -- destruct (is_intb (Int_part a)) eqn:Hi'; [|done].
           exfalso. apply is_intb_false in Hi. apply is_intb_true in Hi'.
           assert (Z_ceil a <= 0)%Z by (apply IZR_upper; simpl; lra).
           unfold int_min, int_max in *. lia.
    + destruct (is_intb (Z_ceil a)) eqn:Hi; [|done]. simpl.
      unfold R_eqb, R_ltb. destruct (Req_dec_T a (IZR (Z_ceil a))); [done|].
      destruct (Rlt_dec 0 a); [lra|done].
Qed.


End Rounding.


(** ** More on the quaternion conversions *)

Section QuaternionFacts.
Local Open Scope R_scope.

(** The closed form as a 3 x 3 matrix. *)
Definition closed_form (x y z w : R) : Matrix R :=
  mkMatrix 3 3
    [ w * w + x * x - y * y - z * z; 2 * x * y - 2 * w * z; 2 * x * z + 2 * w * y;
      2 * x * y + 2 * w * z; w * w - x * x + y * y - z * z; 2 * y * z - 2 * w * x;
      2 * x * z - 2 * w * y; 2 * y * z + 2 * w * x; w * w - x * x - y * y + z * z ].

(** The components after [normalize]. *)
Definition unit_of (q : Quaternion R) : Quaternion R :=
  mkQuaternion (q_x q / quat_norm q) (q_y q / quat_norm q)
               (q_z q / quat_norm q) (q_w q / quat_norm q).

Lemma unit_of_norm2 (q : Quaternion R) : 0 < quat_norm q -> quat_norm2 (unit_of q) = 1.
Proof.
  intros Hn. pose proof (quat_unit_after_normalize q Hn) as Hu. cbv zeta in Hu.
  unfold quat_norm2, unit_of. rscalar. cbn [q_x q_y q_z q_w]. lra.
Qed.

(** On a 3 x 3 output [MP_quaternionToMatrix] returns the closed form of
    the normalised quaternion. *)
Lemma quaternionToMatrix_3x3 (q : Quaternion R) (R0 : Matrix R) :
  sEPSILON <= quat_norm q -> wf_matrix R0 -> m_rows R0 = 3%nat -> m_cols R0 = 3%nat ->
  MP_quaternionToMatrix q R0
  = closed_form (q_x (unit_of q)) (q_y (unit_of q)) (q_z (unit_of q)) (q_w (unit_of q)).
Proof.
  intros Hn Hwf Hr Hc. unfold MP_quaternionToMatrix.
  rewrite (quat_normalize_ok q Hn). fold (unit_of q). cbn [snd].
  generalize (unit_of q). intros [x y z w]. cbn [q_x q_y q_z q_w].
  explode_matrix R0 Hwf Hr Hc. reflexivity.
Qed.

(** The closed form of a unit quaternion is a rotation matrix. *)
Lemma closed_form_rotation (x y z w : R) :
  x * x + y * y + z * z + w * w = 1 -> is_rotation (closed_form x y z w).
Proof.
  intros Hu. set (s := x * x + y * y + z * z + w * w) in *.
  unfold is_rotation, closed_form, col_dot, det3, mat_get. cbn.
  split; [done|]. split; [done|]. split; [done|].
  assert (Hs2 : s * s = 1) by (rewrite Hu; lra).
  assert (Hs3 : s * s * s = 1) by (rewrite Hu; lra).
  repeat split.
  - rewrite <- Hs2. unfold s. ring.
  - rewrite <- Hs2. unfold s. ring.
  - rewrite <- Hs2. unfold s. ring.
  - ring.
  - ring.
  - ring.
  - rewrite <- Hs3. unfold s. ring.
Qed.

(** X24. [MP_quaternionToMatrix] produces rotation matrices.  For every
    quaternion whose norm is not below the threshold and every 3 x 3
    output matrix, the matrix written has orthonormal columns and
    determinant +1, and [MP_matrixToQuaternion] applied to it returns the
    normalised input quaternion or its negative. *)
Theorem quaternionToMatrix_is_rotation (q : Quaternion R) (R0 : Matrix R) :
  sEPSILON <= quat_norm q -> wf_matrix R0 -> m_rows R0 = 3%nat -> m_cols R0 = 3%nat ->
  is_rotation (MP_quaternionToMatrix q R0) /\
  (MP_matrixToQuaternion (MP_quaternionToMatrix q R0) = unit_of q \/
   MP_matrixToQuaternion (MP_quaternionToMatrix q R0) = quat_neg (unit_of q)).
Proof.
  intros Hn Hwf Hr Hc. rewrite (quaternionToMatrix_3x3 q R0 Hn Hwf Hr Hc).
  assert (Hpos : 0 < quat_norm q) by (rscalar; lra).
  pose proof (unit_of_norm2 q Hpos) as Hu. revert Hu.
  generalize (unit_of q). intros [x y z w]. unfold quat_norm2. rscalar.
  cbn [q_x q_y q_z q_w]. intros Hu. split.
  - apply closed_form_rotation. lra.
  - apply (quat_of_closed_form x y z w). lra.
Qed.

(** Scaling a quaternion scales its norm. *)
Lemma quat_norm_scale (k : R) (q : Quaternion R) :
  quat_norm (mkQuaternion (k * q_x q) (k * q_y q) (k * q_z q) (k * q_w q))
  = Rabs k * quat_norm q.
Proof.
  unfold quat_norm, quat_norm2. rscalar. cbn [q_x q_y q_z q_w].
  replace (k * q_x q * (k * q_x q) + k * q_y q * (k * q_y q)
           + k * q_z q * (k * q_z q) + k * q_w q * (k * q_w q))
    with (Rsqr k * (q_x q * q_x q + q_y q * q_y q + q_z q * q_z q + q_w q * q_w q))
    by (unfold Rsqr; ring).
  rewrite sqrt_mult.
  - by rewrite sqrt_Rsqr_abs.
  - apply Rle_0_sqr.
  - pose proof (quat_norm2_nonneg q) as H. unfold quat_norm2 in H. rscalar. done.
Qed.

(** X25. The rotation matrix does not depend on the length or the sign
    of the quaternion: for every non-zero factor [k],
    [MP_quaternionToMatrix] writes the same matrix for [k q] as for [q],
    provided both quaternions have a norm that is not below the
    threshold.  With [k = -1] this is the sign ambiguity [q = -q]. *)
Theorem quaternionToMatrix_scale_invariant (k : R) (q : Quaternion R) (R0 : Matrix R) :
  k <> 0 -> sEPSILON <= quat_norm q ->
  sEPSILON <= quat_norm (mkQuaternion (k * q_x q) (k * q_y q) (k * q_z q) (k * q_w q)) ->
  MP_quaternionToMatrix (mkQuaternion (k * q_x q) (k * q_y q) (k * q_z q) (k * q_w q)) R0
  = MP_quaternionToMatrix q R0.
Proof.
  intros Hk Hn Hnk. unfold MP_quaternionToMatrix.
  rewrite (quat_normalize_ok _ Hnk), (quat_normalize_ok q Hn).
  rewrite quat_norm_scale. cbn [snd q_x q_y q_z q_w].
  assert (Hpos : 0 < quat_norm q) by (rscalar; lra).
  set (n := quat_norm q) in *. destruct q as [x y z w]. cbn [q_x q_y q_z q_w].
  rscalar.
  assert (Hs : exists s, (s = 1 \/ s = -1) /\
            k * x / (Rabs k * n) = s * (x / n) /\ k * y / (Rabs k * n) = s * (y / n) /\
            k * z / (Rabs k * n) = s * (z / n) /\ k * w / (Rabs k * n) = s * (w / n)).
  { destruct (Rcase_abs k) as [Hneg|Hnn].
    - exists (-1). rewrite (Rabs_left _ Hneg). split; [by right|].
      repeat split; field; lra.
    - exists 1. rewrite (Rabs_right _ Hnn). split; [by left|].
      repeat split; field; lra. }
  destruct Hs as (s & Hs & -> & -> & -> & ->).
  assert (Hss : s * s = 1) by (destruct Hs as [-> | ->]; lra).
  set (x' := x / n). set (y' := y / n). set (z' := z / n). set (w' := w / n).
  assert (E : forall a b, s * a * (s * b) = a * b).
  { intros a b. replace (s * a * (s * b)) with (s * s * (a * b)) by ring.
    rewrite Hss. ring. }
  assert (E2 : forall a b, 2 * (s * a) * (s * b) = 2 * a * b).
  { intros a b. replace (2 * (s * a) * (s * b)) with (2 * (s * a * (s * b))) by ring.
    rewrite E. ring. }
  by rewrite !E, !E2.
Qed.
End QuaternionFacts.

Lemma example_quat_norm : quat_norm (mkQuaternion 0 0 0 2)%R = 2%R.
Proof.
  unfold quat_norm, quat_norm2; rscalar. cbn [q_x q_y q_z q_w].
  replace (0 * 0 + 0 * 0 + 0 * 0 + 2 * 2)%R with (2 * 2)%R by lra.
  apply sqrt_square. lra.
Qed.

Lemma quaternionToMatrix_is_rotation_witness :
  is_rotation (MP_quaternionToMatrix (mkQuaternion 0 0 0 2)%R
                 (mkMatrix 3 3 (replicate 9 5%R))).
Proof.
  apply (quaternionToMatrix_is_rotation (mkQuaternion 0 0 0 2)%R
           (mkMatrix 3 3 (replicate 9 5%R))); try reflexivity.
  rewrite example_quat_norm. rscalar. lra.
Defined.

Lemma quaternionToMatrix_scale_invariant_witness :
  MP_quaternionToMatrix (mkQuaternion (-3 * 0) (-3 * 0) (-3 * 0) (-3 * 2))%R
    (mkMatrix 3 3 (replicate 9 5%R))
  = MP_quaternionToMatrix (mkQuaternion 0 0 0 2)%R (mkMatrix 3 3 (replicate 9 5%R)).
Proof.
  apply (quaternionToMatrix_scale_invariant (-3)%R (mkQuaternion 0 0 0 2)%R
           (mkMatrix 3 3 (replicate 9 5%R))).
  - lra.
  - rewrite example_quat_norm. rscalar. lra.
  - rewrite (quat_norm_scale (-3)%R (mkQuaternion 0 0 0 2)%R), example_quat_norm.
    rewrite Rabs_left by lra. rscalar. lra.
Defined.


(** ** The corners of the band matrix *)

Section TridiagonalCorners.
Local Open Scope R_scope.
Variables (A A' : Matrix R) (B : list R).








End TridiagonalCorners.


